(** * JSON Newline Formatter: the scanner, the newline-escape locator,
      the coordinate mapper, the content transformer and the edit
      synchronizer, embedded from [jsonStringDetector.ts],
      [decorationManager.ts] and [editSynchronizer.ts], with the search
      patterns of [searchHandler.ts] and the folding ranges of
      [jsonFeatureIntegration.ts].

    Conventions of the embedding.
    - A JavaScript string is the list of its UTF-16 code units; indices,
      offsets, lines and columns are natural numbers.
    - Loops that advance an index by a varying step are defined by
      well-founded recursion on the distance to the end of the text.
    - Console logging, wall-clock performance metrics and user
      notifications do not influence any returned value and are left out.
    - A text document uses the line feed as its only line terminator. *)

From Stdlib Require Import Ascii String.
From Stdlib Require Import List Arith Bool Lia NArith.
From Stdlib Require Import Sorted.
From Equations Require Import Equations.
Import ListNotations.

(** ** JavaScript strings *)

Module JS.

Definition jschar := N.
Definition jsstring := list jschar.

Definition chr (a : ascii) : jschar := N_of_ascii a.

(** A string literal of the source, as code units. *)
Definition str (s : string) : jsstring := map chr (list_ascii_of_string s).

(** A JSON text of the examples, written with an apostrophe where the
    text has a double quote. *)
Definition json (s : string) : jsstring :=
  map (fun c => if N.eqb c 39 then 34%N else c) (str s).

Definition BACKSLASH : jschar := 92%N.
Definition QUOTE : jschar := 34%N.
Definition LF : jschar := 10%N.
Definition CH_n : jschar := 110%N.
Definition CH_u : jschar := 117%N.

(** [text[i] === c]; [text[i]] is [undefined] out of range, which is
    equal to no character. *)
Definition charIs (text : jsstring) (i : nat) (c : jschar) : bool :=
  match nth_error text i with
  | Some d => N.eqb d c
  | None => false
  end.

(** [text.substring(a, b)]: both indices are clamped to the length and
    swapped when [a > b]. *)
Definition substring (text : jsstring) (a b : nat) : jsstring :=
  let a' := Nat.min a (length text) in
  let b' := Nat.min b (length text) in
  let lo := Nat.min a' b' in
  let hi := Nat.max a' b' in
  firstn (hi - lo) (skipn lo text).

Fixpoint startsWith (pat s : jsstring) : bool :=
  match pat, s with
  | [], _ => true
  | p :: pat', c :: s' => N.eqb p c && startsWith pat' s'
  | _ :: _, [] => false
  end.

(** [text.includes(pat)] *)
Fixpoint includes (text pat : jsstring) : bool :=
  startsWith pat text ||
  match text with
  | [] => false
  | _ :: text' => includes text' pat
  end.

(** [text.replace(/\n/g, '\\n')]: every line feed becomes the two
    characters backslash, n. *)
Fixpoint replace_LF_by_escape (text : jsstring) : jsstring :=
  match text with
  | [] => []
  | c :: rest =>
      if N.eqb c LF then BACKSLASH :: CH_n :: replace_LF_by_escape rest
      else c :: replace_LF_by_escape rest
  end.

(** [text.replace(/\\n/g, '\n')]: every backslash followed by n, found
    left to right without overlap, becomes one line feed. *)
Fixpoint replace_escape_by_LF (text : jsstring) : jsstring :=
  match text with
  | c :: ((d :: rest') as rest) =>
      if N.eqb c BACKSLASH && N.eqb d CH_n
      then LF :: replace_escape_by_LF rest'
      else c :: replace_escape_by_LF rest
  | _ => text
  end.

(** [(text.match(/\\n/g) || []).length] *)
Fixpoint count_escape (text : jsstring) : nat :=
  match text with
  | c :: ((d :: rest') as rest) =>
      if N.eqb c BACKSLASH && N.eqb d CH_n
      then S (count_escape rest')
      else count_escape rest
  | _ => 0
  end.

(** [text.split('\\n')], with [cur] the piece being read (reversed). *)
Fixpoint split_escape_from (cur : jsstring) (text : jsstring) : list jsstring :=
  match text with
  | c :: ((d :: rest') as rest) =>
      if N.eqb c BACKSLASH && N.eqb d CH_n
      then rev cur :: split_escape_from [] rest'
      else split_escape_from (c :: cur) rest
  | [c] => [rev (c :: cur)]
  | [] => [rev cur]
  end.

Definition split_escape (text : jsstring) : list jsstring :=
  split_escape_from [] text.

(** [text.split('\n')], with [cur] the line being read (reversed). *)
Fixpoint split_LF_from (cur : jsstring) (text : jsstring) : list jsstring :=
  match text with
  | [] => [rev cur]
  | c :: rest =>
      if N.eqb c LF then rev cur :: split_LF_from [] rest
      else split_LF_from (c :: cur) rest
  end.

Definition split_LF (text : jsstring) : list jsstring := split_LF_from [] text.

(** The class [\d]: one of the digits [0] to [9]. *)
Definition isDigit (c : jschar) : bool := (48 <=? c)%N && (c <=? 57)%N.

(** The digits at the head of a string: what [\d+] reads there. *)
Fixpoint takeDigits (s : jsstring) : jsstring :=
  match s with
  | c :: rest => if isDigit c then c :: takeDigits rest else []
  | [] => []
  end.

(** [parseInt(digits, 10)] for a string of digits. *)
Definition parseInt (digits : jsstring) : nat :=
  fold_left (fun n c => 10 * n + N.to_nat (c - 48)) digits 0.

(** [s.match(/position (\d+)/)]: the group of the leftmost match, [None]
    for [null]. *)
Fixpoint match_position (s : jsstring) : option jsstring :=
  match s with
  | [] => None
  | _ :: rest =>
      if startsWith (str "position ") s
      then match takeDigits (skipn 9 s) with
           | [] => match_position rest
           | digits => Some digits
           end
      else match_position rest
  end.

End JS.

Import JS.

(** ** The editor API used by the sources *)

Module VSCode.

(** [vscode.Position]: zero-based line and character. *)
Record Position := mkPosition { line : nat; character : nat }.

Definition isBefore (p q : Position) : bool :=
  (line p <? line q) || ((line p =? line q) && (character p <? character q)).

Definition isAfterOrEqual (p q : Position) : bool := negb (isBefore p q).

Definition isAfter (p q : Position) : bool := isBefore q p.

Definition Position_eqb (p q : Position) : bool :=
  (line p =? line q) && (character p =? character q).

Definition Position_max (p q : Position) : Position :=
  if isBefore p q then q else p.

Definition Position_min (p q : Position) : Position :=
  if isBefore q p then q else p.

(** [vscode.Range]; [newRange] is the constructor, which orders its two
    arguments. *)
Record Range := mkRange { range_start : Position; range_end : Position }.

Definition newRange (a b : Position) : Range :=
  if isBefore b a then mkRange b a else mkRange a b.

(** [range.intersection(other)], [None] for [undefined]. *)
Definition intersection (r other : Range) : option Range :=
  let s := Position_max (range_start other) (range_start r) in
  let e := Position_min (range_end other) (range_end r) in
  if isAfter s e then None else Some (newRange s e).

(** [range.contains(position)] *)
Definition contains (r : Range) (p : Position) : bool :=
  negb (isBefore p (range_start r)) && negb (isBefore (range_end r) p).

(** [vscode.TextDocument]: the fields and methods the sources read. *)
Record TextDocument := mkTextDocument {
  uri : string;
  languageId : string;
  doc_version : nat;
  getText : jsstring
}.

(** [document.positionAt(offset)] in a document whose end-of-line
    sequence is the line feed: the offset is clamped to the text; each
    line feed before it starts a new line. *)
Fixpoint positionAt_from (text : jsstring) (offset l c : nat) : Position :=
  match offset, text with
  | S offset', ch :: rest =>
      if N.eqb ch LF then positionAt_from rest offset' (S l) 0
      else positionAt_from rest offset' l (S c)
  | _, _ => mkPosition l c
  end.

Definition positionAt (document : TextDocument) (offset : nat) : Position :=
  positionAt_from (getText document) offset 0 0.

(** [document.offsetAt(position)]: the position is first adjusted to the
    document, a line past the last one to the end of the text and a
    character past the end of its line to the end of that line. *)
Fixpoint offsetAt_from (text : jsstring) (l c : nat) : nat :=
  match text with
  | [] => 0
  | ch :: rest =>
      match l, c with
      | 0, 0 => 0
      | 0, S c' => if N.eqb ch LF then 0 else S (offsetAt_from rest 0 c')
      | S l', _ =>
          if N.eqb ch LF then S (offsetAt_from rest l' c)
          else S (offsetAt_from rest l c)
      end
  end.

Definition offsetAt (document : TextDocument) (p : Position) : nat :=
  offsetAt_from (getText document) (line p) (character p).

(** [document.getText(range)] *)
Definition getTextIn (document : TextDocument) (r : Range) : jsstring :=
  substring (getText document)
    (offsetAt document (range_start r)) (offsetAt document (range_end r)).

End VSCode.

Import VSCode.

(** ** The built-in [JSON.parse], as far as the sources use it: whether
    the text is accepted. A pushdown recognizer of the JSON grammar
    (one value, surrounded by optional white space), reading one code
    unit at a time. *)

Module JSON.

Inductive Container := InArray | InObject.

Inductive State :=
| Value | ArrayStart | ObjectStart | Key | Colon | AfterValue
| InString (key : bool) | Escape (key : bool) | Hex (key : bool) (remaining : nat)
| Literal (rest : jsstring)
| NumMinus | NumZero | NumInt | NumDot | NumFrac | NumE | NumESign | NumExp
| Fail.

Definition among (c : jschar) (s : string) : bool :=
  existsb (N.eqb c) (str s).

Definition isWs (c : jschar) : bool :=
  existsb (N.eqb c) [32; 9; 10; 13]%N.

Definition isDigit (c : jschar) : bool := among c "0123456789".

Definition isHexDigit (c : jschar) : bool := among c "0123456789abcdefABCDEF".

Definition startValue (c : jschar) (stack : list Container)
  : State * list Container :=
  if N.eqb c (chr "{") then (ObjectStart, InObject :: stack)
  else if N.eqb c (chr "[") then (ArrayStart, InArray :: stack)
  else if N.eqb c QUOTE then (InString false, stack)
  else if N.eqb c (chr "-") then (NumMinus, stack)
  else if N.eqb c (chr "0") then (NumZero, stack)
  else if isDigit c then (NumInt, stack)
  else if N.eqb c (chr "t") then (Literal (str "rue"), stack)
  else if N.eqb c (chr "f") then (Literal (str "alse"), stack)
  else if N.eqb c (chr "n") then (Literal (str "ull"), stack)
  else (Fail, stack).

Definition afterValue (c : jschar) (stack : list Container)
  : State * list Container :=
  if isWs c then (AfterValue, stack)
  else if N.eqb c (chr ",") then
    match stack with
    | InArray :: _ => (Value, stack)
    | InObject :: _ => (Key, stack)
    | [] => (Fail, stack)
    end
  else if N.eqb c (chr "]") then
    match stack with
    | InArray :: stack' => (AfterValue, stack')
    | _ => (Fail, stack)
    end
  else if N.eqb c (chr "}") then
    match stack with
    | InObject :: stack' => (AfterValue, stack')
    | _ => (Fail, stack)
    end
  else (Fail, stack).

Definition step (cfg : State * list Container) (c : jschar)
  : State * list Container :=
  let (st, stack) := cfg in
  match st with
  | Value => if isWs c then cfg else startValue c stack
  | ArrayStart =>
      if isWs c then cfg
      else if N.eqb c (chr "]") then (AfterValue, tl stack)
      else startValue c stack
  | ObjectStart =>
      if isWs c then cfg
      else if N.eqb c (chr "}") then (AfterValue, tl stack)
      else if N.eqb c QUOTE then (InString true, stack)
      else (Fail, stack)
  | Key =>
      if isWs c then cfg
      else if N.eqb c QUOTE then (InString true, stack)
      else (Fail, stack)
  | Colon =>
      if isWs c then cfg
      else if N.eqb c (chr ":") then (Value, stack)
      else (Fail, stack)
  | AfterValue => afterValue c stack
  | InString k =>
      if N.eqb c QUOTE then ((if k then Colon else AfterValue), stack)
      else if N.eqb c BACKSLASH then (Escape k, stack)
      else if (c <? 32)%N then (Fail, stack)
      else cfg
  | Escape k =>
      if N.eqb c QUOTE || among c "\/bfnrt" then (InString k, stack)
      else if N.eqb c CH_u then (Hex k 4, stack)
      else (Fail, stack)
  | Hex k n =>
      if isHexDigit c then
        match n with
        | 0 => (Fail, stack)
        | 1 => (InString k, stack)
        | S n' => (Hex k n', stack)
        end
      else (Fail, stack)
  | Literal rest =>
      match rest with
      | r :: rest' =>
          if N.eqb c r
          then ((match rest' with [] => AfterValue | _ => Literal rest' end), stack)
          else (Fail, stack)
      | [] => (Fail, stack)
      end
  | NumMinus =>
      if N.eqb c (chr "0") then (NumZero, stack)
      else if isDigit c then (NumInt, stack)
      else (Fail, stack)
  | NumZero =>
      if N.eqb c (chr ".") then (NumDot, stack)
      else if among c "eE" then (NumE, stack)
      else afterValue c stack
  | NumInt =>
      if isDigit c then cfg
      else if N.eqb c (chr ".") then (NumDot, stack)
      else if among c "eE" then (NumE, stack)
      else afterValue c stack
  | NumDot => if isDigit c then (NumFrac, stack) else (Fail, stack)
  | NumFrac =>
      if isDigit c then cfg
      else if among c "eE" then (NumE, stack)
      else afterValue c stack
  | NumE =>
      if among c "+-" then (NumESign, stack)
      else if isDigit c then (NumExp, stack)
      else (Fail, stack)
  | NumESign => if isDigit c then (NumExp, stack) else (Fail, stack)
  | NumExp => if isDigit c then cfg else afterValue c stack
  | Fail => cfg
  end.

Definition accepting (cfg : State * list Container) : bool :=
  match cfg with
  | (AfterValue, []) | (NumZero, []) | (NumInt, [])
  | (NumFrac, []) | (NumExp, []) => true
  | _ => false
  end.

(** [true] when [JSON.parse(text)] returns, [false] when it throws. *)
Definition parses (text : jsstring) : bool :=
  accepting (fold_left step text (Value, [])).

End JSON.

(** ** jsonStringDetector.ts: the newline-escape locator *)

(** The inner loop of [findNewlineEscapeSequences] and of
    [isRealNewlineEscape]: [j] runs downwards from [n - 1] while
    [j >= stop] and [text[j]] is a backslash. [n] is [j + 1]. *)
Fixpoint countBackslashes (text : jsstring) (stop n backslashCount : nat) : nat :=
  match n with
  | 0 => backslashCount
  | S j =>
      if (stop <=? j) && charIs text j BACKSLASH
      then countBackslashes text stop j (S backslashCount)
      else backslashCount
  end.

Equations findNewlineEscapeSequences_loop
    (text : jsstring) (i : nat) (positions : list nat) : list nat
    by wf (length text - i) lt :=
  findNewlineEscapeSequences_loop text i positions :=
    match lt_dec i (length text - 1) with
    | left _ =>
        if charIs text i BACKSLASH && charIs text (i + 1) CH_n
        then
          let backslashCount := countBackslashes text 0 i 0 in
          findNewlineEscapeSequences_loop text (i + 2)
            (if Nat.even backslashCount then positions ++ [i] else positions)
        else findNewlineEscapeSequences_loop text (i + 1) positions
    | right _ => positions
    end.
Solve All Obligations with lia.

Definition findNewlineEscapeSequences (text : jsstring) : list nat :=
  findNewlineEscapeSequences_loop text 0 [].

Definition containsNewlines (text : jsstring) : bool :=
  0 <? length (findNewlineEscapeSequences text).

Definition countNewlinesInString (text : jsstring) : nat :=
  length (findNewlineEscapeSequences text).


(** ** jsonStringDetector.ts: the string scanner *)

Record StringRange := mkStringRange {
  start : Position;
  end_ : Position;
  content : jsstring;
  hasNewlines : bool
}.

(** What [categorizeJsonError] returns; [None] for an [errorPosition]
    that is [undefined]. *)
Record JsonErrorInfo := mkJsonErrorInfo {
  info_error : jsstring;
  info_errorPosition : option Position
}.

(** [JsonParsingResult]. The [error] and the [errorPosition] of a text
    that is rejected are made from the message of the exception thrown
    by [JSON.parse], whose wording is the engine's own: the two fields
    are given as functions of that message. *)
Record JsonParsingResult := mkJsonParsingResult {
  isValid : bool;
  error : jsstring -> option jsstring;
  errorPosition : jsstring -> option Position;
  stringRanges : list StringRange
}.

Definition isValidUnicodeEscape (hexChars : jsstring) : bool :=
  if negb (length hexChars =? 4) then false
  else forallb JSON.isHexDigit hexChars.

Definition isValidEscapeSequence (char : option jschar) : bool :=
  match char with
  | Some c => N.eqb c QUOTE || JSON.among c "\/bfnrtu"
  | None => false
  end.

(** [text[i] < ' ' && text[i] !== '\t'] *)
Definition isControlExceptTab (char : option jschar) : bool :=
  match char with
  | Some c => (c <? 32)%N && negb (N.eqb c 9)
  | None => false
  end.

(** The loop of [extractSingleStringRange] that looks for the closing
    quote from index [i]; [None] is [stringEnd === -1]. *)
Equations findStringEnd (text : jsstring) (i : nat) : option nat
    by wf (length text - i) lt :=
  findStringEnd text i :=
    match lt_dec i (length text) with
    | left _ =>
        if charIs text i BACKSLASH then
          if i + 1 <? length text then
            let nextChar := nth_error text (i + 1) in
            if charIs text (i + 1) CH_u then
              if (i + 5 <? length text)
                 && isValidUnicodeEscape (substring text (i + 2) (i + 6))
              then findStringEnd text (i + 6)
              else findStringEnd text (i + 2)
            else if isValidEscapeSequence nextChar then findStringEnd text (i + 2)
            else findStringEnd text (i + 2)
          else None
        else if charIs text i QUOTE then Some i
        else if isControlExceptTab (nth_error text i) then findStringEnd text (i + 1)
        else findStringEnd text (i + 1)
    | right _ => None
    end.
Solve All Obligations with lia.

Definition extractSingleStringRange
    (document : TextDocument) (text : jsstring) (startIndex : nat)
  : option (StringRange * nat) :=
  if negb (charIs text startIndex QUOTE) then None
  else
    let stringStart := startIndex in
    match findStringEnd text (startIndex + 1) with
    | None => None
    | Some stringEnd =>
        let stringContent := substring text (stringStart + 1) stringEnd in
        let hasNewlines := containsNewlines stringContent in
        let startPos := positionAt document stringStart in
        let endPos := positionAt document (stringEnd + 1) in
        Some (mkStringRange startPos endPos stringContent hasNewlines,
              stringEnd + 1)
    end.

(** The closing quote lies at or after the index the search starts from,
    so the scan resumes strictly after the opening quote. *)
Lemma findStringEnd_bounds text i stringEnd :
  findStringEnd text i = Some stringEnd ->
  i <= stringEnd < length text /\ charIs text stringEnd QUOTE = true.
Proof.
  remember (length text - i) as m eqn:Hm.
  revert i Hm. induction m as [m IH] using lt_wf_ind. intros i Hm.
  rewrite findStringEnd_equation_1.
  destruct (lt_dec i (length text)) as [Hlt|]; [|discriminate].
  assert (Hrec : forall k, 0 < k ->
            findStringEnd text (i + k) = Some stringEnd ->
            i <= stringEnd < length text /\ charIs text stringEnd QUOTE = true).
  { intros k Hk Hf.
    destruct (IH (length text - (i + k)) ltac:(lia) (i + k) eq_refl Hf) as [? ?].
    split; [lia | assumption]. }
  cbv zeta.
  repeat match goal with
         | |- context [if ?b then _ else _] => destruct b eqn:?
         end;
    try discriminate; try (apply Hrec; lia).
  intros [= <-]. split; [lia | assumption].
Qed.

Lemma extractSingleStringRange_nextIndex document text i range nextIndex :
  extractSingleStringRange document text i = Some (range, nextIndex) ->
  i < nextIndex.
Proof.
  unfold extractSingleStringRange.
  destruct (negb (charIs text i QUOTE)); [discriminate|].
  destruct (findStringEnd text (i + 1)) as [e|] eqn:He; [|discriminate].
  intros [= _ <-]. apply findStringEnd_bounds in He. lia.
Qed.

Definition maxFileSize : N := 1048576.
Definition maxStrings : N := 10000.

(** The loop of [extractStringRangesFromValidJson]. *)
Equations extractStringRanges_loop
    (document : TextDocument) (text : jsstring)
    (i stringCount : nat) (ranges : list StringRange) : list StringRange
    by wf (length text - i) lt :=
  extractStringRanges_loop document text i stringCount ranges :=
    match lt_dec i (length text) with
    | left _ =>
        if (N.of_nat stringCount <? maxStrings)%N then
          if charIs text i QUOTE then
            match extractSingleStringRange document text i as stringResult
                  return extractSingleStringRange document text i = stringResult -> _
            with
            | Some (range, nextIndex) => fun _ =>
                extractStringRanges_loop document text nextIndex
                  (S stringCount) (ranges ++ [range])
            | None => fun _ =>
                extractStringRanges_loop document text (i + 1) stringCount ranges
            end eq_refl
          else extractStringRanges_loop document text (i + 1) stringCount ranges
        else ranges
    | right _ => ranges
    end.
Next Obligation.
  match goal with
  | H : extractSingleStringRange _ _ _ = Some _ |- _ =>
      apply extractSingleStringRange_nextIndex in H
  | H : Some _ = extractSingleStringRange _ _ _ |- _ =>
      symmetry in H; apply extractSingleStringRange_nextIndex in H
  end; lia.
Qed.
Solve All Obligations with lia.

(** The loop of [extractStringRangesWithLimits], run on the truncated
    text. *)
Equations extractStringRangesWithLimits_loop
    (document : TextDocument) (limitedText : jsstring)
    (i : nat) (ranges : list StringRange) : list StringRange
    by wf (length limitedText - i) lt :=
  extractStringRangesWithLimits_loop document limitedText i ranges :=
    match lt_dec i (length limitedText) with
    | left _ =>
        if charIs limitedText i QUOTE then
          match extractSingleStringRange document limitedText i as stringResult
                return extractSingleStringRange document limitedText i = stringResult -> _
          with
          | Some (range, nextIndex) => fun _ =>
              extractStringRangesWithLimits_loop document limitedText nextIndex
                (ranges ++ [range])
          | None => fun _ =>
              extractStringRangesWithLimits_loop document limitedText (i + 1) ranges
          end eq_refl
        else extractStringRangesWithLimits_loop document limitedText (i + 1) ranges
    | right _ => ranges
    end.
Next Obligation.
  match goal with
  | H : extractSingleStringRange _ _ _ = Some _ |- _ =>
      apply extractSingleStringRange_nextIndex in H
  | H : Some _ = extractSingleStringRange _ _ _ |- _ =>
      symmetry in H; apply extractSingleStringRange_nextIndex in H
  end; lia.
Qed.
Solve All Obligations with lia.

Definition extractStringRangesWithLimits
    (document : TextDocument) (text : jsstring) (limit : nat)
  : list StringRange :=
  let limitedText := substring text 0 limit in
  extractStringRangesWithLimits_loop document limitedText 0 [].

Definition extractStringRangesFromValidJson
    (document : TextDocument) (text : jsstring) : list StringRange :=
  if (maxFileSize <? N.of_nat (length text))%N
  then extractStringRangesWithLimits document text (N.to_nat maxFileSize)
  else extractStringRanges_loop document text 0 0 [].

(** [offsetToPositionInText] *)
Fixpoint offsetToPositionInText_loop
    (text : jsstring) (n l c : nat) : Position :=
  match n, text with
  | S n', ch :: rest =>
      if N.eqb ch LF then offsetToPositionInText_loop rest n' (S l) 0
      else offsetToPositionInText_loop rest n' l (S c)
  | _, _ => mkPosition l c
  end.

Definition offsetToPositionInText (text : jsstring) (offset : nat) : Position :=
  offsetToPositionInText_loop text (Nat.min offset (length text)) 0 0.

(** [categorizeJsonError]; [errorMessage] is [error.message ||
    error.toString()] of the exception caught. A number that [parseInt]
    rounds is beyond the length of every text, where
    [offsetToPositionInText] gives the end of the text all the same. *)
Definition categorizeJsonError (errorMessage : jsstring) (text : jsstring)
  : JsonErrorInfo :=
  if includes errorMessage (str "Unexpected token") then
    let errorPosition :=
      match match_position errorMessage with
      | Some digits => Some (offsetToPositionInText text (parseInt digits))
      | None => None
      end in
    mkJsonErrorInfo (str "Invalid JSON syntax: " ++ errorMessage) errorPosition
  else if includes errorMessage (str "Unterminated string") then
    mkJsonErrorInfo (str "Unterminated string in JSON") None
  else if includes errorMessage (str "Unexpected end of JSON input") then
    mkJsonErrorInfo (str "Incomplete JSON structure") None
  else
    mkJsonErrorInfo (str "JSON parsing error: " ++ errorMessage) None.

(** [parseJsonSafely]: the strict parse gates the scan; a text that does
    not parse yields no string range. *)
Definition parseJsonSafely (document : TextDocument) : JsonParsingResult :=
  let text := getText document in
  if JSON.parses text then
    let stringRanges := extractStringRangesFromValidJson document text in
    mkJsonParsingResult true (fun _ => None) (fun _ => None) stringRanges
  else
    let errorInfo := fun errorMessage => categorizeJsonError errorMessage text in
    mkJsonParsingResult false
      (fun errorMessage => Some (info_error (errorInfo errorMessage)))
      (fun errorMessage => info_errorPosition (errorInfo errorMessage))
      [].

Definition findStringRanges (document : TextDocument) : list StringRange :=
  stringRanges (parseJsonSafely document).

(** ** jsonStringDetector.ts: newline occurrences in a document *)

Record NewlinePosition := mkNewlinePosition {
  np_position : Position;
  np_stringRange : StringRange
}.

Record DetailedNewlinePosition := mkDetailedNewlinePosition {
  position : Position;
  endPosition : Position;
  stringRange : StringRange;
  offset : nat;
  endOffset : nat;
  indexInString : nat;
  beforeText : jsstring;
  afterText : jsstring
}.

Record VisualPositionInfo := mkVisualPositionInfo {
  visualLine : nat;
  visualCharacter : nat;
  totalVisualLines : nat;
  currentLineContent : jsstring;
  isLastNewlineInString : bool
}.

(** The loop of [findNewlinePositionsInString]. *)
Equations findNewlinePositionsInString_loop
    (document : TextDocument) (range : StringRange) (text : jsstring)
    (stringEndOffset i : nat) (positions : list NewlinePosition)
  : list NewlinePosition
    by wf (stringEndOffset - i) lt :=
  findNewlinePositionsInString_loop document range text stringEndOffset i positions :=
    match lt_dec i (stringEndOffset - 1) with
    | left _ =>
        if charIs text i BACKSLASH && charIs text (i + 1) CH_n then
          findNewlinePositionsInString_loop document range text stringEndOffset
            (i + 2) (positions ++ [mkNewlinePosition (positionAt document i) range])
        else if charIs text i BACKSLASH then
          findNewlinePositionsInString_loop document range text stringEndOffset
            (i + 2) positions
        else
          findNewlinePositionsInString_loop document range text stringEndOffset
            (i + 1) positions
    | right _ => positions
    end.
Solve All Obligations with lia.

Definition findNewlinePositionsInString
    (document : TextDocument) (range : StringRange) : list NewlinePosition :=
  let text := getText document in
  let stringStartOffset := offsetAt document (start range) + 1 in
  let stringEndOffset := offsetAt document (end_ range) - 1 in
  findNewlinePositionsInString_loop document range text stringEndOffset
    stringStartOffset [].

Definition extractNewlinePositions (document : TextDocument)
  : list NewlinePosition :=
  let result := parseJsonSafely document in
  if negb (isValid result) then []
  else
    flat_map
      (fun range =>
         if hasNewlines range then findNewlinePositionsInString document range
         else [])
      (stringRanges result).

Definition isPositionInRange (p : Position) (range : StringRange) : bool :=
  isAfterOrEqual p (start range) && isBefore p (end_ range).

(** [getStringRangeAtPosition], [None] for [null]. *)
Definition getStringRangeAtPosition
    (document : TextDocument) (p : Position) : option StringRange :=
  let result := parseJsonSafely document in
  if negb (isValid result) then None
  else find (isPositionInRange p) (stringRanges result).

Definition isRealNewlineEscape
    (text : jsstring) (pos stringStart : nat) : bool :=
  let backslashCount := countBackslashes text stringStart pos 0 in
  Nat.even backslashCount.

(** The loop of [findDetailedNewlinePositionsInString]. *)
Equations findDetailedNewlinePositionsInString_loop
    (document : TextDocument) (range : StringRange) (text : jsstring)
    (stringStartOffset stringEndOffset i newlineIndex : nat)
    (positions : list DetailedNewlinePosition)
  : list DetailedNewlinePosition
    by wf (stringEndOffset - i) lt :=
  findDetailedNewlinePositionsInString_loop document range text
      stringStartOffset stringEndOffset i newlineIndex positions :=
    match lt_dec i (stringEndOffset - 1) with
    | left _ =>
        if charIs text i BACKSLASH then
          if i + 1 <? stringEndOffset then
            if charIs text (i + 1) CH_n then
              if isRealNewlineEscape text i stringStartOffset then
                findDetailedNewlinePositionsInString_loop document range text
                  stringStartOffset stringEndOffset (i + 2) (S newlineIndex)
                  (positions ++
                   [mkDetailedNewlinePosition
                      (positionAt document i) (positionAt document (i + 2))
                      range i (i + 2) newlineIndex
                      (substring text stringStartOffset i)
                      (substring text (i + 2) stringEndOffset)])
              else
                findDetailedNewlinePositionsInString_loop document range text
                  stringStartOffset stringEndOffset (i + 2) newlineIndex positions
            else if charIs text (i + 1) CH_u then
              if (i + 5 <? stringEndOffset)
                 && isValidUnicodeEscape (substring text (i + 2) (i + 6))
              then
                findDetailedNewlinePositionsInString_loop document range text
                  stringStartOffset stringEndOffset (i + 6) newlineIndex positions
              else
                findDetailedNewlinePositionsInString_loop document range text
                  stringStartOffset stringEndOffset (i + 2) newlineIndex positions
            else
              findDetailedNewlinePositionsInString_loop document range text
                stringStartOffset stringEndOffset (i + 2) newlineIndex positions
          else
            findDetailedNewlinePositionsInString_loop document range text
              stringStartOffset stringEndOffset (i + 1) newlineIndex positions
        else
          findDetailedNewlinePositionsInString_loop document range text
            stringStartOffset stringEndOffset (i + 1) newlineIndex positions
    | right _ => positions
    end.
Solve All Obligations with lia.

Definition findDetailedNewlinePositionsInString
    (document : TextDocument) (range : StringRange)
  : list DetailedNewlinePosition :=
  let text := getText document in
  let stringStartOffset := offsetAt document (start range) + 1 in
  let stringEndOffset := offsetAt document (end_ range) - 1 in
  findDetailedNewlinePositionsInString_loop document range text
    stringStartOffset stringEndOffset stringStartOffset 0 [].

Definition getDetailedNewlinePositions (document : TextDocument)
  : list DetailedNewlinePosition :=
  let result := parseJsonSafely document in
  if negb (isValid result) then []
  else
    flat_map
      (fun range =>
         if hasNewlines range
         then findDetailedNewlinePositionsInString document range
         else [])
      (stringRanges result).

(** [calculateVisualPosition]. [lines[currentLineIndex] || ''] is the
    empty string when the index is out of range. The last field compares
    [indexInString] with [count - 1], which may be [-1]. *)
Definition calculateVisualPosition
    (document : TextDocument) (newlinePosition : DetailedNewlinePosition)
  : VisualPositionInfo :=
  let stringContent := content (stringRange newlinePosition) in
  let beforeNewline := beforeText newlinePosition in
  let linesBeforeThisNewline := count_escape beforeNewline in
  let lines := split_escape stringContent in
  let currentLineIndex := linesBeforeThisNewline in
  let currentLineContent := nth currentLineIndex lines [] in
  mkVisualPositionInfo currentLineIndex (length currentLineContent)
    (length lines) currentLineContent
    (indexInString newlinePosition + 1 =? countNewlinesInString stringContent).

(** ** decorationManager.ts and editSynchronizer.ts: data *)

Record NewlineDecoration := mkNewlineDecoration {
  range : Range;
  renderText : jsstring;
  isActive : bool
}.

Record EditMapping := mkEditMapping {
  visualPosition : Position;
  actualPosition : Position;
  mapping_offset : nat
}.

Record DocumentState := mkDocumentState {
  originalContent : jsstring;
  visualContent : jsstring;
  mappings : list EditMapping;
  version : nat
}.

(** [vscode.TextDocumentContentChangeEvent] and
    [vscode.TextDocumentChangeEvent], with the fields the sources read. *)
Record ContentChange := mkContentChange {
  change_range : Range;
  change_text : jsstring
}.

Record TextDocumentChangeEvent := mkTextDocumentChangeEvent {
  event_document : TextDocument;
  contentChanges : list ContentChange
}.

(** The active text editor: its document and its selection (a cursor has
    both ends at one position). *)
Record TextEditor := mkTextEditor {
  editor_document : TextDocument;
  selection : Position * Position
}.

(** An edit handed to [vscode.workspace.applyEdit]:
    [edit.replace(uri, range, newText)]. *)
Record WorkspaceEdit := mkWorkspaceEdit {
  edit_uri : string;
  edit_range : Range;
  edit_newText : jsstring
}.

(** The mutable state the two classes share with the editor: the fields
    of [EditSynchronizer] and of its [DecorationManager], the active text
    editor, and the edits submitted for application so far. *)
Record World := mkWorld {
  isProcessingEdit : bool;
  documentStates : list (string * DocumentState);
  currentDecorations : list NewlineDecoration;
  isEnabled : bool;
  activeTextEditor : option TextEditor;
  appliedEdits : list WorkspaceEdit
}.

(** ** A state monad over [World] *)

Definition M (A : Type) : Type := World -> A * World.

Definition ret {A : Type} (a : A) : M A := fun w => (a, w).

Definition bind {A B : Type} (m : M A) (k : A -> M B) : M B :=
  fun w => let (a, w') := m w in k a w'.

Definition get : M World := fun w => (w, w).

Definition modify (f : World -> World) : M unit := fun w => (tt, f w).

Definition exec {A : Type} (m : M A) (w : World) : World := snd (m w).

Definition eval {A : Type} (m : M A) (w : World) : A := fst (m w).

Declare Scope monad_scope.
Delimit Scope monad_scope with monad.
Notation "x <- m ;; k" := (bind m (fun x => k))
  (at level 61, m at next level, right associativity) : monad_scope.
Notation "m ;;; k" := (bind m (fun _ => k))
  (at level 61, right associativity) : monad_scope.
Open Scope monad_scope.

(** A [for ... of] loop whose body acts on the state. *)
Fixpoint forEach {A : Type} (l : list A) (body : A -> M unit) : M unit :=
  match l with
  | [] => ret tt
  | a :: l' => body a ;;; forEach l' body
  end.

(** ** [Map<string, DocumentState>] *)

Fixpoint Map_get (m : list (string * DocumentState)) (k : string)
  : option DocumentState :=
  match m with
  | [] => None
  | (k', v) :: m' => if String.eqb k' k then Some v else Map_get m' k
  end.

Definition Map_has (m : list (string * DocumentState)) (k : string) : bool :=
  match Map_get m k with Some _ => true | None => false end.

Fixpoint Map_set (m : list (string * DocumentState)) (k : string)
    (v : DocumentState) : list (string * DocumentState) :=
  match m with
  | [] => [(k, v)]
  | (k', v') :: m' =>
      if String.eqb k' k then (k, v) :: m' else (k', v') :: Map_set m' k v
  end.

(** ** decorationManager.ts *)

Definition isJsonDocument (document : TextDocument) : bool :=
  String.eqb (languageId document) "json"
  || String.eqb (languageId document) "jsonc".

(** [editor.document !== document] compares object identities; a document
    is identified by its uri. *)
Definition sameDocument (d1 d2 : TextDocument) : bool :=
  String.eqb (uri d1) (uri d2).

Definition createDecorationForNewline
    (document : TextDocument) (newlinePos : DetailedNewlinePosition)
  : NewlineDecoration :=
  mkNewlineDecoration
    (newRange (position newlinePos) (endPosition newlinePos)) [LF] true.

Definition applyDecorations (document : TextDocument) : M unit :=
  w <- get ;;
  if negb (isEnabled w) then ret tt
  else
    match activeTextEditor w with
    | None => ret tt
    | Some editor =>
        if negb (sameDocument (editor_document editor) document) then ret tt
        else
          let newlinePositions := getDetailedNewlinePositions document in
          modify (fun w =>
            mkWorld (isProcessingEdit w) (documentStates w)
              (map (createDecorationForNewline document) newlinePositions)
              (isEnabled w) (activeTextEditor w) (appliedEdits w))
    end.

Definition updateDecorations (changes : TextDocumentChangeEvent) : M unit :=
  w <- get ;;
  if negb (isEnabled w) then ret tt
  else applyDecorations (event_document changes).

Definition getDecorationsInRange (r : Range) : M (list NewlineDecoration) :=
  w <- get ;;
  ret (filter
         (fun decoration =>
            isActive decoration &&
            match intersection r (range decoration) with
            | Some _ => true
            | None => false
            end)
         (currentDecorations w)).

(** ** editSynchronizer.ts *)

Definition setProcessingEdit (b : bool) : M unit :=
  modify (fun w =>
    mkWorld b (documentStates w) (currentDecorations w)
      (isEnabled w) (activeTextEditor w) (appliedEdits w)).

Definition setDocumentStates (m : list (string * DocumentState)) : M unit :=
  modify (fun w =>
    mkWorld (isProcessingEdit w) m (currentDecorations w)
      (isEnabled w) (activeTextEditor w) (appliedEdits w)).

(** [vscode.workspace.applyEdit(edit)]: the edit is submitted; its
    completion is a later event. *)
Definition applyEdit (edit : WorkspaceEdit) : M unit :=
  modify (fun w =>
    mkWorld (isProcessingEdit w) (documentStates w) (currentDecorations w)
      (isEnabled w) (activeTextEditor w) (appliedEdits w ++ [edit])).

Definition setSelection (p q : Position) : M unit :=
  modify (fun w =>
    mkWorld (isProcessingEdit w) (documentStates w) (currentDecorations w)
      (isEnabled w)
      (option_map (fun e => mkTextEditor (editor_document e) (p, q))
         (activeTextEditor w))
      (appliedEdits w)).

Definition calculateInitialMappings_loop
    (newlinePositions : list DetailedNewlinePosition) : list EditMapping :=
  fst (fold_left
         (fun (acc : list EditMapping * nat) newlinePos =>
            let (mappings, cumulativeOffset) := acc in
            (mappings ++
             [mkEditMapping
                (mkPosition (line (position newlinePos) + cumulativeOffset)
                   (character (position newlinePos)))
                (position newlinePos) cumulativeOffset],
             cumulativeOffset + 2))
         newlinePositions ([], 0)).

Definition calculateInitialMappings (document : TextDocument)
  : list EditMapping :=
  calculateInitialMappings_loop (getDetailedNewlinePositions document).

Definition initializeDocumentState (document : TextDocument) : M unit :=
  let content := getText document in
  let mappings := calculateInitialMappings document in
  let state := mkDocumentState content content mappings (doc_version document) in
  w <- get ;;
  setDocumentStates (Map_set (documentStates w) (uri document) state).

Definition ensureDocumentState (document : TextDocument) : M unit :=
  w <- get ;;
  if isJsonDocument document && negb (Map_has (documentStates w) (uri document))
  then initializeDocumentState document
  else ret tt.

Definition updateDocumentState (document : TextDocument) : M unit :=
  w <- get ;;
  match Map_get (documentStates w) (uri document) with
  | Some existingState =>
      setDocumentStates
        (Map_set (documentStates w) (uri document)
           (mkDocumentState (getText document) (visualContent existingState)
              (calculateInitialMappings document) (doc_version document)))
  | None => initializeDocumentState document
  end.

(** [transformVisualContentToActual] *)
Definition transformVisualContentToActual
    (document : TextDocument) (visualContent : jsstring) (r : Range)
  : jsstring :=
  match getStringRangeAtPosition document (range_start r) with
  | None => visualContent
  | Some _ => replace_LF_by_escape visualContent
  end.

(** [transformActualContentToVisual] *)
Definition transformActualContentToVisual
    (document : TextDocument) (actualContent : jsstring) (r : Range)
  : jsstring :=
  match getStringRangeAtPosition document (range_start r) with
  | None => actualContent
  | Some _ => replace_escape_by_LF actualContent
  end.

Definition calculateVisualPositionForNewline
    (document : TextDocument) (newlinePos : DetailedNewlinePosition)
  : Position :=
  let visualInfo := calculateVisualPosition document newlinePos in
  mkPosition (line (position newlinePos) + visualLine visualInfo)
    (visualCharacter visualInfo).

(** [transformVisualToActual]: the state of the document is ensured, then
    the position is computed from the document alone. The loop carries
    [actualLine] and [cumulativeOffset]. *)
Definition transformVisualToActual_step
    (document : TextDocument) (visualPosition : Position)
    (acc : nat * nat) (newlinePos : DetailedNewlinePosition) : nat * nat :=
  let (actualLine, cumulativeOffset) := acc in
  let newlineVisualPos :=
    calculateVisualPositionForNewline document newlinePos in
  if (line newlineVisualPos <? line visualPosition)
     || ((line newlineVisualPos =? line visualPosition)
         && (character newlineVisualPos <=? character visualPosition))
  then
    if line newlineVisualPos <? line visualPosition
    then (line (position newlinePos), cumulativeOffset + 2)
    else (actualLine, cumulativeOffset + 2)
  else acc.

Definition transformVisualToActual_position
    (document : TextDocument) (visualPosition : Position) : Position :=
  let newlinePositions := getDetailedNewlinePositions document in
  if length newlinePositions =? 0 then visualPosition
  else
    let actualCharacter := character visualPosition in
    let (actualLine, cumulativeOffset) :=
      fold_left (transformVisualToActual_step document visualPosition)
        newlinePositions (line visualPosition, 0) in
    let actualOffset :=
      offsetAt document (mkPosition actualLine actualCharacter)
      + cumulativeOffset in
    positionAt document (Nat.max 0 actualOffset).

Definition transformVisualToActual
    (document : TextDocument) (visualPosition : Position) : M Position :=
  ensureDocumentState document ;;;
  ret (transformVisualToActual_position document visualPosition).

(** [transformActualToVisual]; the loop carries [visualLine],
    [visualCharacter] and [newlinesBefore]. *)
Definition transformActualToVisual_step (actualOffset : nat)
    (acc : nat * nat * nat) (newlinePos : DetailedNewlinePosition)
  : nat * nat * nat :=
  let '(visualLine, visualCharacter, newlinesBefore) := acc in
  if offset newlinePos <? actualOffset then
    if offset newlinePos + 2 <=? actualOffset
    then (S visualLine, actualOffset - (offset newlinePos + 2), S newlinesBefore)
    else (visualLine, visualCharacter, S newlinesBefore)
  else acc.

Definition transformActualToVisual_position
    (document : TextDocument) (actualPosition : Position) : Position :=
  let newlinePositions := getDetailedNewlinePositions document in
  if length newlinePositions =? 0 then actualPosition
  else
    let actualOffset := offsetAt document actualPosition in
    let '(visualLine, visualCharacter, _) :=
      fold_left (transformActualToVisual_step actualOffset) newlinePositions
        (line actualPosition, character actualPosition, 0) in
    mkPosition visualLine (Nat.max 0 visualCharacter).

Definition transformActualToVisual
    (document : TextDocument) (actualPosition : Position) : M Position :=
  ensureDocumentState document ;;;
  ret (transformActualToVisual_position document actualPosition).

Definition updateCursorAfterTransformation
    (document : TextDocument) (r : Range) (newContent : jsstring) : M unit :=
  w <- get ;;
  match activeTextEditor w with
  | None => ret tt
  | Some editor =>
      if negb (sameDocument (editor_document editor) document) then ret tt
      else
        let newEndPosition :=
          mkPosition (line (range_start r))
            (character (range_start r) + length newContent) in
        visualPosition <- transformActualToVisual document newEndPosition ;;
        setSelection visualPosition visualPosition
  end.

(** The continuation passed to [applyEdit(edit).then] in
    [convertLineBreaksToEscapeSequences]: it runs when the application of
    the edit has completed. *)
Definition counterEditApplied
    (document : TextDocument) (r : Range) (convertedText : jsstring) : M unit :=
  setProcessingEdit false ;;;
  updateCursorAfterTransformation document r convertedText.

Definition jsstring_eqb (a b : jsstring) : bool :=
  if list_eq_dec N.eq_dec a b then true else false.

Definition convertLineBreaksToEscapeSequences
    (document : TextDocument) (change : ContentChange) : M unit :=
  let newText := change_text change in
  let convertedText :=
    transformVisualContentToActual document newText (change_range change) in
  if negb (jsstring_eqb convertedText newText) then
    setProcessingEdit true ;;;
    applyEdit (mkWorkspaceEdit (uri document) (change_range change) convertedText)
  else ret tt.

Definition isDeleteAcrossLineBreak
    (document : TextDocument) (r : Range) : M bool :=
  decorations <- getDecorationsInRange r ;;
  let expandedRange :=
    newRange (mkPosition (Nat.max 0 (line (range_start r) - 1)) 0)
             (mkPosition (line (range_end r) + 1) 0) in
  nearbyDecorations <- getDecorationsInRange expandedRange ;;
  ret ((0 <? length decorations) || (0 <? length nearbyDecorations)).

(** [handleLineBreakDeletion] only reads: the affected occurrences are
    computed and nothing is done with them. *)
Definition handleLineBreakDeletion
    (document : TextDocument) (r : Range) : M unit :=
  ret tt.

(** [handleNewlineInsertion] only reads as well. *)
Definition handleNewlineInsertion
    (document : TextDocument) (change : ContentChange) : M unit :=
  ret tt.

Definition handleDecoratedAreaEdit
    (document : TextDocument) (change : ContentChange) : M unit :=
  let changeRange := change_range change in
  let newText := change_text change in
  match getStringRangeAtPosition document (range_start changeRange) with
  | None => ret tt
  | Some _ =>
      if includes newText [LF] && negb (includes newText [BACKSLASH; CH_n])
      then convertLineBreaksToEscapeSequences document change
      else if jsstring_eqb (change_text change) [] then
        across <- isDeleteAcrossLineBreak document changeRange ;;
        if across then handleLineBreakDeletion document changeRange
        else ret tt
      else ret tt
  end.

Definition processContentChange
    (document : TextDocument) (change : ContentChange) : M unit :=
  let changeRange := change_range change in
  let newText := change_text change in
  affectedDecorations <- getDecorationsInRange changeRange ;;
  if 0 <? length affectedDecorations
  then handleDecoratedAreaEdit document change
  else
    if includes newText [BACKSLASH; CH_n]
    then handleNewlineInsertion document change
    else ret tt.

Definition onDidChangeTextDocument (event : TextDocumentChangeEvent) : M unit :=
  w <- get ;;
  if isProcessingEdit w then ret tt
  else
    let document := event_document event in
    if negb (isJsonDocument document) then ret tt
    else
      let parseResult := parseJsonSafely document in
      if negb (isValid parseResult) then ret tt
      else
        ensureDocumentState document ;;;
        forEach (contentChanges event) (processContentChange document) ;;;
        updateDocumentState document ;;;
        updateDecorations event.

Definition isSynchronizationActive : M bool :=
  w <- get ;; ret (negb (isProcessingEdit w)).

(** ** decorationManager.ts: the other operations *)

Definition clearDecorations : M unit :=
  modify (fun w =>
    mkWorld (isProcessingEdit w) (documentStates w) []
      (isEnabled w) (activeTextEditor w) (appliedEdits w)).

Definition refresh : M unit :=
  w <- get ;;
  match activeTextEditor w with
  | Some editor =>
      if isJsonDocument (editor_document editor)
      then applyDecorations (editor_document editor)
      else ret tt
  | None => ret tt
  end.

Definition setEnabled (enabled : bool) : M unit :=
  modify (fun w =>
    mkWorld (isProcessingEdit w) (documentStates w) (currentDecorations w)
      enabled (activeTextEditor w) (appliedEdits w)) ;;;
  if negb enabled then clearDecorations
  else
    w <- get ;;
    match activeTextEditor w with
    | Some editor =>
        if isJsonDocument (editor_document editor)
        then applyDecorations (editor_document editor)
        else ret tt
    | None => ret tt
    end.

Definition isDecorationEnabled : M bool :=
  w <- get ;; ret (isEnabled w).

Definition getActiveDecorationCount : M nat :=
  w <- get ;; ret (length (filter isActive (currentDecorations w))).

(** [getDecorationAtPosition], [None] for [null]. *)
Definition getDecorationAtPosition (p : Position) : M (option NewlineDecoration) :=
  w <- get ;;
  ret (find (fun decoration =>
               isActive decoration && contains (range decoration) p)
         (currentDecorations w)).

(** ** editSynchronizer.ts: the state of a document, the cursor and the
    clipboard *)

(** [Map.prototype.delete] *)
Definition Map_delete (m : list (string * DocumentState)) (k : string)
  : list (string * DocumentState) :=
  filter (fun kv => negb (String.eqb (fst kv) k)) m.

Definition cleanupDocumentState (document : TextDocument) : M unit :=
  w <- get ;;
  setDocumentStates (Map_delete (documentStates w) (uri document)).

(** [getDocumentState], [None] for [null]. *)
Definition getDocumentState (document : TextDocument)
  : M (option DocumentState) :=
  ensureDocumentState document ;;;
  w <- get ;;
  ret (Map_get (documentStates w) (uri document)).

Record CursorTransformation := mkCursorTransformation {
  cursor_visualPosition : Position;
  cursor_actualPosition : Position;
  cursor_isInDecoratedArea : bool;
  cursor_stringRange : option StringRange
}.

(** [stringRange !== null && stringRange.hasNewlines] *)
Definition inDecoratedArea (stringRange : option StringRange) : bool :=
  match stringRange with
  | Some r => hasNewlines r
  | None => false
  end.

Definition transformCursorPosition
    (document : TextDocument) (p : Position) : M CursorTransformation :=
  let stringRange := getStringRangeAtPosition document p in
  let isInDecoratedArea := inDecoratedArea stringRange in
  if isInDecoratedArea then
    visualPosition <- transformActualToVisual document p ;;
    let actualPosition := p in
    ret (mkCursorTransformation visualPosition actualPosition true stringRange)
  else
    ret (mkCursorTransformation p p false None).

(** A [vscode.Selection] is read as the range it spans. *)
Definition isSelectionInDecoratedArea
    (document : TextDocument) (selection : Range) : M bool :=
  decorationsInRange <- getDecorationsInRange selection ;;
  ret (0 <? length decorationsInRange).

Definition handleCopyOperation
    (document : TextDocument) (selection : Range) : M jsstring :=
  let selectedText := getTextIn document selection in
  isInDecoratedArea <- isSelectionInDecoratedArea document selection ;;
  if isInDecoratedArea
  then ret (transformActualContentToVisual document selectedText selection)
  else ret selectedText.

Definition handlePasteOperation
    (document : TextDocument) (p : Position) (clipboardText : jsstring)
  : jsstring :=
  let stringRange := getStringRangeAtPosition document p in
  let isInDecoratedArea := inDecoratedArea stringRange in
  if isInDecoratedArea
  then transformVisualContentToActual document clipboardText (newRange p p)
  else clipboardText.

Record ClipboardTest := mkClipboardTest {
  originalText : jsstring;
  copiedText : jsstring;
  pastedText : jsstring;
  isTransformed : bool
}.

Definition testClipboardOperations
    (document : TextDocument) (selection : Range) : M ClipboardTest :=
  let originalText := getTextIn document selection in
  copiedText <- handleCopyOperation document selection ;;
  let pastedText :=
    handlePasteOperation document (range_start selection) copiedText in
  ret (mkClipboardTest originalText copiedText pastedText
         (negb (jsstring_eqb copiedText originalText)
          || negb (jsstring_eqb pastedText copiedText))).

Record ClipboardValidation := mkClipboardValidation {
  validation_isValid : bool;
  validation_needsTransformation : bool;
  validation_transformedText : jsstring;
  validation_errors : list string
}.

Definition validateClipboardContent
    (text : jsstring) (targetPosition : Position) (document : TextDocument)
  : ClipboardValidation :=
  match getStringRangeAtPosition document targetPosition with
  | Some _ =>
      let needsTransformation :=
        includes text [LF] && negb (includes text [BACKSLASH; CH_n]) in
      let transformedText :=
        if needsTransformation then replace_LF_by_escape text else text in
      let testJson := json "{'test': '" ++ transformedText ++ json "'}" in
      let errors :=
        if JSON.parses testJson then []
        else ["Pasted content would create invalid JSON"%string] in
      mkClipboardValidation (length errors =? 0) needsTransformation
        transformedText errors
  | None => mkClipboardValidation true false text []
  end.

(** ** searchHandler.ts *)

Record SearchPatterns := mkSearchPatterns {
  visualPattern : jsstring;
  actualPattern : jsstring;
  needsTransformation : bool
}.

Definition transformSearchText
    (searchText : jsstring) (document : TextDocument) : SearchPatterns :=
  let hasActualNewlines := includes searchText [LF] in
  let hasEscapedNewlines := includes searchText [BACKSLASH; CH_n] in
  if hasActualNewlines then
    mkSearchPatterns searchText (replace_LF_by_escape searchText) true
  else if hasEscapedNewlines then
    mkSearchPatterns (replace_escape_by_LF searchText) searchText true
  else
    mkSearchPatterns searchText searchText false.

Record SearchResult := mkSearchResult {
  result_range : Range;
  result_text : jsstring;
  result_isInDecoratedArea : bool;
  result_visualRange : option Range;
  result_actualRange : Range
}.

Definition createSearchResult
    (document : TextDocument) (r : Range) (needsTransformation : bool)
  : M SearchResult :=
  let text := getTextIn document r in
  let stringRange := getStringRangeAtPosition document (range_start r) in
  let isInDecoratedArea := inDecoratedArea stringRange in
  if isInDecoratedArea && needsTransformation then
    visualStart <- transformActualToVisual document (range_start r) ;;
    visualEnd <- transformActualToVisual document (range_end r) ;;
    ret (mkSearchResult r text isInDecoratedArea
           (Some (newRange visualStart visualEnd)) r)
  else
    ret (mkSearchResult r text isInDecoratedArea None r).

Record ReplaceOperation := mkReplaceOperation {
  searchResult : SearchResult;
  replacementText : jsstring;
  transformedReplacementText : jsstring;
  success : bool
}.

Definition createReplaceOperation
    (document : TextDocument) (searchResult : SearchResult)
    (replacementText : jsstring) : ReplaceOperation :=
  let transformedReplacementText :=
    if result_isInDecoratedArea searchResult
    then transformVisualContentToActual document replacementText
           (result_actualRange searchResult)
    else replacementText in
  mkReplaceOperation searchResult replacementText transformedReplacementText true.

(** ** jsonFeatureIntegration.ts: the folding ranges *)

Record FoldingRange := mkFoldingRange {
  fold_start : nat;
  fold_end : nat
}.

(** The variables of the scan of [getDefaultJsonFoldingRanges]; the top
    of [braceStack] is the head of the list. *)
Record FoldingScan := mkFoldingScan {
  braceStack : list (jschar * nat);
  inString : bool;
  escapeNext : bool;
  ranges : list FoldingRange
}.

(** The body of the inner loop, for the code unit [char] of line
    [lineIndex]. *)
Definition foldingStep (lineIndex : nat) (st : FoldingScan) (char : jschar)
  : FoldingScan :=
  if escapeNext st then
    mkFoldingScan (braceStack st) (inString st) false (ranges st)
  else if N.eqb char BACKSLASH then
    mkFoldingScan (braceStack st) (inString st) true (ranges st)
  else if N.eqb char QUOTE then
    mkFoldingScan (braceStack st) (negb (inString st)) (escapeNext st) (ranges st)
  else if inString st then st
  else if N.eqb char (chr "{") || N.eqb char (chr "[") then
    mkFoldingScan ((char, lineIndex) :: braceStack st)
      (inString st) (escapeNext st) (ranges st)
  else if N.eqb char (chr "}") || N.eqb char (chr "]") then
    match braceStack st with
    | opening :: rest =>
        mkFoldingScan rest (inString st) (escapeNext st)
          (if snd opening <? lineIndex
           then ranges st ++ [mkFoldingRange (snd opening) lineIndex]
           else ranges st)
    | [] => st
    end
  else st.

(** The outer loop over the lines, from line [lineIndex] on. *)
Fixpoint foldingLines (lines : list jsstring) (lineIndex : nat)
    (st : FoldingScan) : FoldingScan :=
  match lines with
  | [] => st
  | l :: lines' =>
      foldingLines lines' (S lineIndex) (fold_left (foldingStep lineIndex) l st)
  end.

Definition getDefaultJsonFoldingRanges (document : TextDocument)
  : list FoldingRange :=
  let text := getText document in
  if JSON.parses text then
    ranges (foldingLines (split_LF text) 0 (mkFoldingScan [] false false []))
  else [].

(** ** Vocabulary of the statements *)

(** What the locator tests at one index. *)
Definition realEscapeAt (text : jsstring) (p : nat) : bool :=
  charIs text p BACKSLASH && charIs text (p + 1) CH_n
  && Nat.even (countBackslashes text 0 p 0).

(** The content made of [n] backslashes followed by backslash, n. *)
Definition backslashes_then_escape (n : nat) : jsstring :=
  repeat BACKSLASH n ++ [BACKSLASH; CH_n].

(** The last element of a list. *)
Fixpoint lastOf {A} (l : list A) : option A :=
  match l with
  | [] => None
  | x :: l' => match lastOf l' with Some y => Some y | None => Some x end
  end.

(** Occurrences listed left to right from the offset [lo] on: each starts
    at or after the end of the one before. *)
Fixpoint ascendingFrom (lo : nat) (l : list DetailedNewlinePosition) : Prop :=
  match l with
  | [] => True
  | np :: l' => lo <= offset np /\ ascendingFrom (endOffset np) l'
  end.

(** The configuration of the JSON recognizer after the first [i] code
    units of a text. *)
Definition cfgAt (text : jsstring) (i : nat) : JSON.State * list JSON.Container :=
  fold_left JSON.step (firstn i text) (JSON.Value, []).

(** The recognizer is reading a string literal. *)
Definition stringMode (st : JSON.State) : bool :=
  match st with
  | JSON.InString _ | JSON.Escape _ | JSON.Hex _ _ => true
  | _ => false
  end.

(** The recognizer is between string literals, and the rest of a literal
    name it may be reading holds no quote. *)
Definition outsideString (st : JSON.State) : Prop :=
  match st with
  | JSON.InString _ | JSON.Escape _ | JSON.Hex _ _ | JSON.Fail => False
  | JSON.Literal rest => ~ In QUOTE rest
  | _ => True
  end.

(** The span of the string literal whose quotes are at the offsets [s]
    and [e]. *)
Definition spanAt (document : TextDocument) (text : jsstring) (s e : nat)
  : StringRange :=
  mkStringRange (positionAt document s) (positionAt document (e + 1))
    (substring text (s + 1) e)
    (containsNewlines (substring text (s + 1) e)).

(** A list of spans read from index [i] on, left to right: each lies
    between two quotes and starts after the end of the one before. *)
Inductive spansFrom (document : TextDocument) (text : jsstring)
  : nat -> list StringRange -> Prop :=
| spansFrom_nil i : spansFrom document text i []
| spansFrom_cons i s e rest :
    i <= s -> s < e < length text ->
    charIs text s QUOTE = true -> charIs text e QUOTE = true ->
    spansFrom document text (e + 1) rest ->
    spansFrom document text i (spanAt document text s e :: rest).

(** What the scan of a document tests at the index [p] of a string whose
    content starts at [stringStart]. *)
Definition escapeIn (text : jsstring) (stringStart p : nat) : bool :=
  charIs text p BACKSLASH && charIs text (p + 1) CH_n
  && isRealNewlineEscape text p stringStart.

(** The occurrences recorded for the offsets [offsets] of a span, numbered
    from [newlineIndex] on. *)
Fixpoint occurrencesFrom
    (document : TextDocument) (range : StringRange) (text : jsstring)
    (stringStartOffset stringEndOffset newlineIndex : nat) (offsets : list nat)
  : list DetailedNewlinePosition :=
  match offsets with
  | [] => []
  | i :: offsets' =>
      mkDetailedNewlinePosition
        (positionAt document i) (positionAt document (i + 2))
        range i (i + 2) newlineIndex
        (substring text stringStartOffset i)
        (substring text (i + 2) stringEndOffset)
      :: occurrencesFrom document range text stringStartOffset stringEndOffset
           (S newlineIndex) offsets'
  end.

(** The recognizer reads a string literal from the quote at [s] to the
    quote at [e]: it is between literals before [s], inside the literal
    up to [e], and between literals again after [e]. *)
Definition literalAt (text : jsstring) (s e : nat) : Prop :=
  charIs text s QUOTE = true
  /\ outsideString (fst (cfgAt text s))
  /\ s < e < length text
  /\ charIs text e QUOTE = true
  /\ (forall j, s < j <= e -> stringMode (fst (cfgAt text j)) = true)
  /\ outsideString (fst (cfgAt text (e + 1))).

(** The spans of the literals read from index [i] on, with no quote
    between them; when [complete] holds the list runs to the end of the
    text. *)
Inductive literalsFrom (document : TextDocument) (text : jsstring)
    (complete : Prop) : nat -> list StringRange -> Prop :=
| literalsFrom_nil i :
    (complete -> forall j, i <= j -> charIs text j QUOTE = false) ->
    literalsFrom document text complete i []
| literalsFrom_cons i s e rest :
    i <= s ->
    (forall j, i <= j < s -> charIs text j QUOTE = false) ->
    literalAt text s e ->
    literalsFrom document text complete (e + 1) rest ->
    literalsFrom document text complete i (spanAt document text s e :: rest).

(** The state of the recognizer inside a string literal, read as one of a
    key or of a value. *)
Definition rekey (k : bool) (st : JSON.State) : JSON.State :=
  match st with
  | JSON.InString _ => JSON.InString k
  | JSON.Escape _ => JSON.Escape k
  | JSON.Hex _ n => JSON.Hex k n
  | _ => st
  end.

(** The recognizer is reading a string literal or has rejected the text. *)
Definition stringModeOrFail (st : JSON.State) : bool :=
  match st with
  | JSON.InString _ | JSON.Escape _ | JSON.Hex _ _ | JSON.Fail => true
  | _ => false
  end.

(** The guards under which [processContentChange] submits a counter-edit
    for a change. *)
Definition counterEditDue
    (document : TextDocument) (w : World) (change : ContentChange) : bool :=
  (0 <? length (eval (getDecorationsInRange (change_range change)) w))
  && match getStringRangeAtPosition document
             (range_start (change_range change)) with
     | Some _ => true
     | None => false
     end
  && includes (change_text change) [LF]
  && negb (includes (change_text change) [BACKSLASH; CH_n]).

(** The counter-edit of a change. *)
Definition counterEditOf
    (document : TextDocument) (change : ContentChange) : WorkspaceEdit :=
  mkWorkspaceEdit (uri document) (change_range change)
    (replace_LF_by_escape (change_text change)).

(** No decoration is kept while rendering is disabled. *)
Definition noDecorationWhileDisabled (w : World) : Prop :=
  isEnabled w = false -> currentDecorations w = [].

(** The state a document is given when it is first tracked. *)
Definition freshDocumentState (document : TextDocument) : DocumentState :=
  mkDocumentState (getText document) (getText document)
    (calculateInitialMappings document) (doc_version document).

(** The mappings recorded for a list of occurrences, the first with the
    offset [cumulativeOffset]. *)
Fixpoint mappingsFrom (cumulativeOffset : nat)
    (newlinePositions : list DetailedNewlinePosition) : list EditMapping :=
  match newlinePositions with
  | [] => []
  | newlinePos :: rest =>
      mkEditMapping
        (mkPosition (line (position newlinePos) + cumulativeOffset)
           (character (position newlinePos)))
        (position newlinePos) cumulativeOffset
      :: mappingsFrom (cumulativeOffset + 2) rest
  end.

(** The folding ranges found up to line [L]: each spans at least two
    lines and ends at or before [L], and they are listed in the order in
    which they end. *)
Definition foldingRangesUpTo (L : nat) (l : list FoldingRange) : Prop :=
  Forall (fun r => fold_start r < fold_end r /\ fold_end r <= L) l
  /\ StronglySorted (fun r1 r2 => fold_end r1 <= fold_end r2) l.

(** ** Documents of the examples *)

Definition exampleDocument (text : jsstring) : TextDocument :=
  mkTextDocument "file:///example.json" "json" 1 text.

(** [{"a": "x\ny"}] *)
Definition document_D : TextDocument :=
  exampleDocument (json "{'a': 'x\ny'}").

(** [{"a": "x\ny"}] after Enter has been pressed between the [x] and the
    newline escape: the text with a line feed put at offset 8. *)
Definition document_D_enter : TextDocument :=
  mkTextDocument "file:///example.json" "json" 2
    (json "{'a': 'x" ++ [LF] ++ json "\ny'}").

(** [{"a": "x\ny"}] after a first line that holds only the brace. *)
Definition document_two_lines : TextDocument :=
  exampleDocument (json "{" ++ [LF] ++ json "'a': 'x\ny'}").

(** [{"a":"x\ny",] and, on the next line, ["b":1}]. *)
Definition document_two_members : TextDocument :=
  exampleDocument (json "{'a':'x\ny'," ++ [LF] ++ json "'b':1}").

(** [{"a":"x\\n"}]: an escaped backslash followed by the letter n. *)
Definition document_escaped_backslash : TextDocument :=
  exampleDocument (json "{'a':'x\\n'}").

(** [{"a": }] *)
Definition document_invalid : TextDocument :=
  exampleDocument (json "{'a': }").

Definition initialWorld : World := mkWorld false [] [] true None [].

(** The world in which [document] is shown in the active editor and its
    decorations have been applied. *)
Definition decoratedWorld (document : TextDocument) : World :=
  exec (applyDecorations document)
    (mkWorld false [] [] true
       (Some (mkTextEditor document (mkPosition 0 0, mkPosition 0 0))) []).

(** * Properties *)

(** ** Code units and indexing *)

Lemma charIs_true text i c :
  charIs text i c = true <-> nth_error text i = Some c.
Proof.
  unfold charIs. destruct (nth_error text i) as [d|].
  - rewrite N.eqb_eq. split; [intros ->; reflexivity | intros [= ->]; reflexivity].
  - split; discriminate.
Qed.

Lemma charIs_lt text i c : charIs text i c = true -> i < length text.
Proof.
  intros H. apply charIs_true in H. apply nth_error_Some. congruence.
Qed.

Lemma charIs_functional text i c d :
  charIs text i c = true -> charIs text i d = true -> c = d.
Proof. rewrite !charIs_true. congruence. Qed.

Lemma charIs_n_not_backslash text i :
  charIs text i CH_n = true -> charIs text i BACKSLASH = false.
Proof.
  intros H. destruct (charIs text i BACKSLASH) eqn:E; [|reflexivity].
  pose proof (charIs_functional _ _ _ _ H E). discriminate.
Qed.

(** ** The newline-escape locator *)

Lemma findNewlineEscapeSequences_loop_step text i positions :
  findNewlineEscapeSequences_loop text i positions =
  if i <? length text - 1 then
    if charIs text i BACKSLASH && charIs text (i + 1) CH_n then
      findNewlineEscapeSequences_loop text (i + 2)
        (if Nat.even (countBackslashes text 0 i 0)
         then positions ++ [i] else positions)
    else findNewlineEscapeSequences_loop text (i + 1) positions
  else positions.
Proof.
  rewrite findNewlineEscapeSequences_loop_equation_1 at 1.
  destruct (lt_dec i (length text - 1)) as [H|H]; cbv zeta.
  - apply Nat.ltb_lt in H. rewrite H. reflexivity.
  - apply Nat.ltb_nlt in H. rewrite H. reflexivity.
Qed.

(** The locator returns exactly the indices that pass the test, in
    increasing order. *)
Lemma findNewlineEscapeSequences_loop_filter text :
  forall m i positions,
    length text - i = m ->
    findNewlineEscapeSequences_loop text i positions =
    positions ++ filter (realEscapeAt text) (seq i (length text - i)).
Proof.
  induction m as [m IH] using lt_wf_ind. intros i positions Hm.
  rewrite findNewlineEscapeSequences_loop_step.
  destruct (i <? length text - 1) eqn:Hlt.
  - apply Nat.ltb_lt in Hlt.
    destruct (charIs text i BACKSLASH && charIs text (i + 1) CH_n) eqn:Hesc.
    + assert (Hi : realEscapeAt text i = Nat.even (countBackslashes text 0 i 0))
        by (unfold realEscapeAt; now rewrite Hesc).
      assert (Hi1 : realEscapeAt text (S i) = false).
      { unfold realEscapeAt. apply andb_prop in Hesc. destruct Hesc as [_ Hn].
        replace (S i) with (i + 1) by lia.
        now rewrite (charIs_n_not_backslash _ _ Hn). }
      rewrite (IH (length text - (i + 2))) by lia.
      replace (length text - i) with (S (S (length text - (i + 2)))) by lia.
      cbn [seq filter]. rewrite Hi, Hi1.
      replace (S (S i)) with (i + 2) by lia.
      destruct (Nat.even (countBackslashes text 0 i 0)).
      * rewrite <- app_assoc. reflexivity.
      * reflexivity.
    + assert (Hi : realEscapeAt text i = false)
        by (unfold realEscapeAt; now rewrite Hesc).
      rewrite (IH (length text - (i + 1))) by lia.
      replace (length text - i) with (S (length text - (i + 1))) by lia.
      cbn [seq filter]. rewrite Hi.
      replace (S i) with (i + 1) by lia. reflexivity.
  - apply Nat.ltb_ge in Hlt.
    assert (Hi : realEscapeAt text i = false).
    { unfold realEscapeAt.
      destruct (charIs text (i + 1) CH_n) eqn:Hn.
      - apply charIs_lt in Hn. lia.
      - now rewrite andb_false_r. }
    destruct (length text - i) as [|[|n]] eqn:Hd; try lia.
    + cbn. now rewrite app_nil_r.
    + cbn [seq filter]. rewrite Hi. now rewrite app_nil_r.
Qed.

Lemma findNewlineEscapeSequences_filter text :
  findNewlineEscapeSequences text =
  filter (realEscapeAt text) (seq 0 (length text)).
Proof.
  unfold findNewlineEscapeSequences.
  rewrite (findNewlineEscapeSequences_loop_filter text (length text - 0))
    by reflexivity.
  now rewrite Nat.sub_0_r.
Qed.

(** The backward count stops at the first code unit that is not a
    backslash: it returns the length of the run that ends before [i]. *)
Lemma countBackslashes_run text stop :
  forall r i acc,
    stop + r <= i ->
    (forall j, i - r <= j < i -> charIs text j BACKSLASH = true) ->
    (i - r = stop \/ charIs text (i - r - 1) BACKSLASH = false) ->
    countBackslashes text stop i acc = acc + r.
Proof.
  induction r as [|r IH]; intros i acc Hr Hrun Hstop.
  - destruct i as [|j]; [cbn; lia|].
    cbn [countBackslashes].
    destruct Hstop as [Hs|Hs].
    + replace (stop <=? j) with false by (symmetry; apply Nat.leb_gt; lia).
      cbn. lia.
    + replace (S j - 0 - 1) with j in Hs by lia. rewrite Hs.
      rewrite andb_false_r. lia.
  - destruct i as [|j]; [lia|].
    cbn [countBackslashes].
    replace (stop <=? j) with true by (symmetry; apply Nat.leb_le; lia).
    rewrite (Hrun j) by lia. cbn [andb].
    rewrite IH; [lia | lia | intros k Hk; apply Hrun; lia |].
    replace (j - r) with (S j - S r) by lia. exact Hstop.
Qed.

Lemma filter_none {A} (f : A -> bool) (l : list A) :
  (forall x, In x l -> f x = false) -> filter f l = [].
Proof.
  induction l as [|a l IH]; intros H; [reflexivity|].
  cbn. rewrite (H a) by (now left). apply IH. intros x Hx. apply H. now right.
Qed.

Lemma backslashes_then_escape_backslash n p :
  p <= n -> charIs (backslashes_then_escape n) p BACKSLASH = true.
Proof.
  intros Hp. apply charIs_true. unfold backslashes_then_escape.
  destruct (Nat.eq_dec p n) as [->|Hne].
  - rewrite nth_error_app2 by (rewrite repeat_length; lia).
    rewrite repeat_length, Nat.sub_diag. reflexivity.
  - rewrite nth_error_app1 by (rewrite repeat_length; lia).
    apply nth_error_repeat. lia.
Qed.

Lemma backslashes_then_escape_n n :
  charIs (backslashes_then_escape n) (n + 1) CH_n = true.
Proof.
  apply charIs_true. unfold backslashes_then_escape.
  rewrite nth_error_app2 by (rewrite repeat_length; lia).
  rewrite repeat_length. replace (n + 1 - n) with 1 by lia. reflexivity.
Qed.

Lemma findNewlineEscapeSequences_backslashes n :
  findNewlineEscapeSequences (backslashes_then_escape n) =
  if Nat.even n then [n] else [].
Proof.
  rewrite findNewlineEscapeSequences_filter.
  assert (Hlen : length (backslashes_then_escape n) = n + 2).
  { unfold backslashes_then_escape. rewrite length_app, repeat_length.
    reflexivity. }
  rewrite Hlen, seq_app, filter_app. cbn [seq filter Nat.add].
  rewrite filter_none.
  2:{ intros p Hp. apply in_seq in Hp. unfold realEscapeAt.
      assert (H : charIs (backslashes_then_escape n) (p + 1) CH_n = false).
      { destruct (charIs (backslashes_then_escape n) (p + 1) CH_n) eqn:E;
          [|reflexivity].
        pose proof (backslashes_then_escape_backslash n (p + 1) ltac:(lia)) as B.
        pose proof (charIs_functional _ _ _ _ E B). discriminate. }
      rewrite H. now rewrite andb_false_r. }
  assert (Hn : realEscapeAt (backslashes_then_escape n) n = Nat.even n).
  { unfold realEscapeAt.
    rewrite backslashes_then_escape_backslash by lia.
    rewrite backslashes_then_escape_n. cbn [andb].
    rewrite (countBackslashes_run (backslashes_then_escape n) 0 n n 0);
      [reflexivity | lia | | left; lia].
    intros j Hj. apply backslashes_then_escape_backslash. lia. }
  assert (Hn1 : realEscapeAt (backslashes_then_escape n) (S n) = false).
  { unfold realEscapeAt. replace (S n) with (n + 1) by lia.
    now rewrite (charIs_n_not_backslash _ _ (backslashes_then_escape_n n)). }
  rewrite Hn, Hn1. destruct (Nat.even n); reflexivity.
Qed.

(** C1. Parity law of the newline-escape locator: at an index [i] that
    holds a backslash followed by [n], an occurrence is reported at [i]
    if and only if the run of [r] backslashes that ends just before [i]
    has even length. [2k] backslashes followed by backslash-n give the one
    occurrence [2k], [2k+1] backslashes followed by backslash-n give none;
    the content backslash, backslash, n has no occurrence, and the content
    backslash-n, backslash, backslash, n has the single occurrence 0. *)
Theorem C1_backslash_parity_law :
  (forall (text : jsstring) (i r : nat),
      charIs text i BACKSLASH = true ->
      charIs text (i + 1) CH_n = true ->
      r <= i ->
      (forall j, i - r <= j < i -> charIs text j BACKSLASH = true) ->
      (r = i \/ charIs text (i - r - 1) BACKSLASH = false) ->
      (In i (findNewlineEscapeSequences text) <-> Nat.even r = true))
  /\ (forall k,
        findNewlineEscapeSequences (backslashes_then_escape (2 * k)) = [2 * k])
  /\ (forall k,
        findNewlineEscapeSequences (backslashes_then_escape (2 * k + 1)) = [])
  /\ findNewlineEscapeSequences (str "\\n") = []
  /\ findNewlineEscapeSequences (str "\n\\n") = [0]
  /\ (forall text,
        containsNewlines text = true
        <-> exists i, In i (findNewlineEscapeSequences text)).
Proof.
  split; [|split; [|split; [|split; [|split]]]].
  - intros text i r Hb Hn Hr Hrun Hstop.
    rewrite findNewlineEscapeSequences_filter, filter_In, in_seq.
    unfold realEscapeAt. rewrite Hb, Hn. cbn [andb].
    rewrite (countBackslashes_run text 0 r i 0); [| lia | exact Hrun |].
    + apply charIs_lt in Hb. cbn [Nat.add]. intuition lia.
    + destruct Hstop as [->|Hs]; [left; lia | right; exact Hs].
  - intros k. rewrite findNewlineEscapeSequences_backslashes.
    replace (Nat.even (2 * k)) with true; [reflexivity|].
    symmetry. apply Nat.even_spec. exists k. lia.
  - intros k. rewrite findNewlineEscapeSequences_backslashes.
    replace (Nat.even (2 * k + 1)) with false; [reflexivity|].
    symmetry. rewrite Nat.even_add, Nat.even_mul. reflexivity.
  - reflexivity.
  - reflexivity.
  - intros text. unfold containsNewlines.
    destruct (findNewlineEscapeSequences text) as [|i l]; cbn.
    + split; [discriminate | intros [i []]].
    + split; [intros _; exists i; now left | reflexivity].
Qed.

(** The parity law at the content backslash, backslash, backslash, n: the
    pair at index 2 follows a run of two backslashes and is reported. *)
Lemma C1_backslash_parity_law_witness :
  In 2 (findNewlineEscapeSequences (str "\\\n")) <-> Nat.even 2 = true.
Proof.
  apply (proj1 C1_backslash_parity_law (str "\\\n") 2 2).
  - reflexivity.
  - reflexivity.
  - lia.
  - intros j Hj.
    destruct j as [|[|j]]; [reflexivity | reflexivity | lia].
  - left. reflexivity.
Defined.

(** ** Positions of a document *)

Lemma isBefore_spec p q :
  isBefore p q = true <->
  line p < line q \/ (line p = line q /\ character p < character q).
Proof.
  unfold isBefore.
  rewrite orb_true_iff, andb_true_iff, !Nat.ltb_lt, Nat.eqb_eq. reflexivity.
Qed.

Lemma isBefore_false p q :
  isBefore p q = false <->
  line q < line p \/ (line p = line q /\ character q <= character p).
Proof.
  destruct (isBefore p q) eqn:E.
  - apply isBefore_spec in E. split; [discriminate | lia].
  - split; [intros _ | reflexivity].
    destruct (Nat.lt_total (line p) (line q)) as [H|[H|H]].
    + assert (isBefore p q = true) by (apply isBefore_spec; lia). congruence.
    + destruct (Nat.lt_ge_cases (character p) (character q)).
      * assert (isBefore p q = true) by (apply isBefore_spec; lia). congruence.
      * lia.
    + lia.
Qed.

Lemma positionAt_from_ge text :
  forall b l c,
    l < line (positionAt_from text b l c)
    \/ (l = line (positionAt_from text b l c)
        /\ c <= character (positionAt_from text b l c)).
Proof.
  induction text as [|ch rest IH]; intros b l c.
  - destruct b; cbn; lia.
  - destruct b as [|b]; [cbn; lia|].
    cbn [positionAt_from]. destruct (N.eqb ch LF).
    + specialize (IH b (S l) 0). lia.
    + specialize (IH b l (S c)). lia.
Qed.

(** [positionAt] is strictly increasing on the offsets of the text. *)
Lemma positionAt_from_lt text :
  forall a b l c,
    a < b <= length text ->
    isBefore (positionAt_from text a l c) (positionAt_from text b l c) = true.
Proof.
  induction text as [|ch rest IH]; intros a b l c Hab; [cbn in Hab; lia|].
  cbn [length] in Hab.
  destruct b as [|b]; [lia|].
  destruct a as [|a].
  - apply isBefore_spec. cbn [positionAt_from line character].
    destruct (N.eqb ch LF).
    + pose proof (positionAt_from_ge rest b (S l) 0). lia.
    + pose proof (positionAt_from_ge rest b l (S c)). lia.
  - cbn [positionAt_from]. destruct (N.eqb ch LF); apply IH; lia.
Qed.

Lemma positionAt_lt document a b :
  a < b <= length (getText document) ->
  isBefore (positionAt document a) (positionAt document b) = true.
Proof. apply positionAt_from_lt. Qed.

Lemma positionAt_le document a b :
  a <= b <= length (getText document) ->
  isBefore (positionAt document b) (positionAt document a) = false.
Proof.
  intros H. destruct (Nat.eq_dec a b) as [->|Hne].
  - apply isBefore_false. lia.
  - pose proof (positionAt_lt document a b ltac:(lia)) as Hlt.
    apply isBefore_spec in Hlt. apply isBefore_false. lia.
Qed.

(** The position computed from a start at line [l], column [c], in terms
    of the one computed from the start of the text. *)
Lemma positionAt_from_shift text :
  forall o l c,
    positionAt_from text o l c =
    let q := positionAt_from text o 0 0 in
    if line q =? 0 then mkPosition l (c + character q)
    else mkPosition (l + line q) (character q).
Proof.
  induction text as [|ch rest IH]; intros o l c.
  - destruct o; cbn; now rewrite Nat.add_0_r.
  - destruct o as [|o]; [cbn; now rewrite Nat.add_0_r|].
    cbn [positionAt_from]. destruct (N.eqb ch LF).
    + rewrite (IH o (S l) 0), (IH o 1 0). cbv zeta.
      destruct (line (positionAt_from rest o 0 0) =? 0) eqn:E;
        cbn [line character Nat.eqb Nat.add]; f_equal; lia.
    + rewrite (IH o l (S c)), (IH o 0 1). cbv zeta.
      destruct (line (positionAt_from rest o 0 0) =? 0) eqn:E;
        cbn [line character Nat.eqb Nat.add]; rewrite ?E; f_equal; lia.
Qed.

Lemma offsetAt_from_positionAt_from text :
  forall o,
    o <= length text ->
    offsetAt_from text (line (positionAt_from text o 0 0))
      (character (positionAt_from text o 0 0)) = o.
Proof.
  induction text as [|ch rest IH]; intros o Ho.
  - cbn in Ho. destruct o; [reflexivity | lia].
  - destruct o as [|o]; [reflexivity|]. cbn [length] in Ho.
    specialize (IH o ltac:(lia)).
    cbn [positionAt_from]. destruct (N.eqb ch LF) eqn:Hch.
    + rewrite (positionAt_from_shift rest o 1 0). cbv zeta.
      destruct (line (positionAt_from rest o 0 0) =? 0) eqn:E;
        cbn [line character offsetAt_from Nat.add]; rewrite Hch.
      * apply Nat.eqb_eq in E. rewrite E in IH. now rewrite IH.
      * now rewrite IH.
    + rewrite (positionAt_from_shift rest o 0 1). cbv zeta.
      destruct (line (positionAt_from rest o 0 0) =? 0) eqn:E;
        cbn [line character offsetAt_from Nat.add].
      * rewrite Hch. apply Nat.eqb_eq in E. rewrite E in IH. now rewrite IH.
      * apply Nat.eqb_neq in E.
        destruct (line (positionAt_from rest o 0 0)) as [|l'] eqn:El; [lia|].
        rewrite Hch. now rewrite IH.
Qed.

(** [offsetAt] inverts [positionAt] on the offsets of the text. *)
Lemma offsetAt_positionAt document o :
  o <= length (getText document) ->
  offsetAt document (positionAt document o) = o.
Proof. apply offsetAt_from_positionAt_from. Qed.

(** [offsetAt] is monotone in the order of positions. *)
Lemma offsetAt_from_mono text :
  forall l c l' c',
    l < l' \/ (l = l' /\ c <= c') ->
    offsetAt_from text l c <= offsetAt_from text l' c'.
Proof.
  induction text as [|ch rest IH]; intros l c l' c' H; [cbn; lia|].
  cbn [offsetAt_from].
  destruct l as [|l].
  - destruct c as [|c]; [lia|].
    destruct (N.eqb ch LF); [lia|].
    destruct l' as [|l'].
    + destruct c' as [|c']; [lia|].
      apply le_n_S. apply IH. lia.
    + apply le_n_S. apply IH. lia.
  - destruct l' as [|l']; [lia|].
    destruct (N.eqb ch LF); apply le_n_S; apply IH; lia.
Qed.

Lemma offsetAt_mono document p q :
  isBefore q p = false -> offsetAt document p <= offsetAt document q.
Proof.
  intros H. apply isBefore_false in H. apply offsetAt_from_mono. lia.
Qed.

(** ** The string scanner *)

Lemma spansFrom_weaken document text i j l :
  j <= i -> spansFrom document text i l -> spansFrom document text j l.
Proof.
  intros Hji H. destruct H; [constructor|].
  econstructor; eauto. lia.
Qed.

Lemma extractSingleStringRange_Some document text i range nextIndex :
  extractSingleStringRange document text i = Some (range, nextIndex) ->
  exists e,
    i < e < length text
    /\ charIs text i QUOTE = true /\ charIs text e QUOTE = true
    /\ range = spanAt document text i e /\ nextIndex = e + 1.
Proof.
  unfold extractSingleStringRange.
  destruct (charIs text i QUOTE) eqn:Hq; cbn [negb]; [|discriminate].
  destruct (findStringEnd text (i + 1)) as [e|] eqn:He; [|discriminate].
  intros [= <- <-]. apply findStringEnd_bounds in He.
  exists e. repeat split; try tauto; lia.
Qed.

Lemma extractStringRanges_loop_step document text i stringCount ranges :
  extractStringRanges_loop document text i stringCount ranges =
  if i <? length text then
    if (N.of_nat stringCount <? maxStrings)%N then
      if charIs text i QUOTE then
        match extractSingleStringRange document text i with
        | Some (range, nextIndex) =>
            extractStringRanges_loop document text nextIndex
              (S stringCount) (ranges ++ [range])
        | None =>
            extractStringRanges_loop document text (i + 1) stringCount ranges
        end
      else extractStringRanges_loop document text (i + 1) stringCount ranges
    else ranges
  else ranges.
Proof.
  rewrite extractStringRanges_loop_equation_1 at 1.
  destruct (lt_dec i (length text)) as [H|H].
  - apply Nat.ltb_lt in H. rewrite H.
    destruct (N.of_nat stringCount <? maxStrings)%N; [|reflexivity].
    destruct (charIs text i QUOTE); [|reflexivity].
    destruct (extractSingleStringRange document text i) as [[range nextIndex]|];
      reflexivity.
  - apply Nat.ltb_nlt in H. rewrite H. reflexivity.
Qed.

Lemma extractStringRangesWithLimits_loop_step document limitedText i ranges :
  extractStringRangesWithLimits_loop document limitedText i ranges =
  if i <? length limitedText then
    if charIs limitedText i QUOTE then
      match extractSingleStringRange document limitedText i with
      | Some (range, nextIndex) =>
          extractStringRangesWithLimits_loop document limitedText nextIndex
            (ranges ++ [range])
      | None =>
          extractStringRangesWithLimits_loop document limitedText (i + 1) ranges
      end
    else extractStringRangesWithLimits_loop document limitedText (i + 1) ranges
  else ranges.
Proof.
  rewrite extractStringRangesWithLimits_loop_equation_1 at 1.
  destruct (lt_dec i (length limitedText)) as [H|H].
  - apply Nat.ltb_lt in H. rewrite H.
    destruct (charIs limitedText i QUOTE); [|reflexivity].
    destruct (extractSingleStringRange document limitedText i)
      as [[range nextIndex]|]; reflexivity.
  - apply Nat.ltb_nlt in H. rewrite H. reflexivity.
Qed.

Lemma extractStringRanges_loop_spans document text :
  forall m i stringCount ranges,
    length text - i = m ->
    exists new,
      extractStringRanges_loop document text i stringCount ranges
      = ranges ++ new
      /\ spansFrom document text i new.
Proof.
  induction m as [m IH] using lt_wf_ind. intros i stringCount ranges Hm.
  assert (Hstop : exists new, ranges = ranges ++ new
                              /\ spansFrom document text i new)
    by (exists []; split; [now rewrite app_nil_r | constructor]).
  assert (Hnext : forall c,
             exists new,
               extractStringRanges_loop document text (i + 1) c ranges
               = ranges ++ new
               /\ spansFrom document text i new).
  { intros c.
    destruct (Nat.lt_ge_cases i (length text)) as [Hlt|Hge].
    - destruct (IH (length text - (i + 1)) ltac:(lia) (i + 1) c ranges eq_refl)
        as (new & -> & Hnew).
      exists new. split; [reflexivity|].
      apply (spansFrom_weaken document text (i + 1)); [lia | exact Hnew].
    - rewrite extractStringRanges_loop_step.
      replace (i + 1 <? length text) with false
        by (symmetry; apply Nat.ltb_ge; lia).
      exact Hstop. }
  rewrite extractStringRanges_loop_step.
  destruct (i <? length text) eqn:Hlt; [|exact Hstop].
  apply Nat.ltb_lt in Hlt.
  destruct (N.of_nat stringCount <? maxStrings)%N; [|exact Hstop].
  destruct (charIs text i QUOTE); [|apply Hnext].
  destruct (extractSingleStringRange document text i)
    as [[range nextIndex]|] eqn:Hx; [|apply Hnext].
  apply extractSingleStringRange_Some in Hx.
  destruct Hx as (e & He & Hq & Hqe & -> & ->).
  destruct (IH (length text - (e + 1)) ltac:(lia) (e + 1) (S stringCount)
              (ranges ++ [spanAt document text i e]) eq_refl)
    as (new & -> & Hnew).
  exists (spanAt document text i e :: new). split.
  - now rewrite <- app_assoc.
  - econstructor; eauto.
Qed.

Lemma extractStringRangesWithLimits_loop_spans document text :
  forall m i ranges,
    length text - i = m ->
    exists new,
      extractStringRangesWithLimits_loop document text i ranges
      = ranges ++ new
      /\ spansFrom document text i new.
Proof.
  induction m as [m IH] using lt_wf_ind. intros i ranges Hm.
  assert (Hstop : exists new, ranges = ranges ++ new
                              /\ spansFrom document text i new)
    by (exists []; split; [now rewrite app_nil_r | constructor]).
  assert (Hnext :
             exists new,
               extractStringRangesWithLimits_loop document text (i + 1) ranges
               = ranges ++ new
               /\ spansFrom document text i new).
  { destruct (Nat.lt_ge_cases i (length text)) as [Hlt|Hge].
    - destruct (IH (length text - (i + 1)) ltac:(lia) (i + 1) ranges eq_refl)
        as (new & -> & Hnew).
      exists new. split; [reflexivity|].
      apply (spansFrom_weaken document text (i + 1)); [lia | exact Hnew].
    - rewrite extractStringRangesWithLimits_loop_step.
      replace (i + 1 <? length text) with false
        by (symmetry; apply Nat.ltb_ge; lia).
      exact Hstop. }
  rewrite extractStringRangesWithLimits_loop_step.
  destruct (i <? length text) eqn:Hlt; [|exact Hstop].
  apply Nat.ltb_lt in Hlt.
  destruct (charIs text i QUOTE); [|apply Hnext].
  destruct (extractSingleStringRange document text i)
    as [[range nextIndex]|] eqn:Hx; [|apply Hnext].
  apply extractSingleStringRange_Some in Hx.
  destruct Hx as (e & He & Hq & Hqe & -> & ->).
  destruct (IH (length text - (e + 1)) ltac:(lia) (e + 1)
              (ranges ++ [spanAt document text i e]) eq_refl)
    as (new & -> & Hnew).
  exists (spanAt document text i e :: new). split.
  - now rewrite <- app_assoc.
  - econstructor; eauto.
Qed.

(** Within its bounds, [substring] is the slice between the two indices. *)
Lemma substring_slice text a b :
  a <= b <= length text ->
  substring text a b = firstn (b - a) (skipn a text).
Proof.
  intros H. unfold substring.
  rewrite (Nat.min_l a) by lia. rewrite (Nat.min_l b) by lia.
  rewrite (Nat.min_l a b) by lia. rewrite (Nat.max_r a b) by lia.
  reflexivity.
Qed.

Lemma substring_prefix text limit :
  substring text 0 limit = firstn (Nat.min limit (length text)) text.
Proof.
  unfold substring. cbn [Nat.min].
  rewrite Nat.max_r by lia. now rewrite Nat.sub_0_r.
Qed.

(** The truncated text of a large file agrees with the text wherever it
    is defined. *)
Lemma spansFrom_firstn document text n :
  forall i l,
    spansFrom document (firstn n text) i l -> spansFrom document text i l.
Proof.
  intros i l H. induction H as [|i s e rest Hi Hse Hs He _ IH]; [constructor|].
  assert (Hlen : length (firstn n text) <= length text)
    by (rewrite length_firstn; lia).
  assert (Hn : length (firstn n text) <= n) by apply firstn_le_length.
  assert (Hchar : forall k c, charIs (firstn n text) k c = true ->
                              charIs text k c = true).
  { intros k c Hk. apply charIs_true in Hk. apply charIs_true.
    rewrite nth_error_firstn in Hk.
    destruct (k <? n); [exact Hk | discriminate]. }
  replace (spanAt document (firstn n text) s e) with (spanAt document text s e).
  - constructor; auto. lia.
  - unfold spanAt.
    replace (substring (firstn n text) (s + 1) e) with (substring text (s + 1) e);
      [reflexivity|].
    rewrite !substring_slice by lia.
    rewrite skipn_firstn_comm, firstn_firstn. f_equal. lia.
Qed.

Lemma extractStringRangesFromValidJson_spans document text :
  spansFrom document text 0 (extractStringRangesFromValidJson document text).
Proof.
  unfold extractStringRangesFromValidJson.
  destruct (maxFileSize <? N.of_nat (length text))%N.
  - unfold extractStringRangesWithLimits.
    rewrite substring_prefix.
    set (limited := firstn _ text).
    destruct (extractStringRangesWithLimits_loop_spans document limited
                (length limited - 0) 0 [] eq_refl) as (new & -> & Hnew).
    apply (spansFrom_firstn _ _ _ _ _ Hnew).
  - destruct (extractStringRanges_loop_spans document text
                (length text - 0) 0 0 [] eq_refl) as (new & -> & Hnew).
    exact Hnew.
Qed.

Lemma findStringRanges_spans document :
  spansFrom document (getText document) 0 (findStringRanges document).
Proof.
  unfold findStringRanges, parseJsonSafely.
  destruct (JSON.parses (getText document)); cbn [stringRanges].
  - apply extractStringRangesFromValidJson_spans.
  - constructor.
Qed.

(** Each span of a scan, by the offsets of its two quotes. *)
Lemma spansFrom_In document text :
  forall i l r,
    spansFrom document text i l -> In r l ->
    exists s e,
      i <= s /\ s < e < length text
      /\ charIs text s QUOTE = true /\ charIs text e QUOTE = true
      /\ r = spanAt document text s e.
Proof.
  intros i l r H. induction H as [|i s e rest Hi Hse Hs He _ IH]; [contradiction|].
  intros [<-|Hin].
  - exists s, e. auto.
  - destruct (IH Hin) as (s' & e' & H1 & H2). exists s', e'.
    split; [lia | exact H2].
Qed.

Lemma containsNewlines_spec text :
  containsNewlines text = true <-> findNewlineEscapeSequences text <> [].
Proof.
  unfold containsNewlines.
  destruct (findNewlineEscapeSequences text); cbn; split;
    congruence || discriminate.
Qed.

(** C8. Every string span that scanning a document yields (scanning
    yields spans only for a text that parses) satisfies [start < end]; its
    quotes are at two offsets [s < e] of the text, [start] is the position
    of [s] and [end] the position of [e + 1]; its content is the text
    strictly between the two quotes, code unit for code unit; and
    [hasNewlines] is true exactly when the newline-escape locator finds an
    occurrence in that content. *)
Theorem C8_string_span_well_formed :
  forall document r,
    In r (stringRanges (parseJsonSafely document)) ->
    let text := getText document in
    JSON.parses text = true
    /\ isBefore (start r) (end_ r) = true
    /\ (exists s e,
          s < e < length text
          /\ charIs text s QUOTE = true /\ charIs text e QUOTE = true
          /\ start r = positionAt document s
          /\ end_ r = positionAt document (e + 1)
          /\ content r = substring text (s + 1) e
          /\ content r = firstn (e - s - 1) (skipn (s + 1) text))
    /\ (hasNewlines r = true <->
        exists i, In i (findNewlineEscapeSequences (content r))).
Proof.
  intros document r Hin text.
  split.
  { unfold parseJsonSafely in Hin. fold text in Hin.
    destruct (JSON.parses text); [reflexivity | contradiction]. }
  destruct (spansFrom_In _ _ _ _ _ (findStringRanges_spans document) Hin)
    as (s & e & _ & Hse & Hs & He & ->).
  fold text in Hse, Hs, He |- *.
  split; [|split].
  - cbn [start end_ spanAt]. apply positionAt_lt. fold text. lia.
  - exists s, e. cbn [start end_ content spanAt].
    repeat split; try assumption; try lia.
    rewrite substring_slice by lia. f_equal. lia.
  - cbn [hasNewlines content spanAt]. rewrite containsNewlines_spec.
    destruct (findNewlineEscapeSequences (substring text (s + 1) e)) as [|i l].
    + split; [congruence | intros [i []]].
    + split; [intros _; exists i; now left | discriminate].
Qed.

(** The two spans of [{"a": "x\ny"}]; the second has a newline escape. *)
Lemma C8_string_span_well_formed_witness :
  let r := mkStringRange (mkPosition 0 6) (mkPosition 0 12) (str "x\ny") true in
  isBefore (start r) (end_ r) = true
  /\ (hasNewlines r = true <->
      exists i, In i (findNewlineEscapeSequences (content r))).
Proof.
  intros r.
  assert (Hin : In r (stringRanges (parseJsonSafely document_D)))
    by (vm_compute; right; left; reflexivity).
  destruct (C8_string_span_well_formed document_D r Hin) as (_ & H1 & _ & H2).
  split; [exact H1 | exact H2].
Defined.

(** The spans of a scan do not overlap, so a position lies in at most
    one of them and the search of [getStringRangeAtPosition] finds it. *)
Lemma spansFrom_find document :
  forall i l p r,
    spansFrom document (getText document) i l ->
    (find (isPositionInRange p) l = Some r
     <-> In r l /\ isPositionInRange p r = true).
Proof.
  intros i l p r H. split; [apply find_some|].
  induction H as [i|i s e rest Hi Hse Hs He Hrest IH];
    intros [Hin Hp]; [contradiction|].
  cbn [find].
  destruct (isPositionInRange p (spanAt document (getText document) s e)) eqn:Hhead.
  - destruct Hin as [<-|Hin]; [reflexivity|]. exfalso.
    destruct (spansFrom_In _ _ _ _ _ Hrest Hin)
      as (s' & e' & Hs' & Hse' & _ & _ & ->).
    unfold isPositionInRange, isAfterOrEqual in Hp, Hhead.
    cbn [start end_ spanAt] in Hp, Hhead.
    apply andb_prop in Hp, Hhead.
    destruct Hp as [Hp1 _], Hhead as [_ Hh2].
    apply negb_true_iff in Hp1.
    pose proof (positionAt_le document (e + 1) s' ltac:(lia)) as Hle.
    apply isBefore_false in Hp1, Hle. apply isBefore_spec in Hh2. lia.
  - destruct Hin as [<-|Hin]; [congruence|]. apply IH. split; assumption.
Qed.

Lemma getStringRangeAtPosition_spec document p r :
  getStringRangeAtPosition document p = Some r
  <-> In r (findStringRanges document)
      /\ isAfterOrEqual p (start r) = true
      /\ isBefore p (end_ r) = true.
Proof.
  assert (Hfind : getStringRangeAtPosition document p =
                  find (isPositionInRange p) (findStringRanges document)).
  { unfold getStringRangeAtPosition, findStringRanges, parseJsonSafely.
    destruct (JSON.parses (getText document)); reflexivity. }
  rewrite Hfind.
  rewrite (spansFrom_find document 0 _ p r (findStringRanges_spans document)).
  unfold isPositionInRange. rewrite andb_true_iff. reflexivity.
Qed.

(** C10. Half-open span membership: [getStringRangeAtPosition] returns a
    span [r] exactly when [r] is one of the scanned spans and the position
    is at or after [start r] and before [end r]. For each scanned span,
    with its quotes at the offsets [s] and [e], [start] is the position of
    the opening quote and [end] the position one past the closing quote;
    the position of either quote is inside the span, and the position just
    after the closing quote is not. *)
Theorem C10_half_open_span_membership :
  forall document,
    (forall p r,
        getStringRangeAtPosition document p = Some r
        <-> In r (findStringRanges document)
            /\ isAfterOrEqual p (start r) = true
            /\ isBefore p (end_ r) = true)
    /\ (forall r,
          In r (findStringRanges document) ->
          exists s e,
            s < e < length (getText document)
            /\ charIs (getText document) s QUOTE = true
            /\ charIs (getText document) e QUOTE = true
            /\ start r = positionAt document s
            /\ end_ r = positionAt document (e + 1)
            /\ getStringRangeAtPosition document (positionAt document s) = Some r
            /\ getStringRangeAtPosition document (positionAt document e) = Some r
            /\ isPositionInRange (positionAt document (e + 1)) r = false
            /\ getStringRangeAtPosition document (positionAt document (e + 1))
               <> Some r).
Proof.
  intros document.
  pose proof (getStringRangeAtPosition_spec document) as Hget.
  split; [exact Hget|].
  intros r Hin.
  destruct (spansFrom_In _ _ _ _ _ (findStringRanges_spans document) Hin)
    as (s & e & _ & Hse & Hs & He & Hr).
  assert (Hstart : start r = positionAt document s) by (now subst r).
  assert (Hend : end_ r = positionAt document (e + 1)) by (now subst r).
  assert (Hpast : isPositionInRange (positionAt document (e + 1)) r = false).
  { unfold isPositionInRange. rewrite Hend.
    replace (isBefore (positionAt document (e + 1)) (positionAt document (e + 1)))
      with false; [apply andb_false_r|].
    symmetry. apply isBefore_false. lia. }
  exists s, e. repeat split; try assumption; try lia.
  - apply Hget. rewrite Hstart, Hend. repeat split; [exact Hin | |].
    + unfold isAfterOrEqual. apply negb_true_iff. apply isBefore_false. lia.
    + apply positionAt_lt. lia.
  - apply Hget. rewrite Hstart, Hend. repeat split; [exact Hin | |].
    + unfold isAfterOrEqual. apply negb_true_iff. apply positionAt_le. lia.
    + apply positionAt_lt. lia.
  - intros Hsome. apply Hget in Hsome. destruct Hsome as (_ & H1 & H2).
    unfold isPositionInRange in Hpast. rewrite H1, H2 in Hpast. discriminate.
Qed.

(** In [{"a": "x\ny"}] the second string has its quotes at the offsets 6
    and 11: both offsets are inside its span, offset 12 is not. *)
Lemma C10_half_open_span_membership_witness :
  let r := mkStringRange (mkPosition 0 6) (mkPosition 0 12) (str "x\ny") true in
  getStringRangeAtPosition document_D (mkPosition 0 6) = Some r
  /\ getStringRangeAtPosition document_D (mkPosition 0 11) = Some r
  /\ getStringRangeAtPosition document_D (mkPosition 0 12) = None.
Proof.
  intros r.
  assert (Hin : In r (findStringRanges document_D))
    by (vm_compute; right; left; reflexivity).
  destruct (C10_half_open_span_membership document_D) as [Hget _].
  split; [|split].
  - apply Hget. split; [exact Hin | split; reflexivity].
  - apply Hget. split; [exact Hin | split; reflexivity].
  - vm_compute. reflexivity.
Defined.

(** ** The text of a document that parses *)

Lemma cfgAt_S text i c :
  nth_error text i = Some c ->
  cfgAt text (S i) = JSON.step (cfgAt text i) c.
Proof.
  intros H. unfold cfgAt.
  assert (Hf : firstn (S i) text = firstn i text ++ [c]).
  { revert i H. induction text as [|d rest IH]; intros [|i] H;
      try discriminate; cbn in *.
    - now injection H as ->.
    - f_equal. now apply IH. }
  rewrite Hf, fold_left_app. reflexivity.
Qed.

Lemma cfgAt_past text i :
  length text <= i -> cfgAt text i = cfgAt text (length text).
Proof.
  intros H. unfold cfgAt. now rewrite firstn_all, firstn_all2.
Qed.

Lemma step_Fail cfg c : fst cfg = JSON.Fail -> fst (JSON.step cfg c) = JSON.Fail.
Proof. destruct cfg as [st stack]. cbn. intros ->. reflexivity. Qed.

Lemma run_Fail l : forall cfg,
  fst cfg = JSON.Fail -> fst (fold_left JSON.step l cfg) = JSON.Fail.
Proof.
  induction l as [|c l IH]; intros cfg H; [exact H|].
  cbn [fold_left]. apply IH. now apply step_Fail.
Qed.

Lemma accepting_not_Fail cfg :
  JSON.accepting cfg = true -> fst cfg <> JSON.Fail.
Proof. destruct cfg as [[] ?]; cbn; congruence. Qed.

(** The recognizer never fails on a prefix of a text it accepts. *)
Lemma parses_not_Fail text i :
  JSON.parses text = true -> fst (cfgAt text i) <> JSON.Fail.
Proof.
  intros Hv Hf. unfold JSON.parses in Hv.
  rewrite <- (firstn_skipn i text), fold_left_app in Hv.
  apply accepting_not_Fail in Hv. apply Hv. now apply run_Fail.
Qed.

Lemma parses_accepting text :
  JSON.parses text = true -> JSON.accepting (cfgAt text (length text)) = true.
Proof. unfold JSON.parses, cfgAt. now rewrite firstn_all. Qed.

Lemma stringMode_end text i :
  JSON.parses text = true ->
  stringMode (fst (cfgAt text i)) = true -> i < length text.
Proof.
  intros Hv Hm. destruct (Nat.lt_ge_cases i (length text)) as [|Hge]; [assumption|].
  rewrite (cfgAt_past text i Hge) in Hm.
  apply parses_accepting in Hv.
  destruct (cfgAt text (length text)) as [[] []]; cbn in *; discriminate.
Qed.

(** What the recognizer accepts inside a string literal. *)
Lemma step_InString k stack c :
  fst (JSON.step (JSON.InString k, stack) c) <> JSON.Fail ->
  (c = QUOTE /\ stringMode (fst (JSON.step (JSON.InString k, stack) c)) = false
   /\ outsideString (fst (JSON.step (JSON.InString k, stack) c)))
  \/ (c = BACKSLASH /\ fst (JSON.step (JSON.InString k, stack) c) = JSON.Escape k)
  \/ (c <> QUOTE /\ c <> BACKSLASH /\ c <> LF
      /\ fst (JSON.step (JSON.InString k, stack) c) = JSON.InString k).
Proof.
  cbn [JSON.step].
  destruct (N.eqb_spec c QUOTE) as [->|Hq].
  { intros _. left. destruct k; cbn; auto. }
  destruct (N.eqb_spec c BACKSLASH) as [->|Hb].
  { intros _. right. left. auto. }
  destruct (c <? 32)%N eqn:Hc; cbn [fst]; [congruence|].
  intros _. right. right. repeat split; auto.
  intros ->. discriminate.
Qed.

Lemma step_Escape k stack c :
  fst (JSON.step (JSON.Escape k, stack) c) <> JSON.Fail ->
  c <> LF
  /\ ((c = CH_u /\ fst (JSON.step (JSON.Escape k, stack) c) = JSON.Hex k 4)
      \/ (c <> CH_u /\ fst (JSON.step (JSON.Escape k, stack) c) = JSON.InString k)).
Proof.
  cbn [JSON.step].
  destruct (N.eqb c QUOTE || JSON.among c "\/bfnrt") eqn:He.
  - intros _. split.
    + intros ->. discriminate.
    + right. split; [|reflexivity]. intros ->. discriminate.
  - destruct (N.eqb_spec c CH_u) as [->|Hu]; cbn [fst]; [|congruence].
    intros _. split; [discriminate|]. left. auto.
Qed.

Lemma step_Hex k n stack c :
  fst (JSON.step (JSON.Hex k n, stack) c) <> JSON.Fail ->
  JSON.isHexDigit c = true
  /\ fst (JSON.step (JSON.Hex k n, stack) c) =
     match n with
     | 0 => JSON.Fail
     | 1 => JSON.InString k
     | S n' => JSON.Hex k n'
     end.
Proof.
  cbn [JSON.step]. destruct (JSON.isHexDigit c); cbn [fst]; [|congruence].
  intros _. split; [reflexivity|]. destruct n as [|[|n]]; reflexivity.
Qed.

Lemma isHexDigit_plain c :
  JSON.isHexDigit c = true -> c <> LF /\ c <> QUOTE /\ c <> BACKSLASH.
Proof. intros H. repeat split; intros ->; discriminate. Qed.

Lemma step_outside_nonquote st stack c :
  outsideString st -> c <> QUOTE ->
  fst (JSON.step (st, stack) c) = JSON.Fail
  \/ outsideString (fst (JSON.step (st, stack) c)).
Proof.
  intros Hout Hc.
  assert (Hstart : fst (JSON.startValue c stack) = JSON.Fail
                   \/ outsideString (fst (JSON.startValue c stack))).
  { unfold JSON.startValue.
    destruct (N.eqb_spec c QUOTE); [contradiction|].
    repeat match goal with
           | |- context [if ?b then _ else _] => destruct b
           end; cbn; auto;
      right; intros H; repeat (destruct H as [H|H]; [discriminate|]); exact H. }
  assert (Hafter : fst (JSON.afterValue c stack) = JSON.Fail
                   \/ outsideString (fst (JSON.afterValue c stack))).
  { unfold JSON.afterValue.
    repeat match goal with
           | |- context [if ?b then _ else _] => destruct b
           | |- context [match ?l with [] => _ | _ :: _ => _ end] => destruct l
           | |- context [match ?x with JSON.InArray => _ | JSON.InObject => _ end] =>
               destruct x
           end; cbn; auto. }
  destruct st as [| | | | | |k|k|k n|rest| | | | | | | | |];
    cbn [outsideString] in Hout; try contradiction;
    cbn [JSON.step];
    try exact Hafter;
    repeat match goal with
           | |- context [if ?b then _ else _] => destruct b eqn:?
           end;
    try exact Hstart; try exact Hafter; cbn; auto.
  - apply N.eqb_eq in Heqb1. contradiction.
  - apply N.eqb_eq in Heqb0. contradiction.
  - (* Literal *)
    destruct rest as [|r rest']; cbn; auto.
    destruct (N.eqb c r); cbn; auto.
    destruct rest' as [|r' rest'']; cbn; auto.
    right. intros H. apply Hout. right. exact H.
Qed.

Lemma step_outside_quote st stack :
  outsideString st ->
  fst (JSON.step (st, stack) QUOTE) = JSON.Fail
  \/ exists k, fst (JSON.step (st, stack) QUOTE) = JSON.InString k.
Proof.
  intros Hout.
  destruct st as [| | | | | |k|k|k n|rest| | | | | | | | |];
    cbn [outsideString] in Hout; try contradiction;
    try (cbn; eauto; fail).
  cbn [JSON.step]. destruct rest as [|r rest']; [cbn; auto|].
  destruct (N.eqb QUOTE r) eqn:E; [|cbn; auto].
  apply N.eqb_eq in E. exfalso. apply Hout. now left.
Qed.

(** The search for the closing quote, one index at a time. *)
Lemma findStringEnd_step text i :
  findStringEnd text i =
  if i <? length text then
    if charIs text i BACKSLASH then
      if i + 1 <? length text then
        if charIs text (i + 1) CH_u
           && ((i + 5 <? length text)
               && isValidUnicodeEscape (substring text (i + 2) (i + 6)))
        then findStringEnd text (i + 6)
        else findStringEnd text (i + 2)
      else None
    else if charIs text i QUOTE then Some i
    else findStringEnd text (i + 1)
  else None.
Proof.
  rewrite findStringEnd_equation_1 at 1.
  destruct (lt_dec i (length text)) as [H|H].
  - apply Nat.ltb_lt in H. rewrite H. cbv zeta.
    repeat match goal with
           | |- context [if ?b then _ else _] => destruct b; cbn [andb]
           end; reflexivity.
  - apply Nat.ltb_nlt in H. rewrite H. reflexivity.
Qed.

(** Over code units that are neither a backslash nor a quote the search
    runs to the end of the text. *)
Lemma findStringEnd_plain text :
  forall m i,
    length text - i = m ->
    (forall j, i <= j < length text ->
               charIs text j BACKSLASH = false /\ charIs text j QUOTE = false) ->
    findStringEnd text i = None.
Proof.
  induction m as [m IH] using lt_wf_ind. intros i Hm Hplain.
  rewrite findStringEnd_step.
  destruct (i <? length text) eqn:Hlt; [|reflexivity].
  apply Nat.ltb_lt in Hlt.
  destruct (Hplain i ltac:(lia)) as [-> ->].
  apply (IH (length text - (i + 1))); [lia | reflexivity |].
  intros j Hj. apply Hplain. lia.
Qed.

Lemma In_firstn_skipn {A} (x : A) a b l :
  In x (firstn a (skipn b l)) ->
  exists t, t < a /\ nth_error l (b + t) = Some x.
Proof.
  intros H. apply In_nth_error in H. destruct H as [t Ht].
  rewrite nth_error_firstn in Ht.
  destruct (t <? a) eqn:E; [|discriminate].
  apply Nat.ltb_lt in E. rewrite nth_error_skipn in Ht. eauto.
Qed.

Section ScanOfValidText.

Variable text : jsstring.
Hypothesis Hvalid : JSON.parses text = true.

(** The scanner reads the first [n] code units of the text. *)
Variable n : nat.
Hypothesis Hn : n <= length text.

Let lt := firstn n text.

Lemma limited_length : length lt = n.
Proof. subst lt. rewrite length_firstn. lia. Qed.

Lemma limited_charIs j c :
  j < n -> charIs lt j c = charIs text j c.
Proof.
  intros Hj. unfold charIs. subst lt. rewrite nth_error_firstn.
  apply Nat.ltb_lt in Hj. now rewrite Hj.
Qed.

Lemma limited_nth_error j :
  j < n -> nth_error lt j = nth_error text j.
Proof.
  intros Hj. subst lt. rewrite nth_error_firstn.
  apply Nat.ltb_lt in Hj. now rewrite Hj.
Qed.

(** One step of the recognizer from a state inside a string. *)
Lemma at_InString i k :
  fst (cfgAt text i) = JSON.InString k ->
  exists c,
    nth_error text i = Some c /\ c <> LF
    /\ ((c = QUOTE /\ outsideString (fst (cfgAt text (S i))))
        \/ (c = BACKSLASH /\ fst (cfgAt text (S i)) = JSON.Escape k)
        \/ (c <> QUOTE /\ c <> BACKSLASH
            /\ fst (cfgAt text (S i)) = JSON.InString k)).
Proof.
  intros Hst.
  assert (Hi : i < length text)
    by (apply stringMode_end; [assumption | now rewrite Hst]).
  destruct (nth_error text i) as [c|] eqn:Hc;
    [|apply nth_error_None in Hc; lia].
  exists c. split; [reflexivity|].
  pose proof (parses_not_Fail text (S i) Hvalid) as Hnf.
  rewrite (cfgAt_S text i c Hc) in Hnf |- *.
  destruct (cfgAt text i) as [st stack]. cbn [fst] in Hst. subst st.
  destruct (step_InString k stack c Hnf) as [(-> & _ & H)|[(-> & H)|(H1 & H2 & H3 & H4)]].
  - split; [discriminate|]. left. auto.
  - split; [discriminate|]. right. left. auto.
  - split; [assumption|]. right. right. auto.
Qed.

Lemma at_Escape i k :
  fst (cfgAt text i) = JSON.Escape k ->
  exists c,
    nth_error text i = Some c /\ c <> LF
    /\ ((c = CH_u /\ fst (cfgAt text (S i)) = JSON.Hex k 4)
        \/ (c <> CH_u /\ fst (cfgAt text (S i)) = JSON.InString k)).
Proof.
  intros Hst.
  assert (Hi : i < length text)
    by (apply stringMode_end; [assumption | now rewrite Hst]).
  destruct (nth_error text i) as [c|] eqn:Hc;
    [|apply nth_error_None in Hc; lia].
  exists c. split; [reflexivity|].
  pose proof (parses_not_Fail text (S i) Hvalid) as Hnf.
  rewrite (cfgAt_S text i c Hc) in Hnf |- *.
  destruct (cfgAt text i) as [st stack]. cbn [fst] in Hst. subst st.
  exact (step_Escape k stack c Hnf).
Qed.

Lemma at_Hex i k m :
  fst (cfgAt text i) = JSON.Hex k (S m) ->
  exists c,
    nth_error text i = Some c /\ JSON.isHexDigit c = true
    /\ fst (cfgAt text (S i)) =
       match m with 0 => JSON.InString k | _ => JSON.Hex k m end.
Proof.
  intros Hst.
  assert (Hi : i < length text)
    by (apply stringMode_end; [assumption | now rewrite Hst]).
  destruct (nth_error text i) as [c|] eqn:Hc;
    [|apply nth_error_None in Hc; lia].
  exists c. split; [reflexivity|].
  pose proof (parses_not_Fail text (S i) Hvalid) as Hnf.
  rewrite (cfgAt_S text i c Hc) in Hnf |- *.
  destruct (cfgAt text i) as [st stack]. cbn [fst] in Hst. subst st.
  destruct (step_Hex k (S m) stack c Hnf) as [Hh ->].
  split; [exact Hh|]. destruct m; reflexivity.
Qed.

(** A code unit read inside a string literal is not a line feed. *)
Lemma stringMode_not_LF i :
  stringMode (fst (cfgAt text i)) = true -> charIs text i LF = false.
Proof.
  intros Hm.
  destruct (charIs text i LF) eqn:E; [|reflexivity].
  apply charIs_true in E. exfalso.
  destruct (fst (cfgAt text i)) as [| | | | | |k|k|k m| | | | | | | | | |] eqn:Hst;
    try discriminate.
  - destruct (at_InString i k Hst) as (c & Hc & Hne & _). congruence.
  - destruct (at_Escape i k Hst) as (c & Hc & Hne & _). congruence.
  - destruct m as [|m].
    + pose proof (parses_not_Fail text (S i) Hvalid) as Hnf.
      rewrite (cfgAt_S text i LF E) in Hnf.
      destruct (cfgAt text i) as [st stack]. cbn [fst] in Hst. subst st.
      apply Hnf. reflexivity.
    + destruct (at_Hex i k m Hst) as (c & Hc & Hh & _).
      assert (c = LF) by congruence. subst c. discriminate.
Qed.

(** The search for the closing quote, started inside a string literal,
    stays inside it: up to the quote it returns, or to the end of what the
    scanner reads when it returns none. *)
Lemma findStringEnd_stringMode :
  forall m i,
    n - i = m -> i <= n ->
    (exists k, fst (cfgAt text i) = JSON.InString k) ->
    match findStringEnd lt i with
    | Some e =>
        (forall j, i <= j <= e -> stringMode (fst (cfgAt text j)) = true)
        /\ outsideString (fst (cfgAt text (e + 1)))
    | None =>
        forall j, i <= j < n -> stringMode (fst (cfgAt text j)) = true
    end.
Proof.
  induction m as [m IH] using lt_wf_ind. intros i Hm Hi [k Hst].
  rewrite findStringEnd_step, limited_length.
  destruct (i <? n) eqn:Hlt; [|intros j Hj; apply Nat.ltb_ge in Hlt; lia].
  apply Nat.ltb_lt in Hlt.
  assert (Hmi : stringMode (fst (cfgAt text i)) = true) by now rewrite Hst.
  destruct (at_InString i k Hst) as (c & Hc & _ & Hcase).
  assert (Hci : forall d, charIs lt i d = N.eqb c d).
  { intros d. rewrite limited_charIs by lia. unfold charIs. now rewrite Hc. }
  rewrite !Hci.
  destruct Hcase as [(-> & Hout)|[(-> & Hesc)|(Hq & Hb & Hin)]].
  - (* the closing quote *)
    cbn [N.eqb Pos.eqb]. change (QUOTE =? BACKSLASH)%N with false.
    rewrite N.eqb_refl. split.
    + intros j Hj. replace j with i by lia. exact Hmi.
    + replace (i + 1) with (S i) by lia. exact Hout.
  - (* an escape *)
    rewrite N.eqb_refl.
    assert (Hm1 : stringMode (fst (cfgAt text (S i))) = true) by now rewrite Hesc.
    destruct (i + 1 <? n) eqn:Hlt1.
    2:{ apply Nat.ltb_ge in Hlt1. intros j Hj. replace j with i by lia. exact Hmi. }
    apply Nat.ltb_lt in Hlt1.
    destruct (at_Escape (S i) k Hesc) as (c' & Hc' & _ & Hcase').
    assert (Hci' : charIs lt (i + 1) CH_u = N.eqb c' CH_u).
    { rewrite limited_charIs by lia. unfold charIs.
      replace (i + 1) with (S i) by lia. now rewrite Hc'. }
    rewrite Hci'.
    destruct Hcase' as [(-> & Hhex)|(Hnu & Hin)].
    + (* a unicode escape *)
      rewrite N.eqb_refl. cbn [andb].
      destruct (at_Hex (S (S i)) k 3 Hhex) as (c2 & Hc2 & Hh2 & Hs3).
      destruct (at_Hex (S (S (S i))) k 2 Hs3) as (c3 & Hc3 & Hh3 & Hs4).
      destruct (at_Hex (S (S (S (S i)))) k 1 Hs4) as (c4 & Hc4 & Hh4 & Hs5).
      destruct (at_Hex (S (S (S (S (S i))))) k 0 Hs5) as (c5 & Hc5 & Hh5 & Hs6).
      assert (Hmodes : forall j, i <= j < i + 6 ->
                                 stringMode (fst (cfgAt text j)) = true).
      { intros j Hj.
        assert (Hj' : j = i \/ j = S i \/ j = S (S i) \/ j = S (S (S i))
                      \/ j = S (S (S (S i))) \/ j = S (S (S (S (S i))))) by lia.
        destruct Hj' as [-> | [-> | [-> | [-> | [-> | ->]]]]];
          [exact Hmi | exact Hm1 | now rewrite Hhex | now rewrite Hs3
          | now rewrite Hs4 | now rewrite Hs5]. }
      assert (Hhexes : forall t x, t < 4 -> nth_error text (i + 2 + t) = Some x ->
                                   JSON.isHexDigit x = true).
      { intros t x Ht Hx.
        assert (Ht' : t = 0 \/ t = 1 \/ t = 2 \/ t = 3) by lia.
        destruct Ht' as [-> | [-> | [-> | ->]]].
        - replace (i + 2 + 0) with (S (S i)) in Hx by lia. congruence.
        - replace (i + 2 + 1) with (S (S (S i))) in Hx by lia. congruence.
        - replace (i + 2 + 2) with (S (S (S (S i)))) in Hx by lia. congruence.
        - replace (i + 2 + 3) with (S (S (S (S (S i))))) in Hx by lia. congruence. }
      destruct (i + 5 <? n) eqn:Hlt5.
      * apply Nat.ltb_lt in Hlt5.
        assert (Hvalidhex : isValidUnicodeEscape (substring lt (i + 2) (i + 6)) = true).
        { rewrite substring_slice by (rewrite limited_length; lia).
          unfold isValidUnicodeEscape.
          rewrite length_firstn, length_skipn, limited_length.
          replace (Nat.min (i + 6 - (i + 2)) (n - (i + 2))) with 4 by lia.
          cbn [Nat.eqb negb]. apply forallb_forall. intros x Hx.
          apply In_firstn_skipn in Hx. destruct Hx as (t & Ht & Hx).
          rewrite limited_nth_error in Hx by lia.
          apply (Hhexes t x); [lia | exact Hx]. }
        rewrite Hvalidhex. cbn [andb].
        specialize (IH (n - (i + 6)) ltac:(lia) (i + 6) eq_refl ltac:(lia)).
        replace (i + 6) with (S (S (S (S (S (S i)))))) in IH |- * by lia.
        specialize (IH (ex_intro _ k Hs6)).
        destruct (findStringEnd lt (S (S (S (S (S (S i))))))) as [e|].
        -- destruct IH as [IH1 IH2]. split; [|exact IH2].
           intros j Hj. destruct (Nat.lt_ge_cases j (i + 6)).
           ++ apply Hmodes. lia.
           ++ apply IH1. lia.
        -- intros j Hj. destruct (Nat.lt_ge_cases j (i + 6)).
           ++ apply Hmodes. lia.
           ++ apply IH. lia.
      * apply Nat.ltb_ge in Hlt5. cbn [andb].
        rewrite (findStringEnd_plain lt (length lt - (i + 2)) (i + 2) eq_refl).
        -- intros j Hj. apply Hmodes. lia.
        -- rewrite limited_length. intros j Hj.
           rewrite !limited_charIs by lia.
           destruct (nth_error text j) as [x|] eqn:Hx;
             [|unfold charIs; rewrite Hx; auto].
           assert (Hhx : JSON.isHexDigit x = true).
           { apply (Hhexes (j - (i + 2)) x); [lia|].
             replace (i + 2 + (j - (i + 2))) with j by lia. exact Hx. }
           apply isHexDigit_plain in Hhx. destruct Hhx as (_ & Hxq & Hxb).
           unfold charIs. rewrite Hx.
           split; apply N.eqb_neq; assumption.
    + (* another escape *)
      replace (c' =? CH_u)%N with false by (symmetry; now apply N.eqb_neq).
      cbn [andb].
      specialize (IH (n - (i + 2)) ltac:(lia) (i + 2) eq_refl ltac:(lia)).
      replace (i + 2) with (S (S i)) in IH |- * by lia.
      specialize (IH (ex_intro _ k Hin)).
      assert (Hmodes : forall j, i <= j < i + 2 ->
                                 stringMode (fst (cfgAt text j)) = true).
      { intros j Hj. assert (Hj' : j = i \/ j = S i) by lia.
        destruct Hj' as [-> | ->]; assumption. }
      destruct (findStringEnd lt (S (S i))) as [e|].
      * destruct IH as [IH1 IH2]. split; [|exact IH2].
        intros j Hj. destruct (Nat.lt_ge_cases j (i + 2)).
        -- apply Hmodes. lia.
        -- apply IH1. lia.
      * intros j Hj. destruct (Nat.lt_ge_cases j (i + 2)).
        -- apply Hmodes. lia.
        -- apply IH. lia.
  - (* any other code unit *)
    replace (c =? BACKSLASH)%N with false by (symmetry; now apply N.eqb_neq).
    replace (c =? QUOTE)%N with false by (symmetry; now apply N.eqb_neq).
    specialize (IH (n - (i + 1)) ltac:(lia) (i + 1) eq_refl ltac:(lia)).
    replace (i + 1) with (S i) in IH |- * by lia.
    specialize (IH (ex_intro _ k Hin)).
    destruct (findStringEnd lt (S i)) as [e|].
    + destruct IH as [IH1 IH2]. split; [|exact IH2].
      intros j Hj. destruct (Nat.eq_dec j i) as [->|]; [exact Hmi|].
      apply IH1. lia.
    + intros j Hj. destruct (Nat.eq_dec j i) as [->|]; [exact Hmi|].
      apply IH. lia.
Qed.

(** Where the scanner stands at index [i] with respect to the
    recognizer: between string literals as the recognizer is, or, after a
    literal that the text read by the scanner does not close, inside a
    string literal up to the end of what it reads. *)
Definition scanState (i : nat) : Prop :=
  outsideString (fst (cfgAt text i))
  \/ (forall j, i <= j < n -> stringMode (fst (cfgAt text j)) = true).

Variable document : TextDocument.

(** A span between two quotes of the text with no line feed from the one
    to the other. *)
Definition spanWithoutLF (r : StringRange) : Prop :=
  exists s e,
    s < e < n
    /\ start r = positionAt document s
    /\ end_ r = positionAt document (e + 1)
    /\ forall j, s <= j <= e -> charIs text j LF = false.

Lemma scanState_skip i :
  i < n -> scanState i -> charIs lt i QUOTE = false -> scanState (i + 1).
Proof.
  intros Hi [Hout|Hin] Hq.
  - left. rewrite limited_charIs in Hq by lia.
    destruct (nth_error text i) as [c|] eqn:Hc;
      [|apply nth_error_None in Hc; lia].
    assert (Hne : c <> QUOTE).
    { intros ->. apply charIs_true in Hc. congruence. }
    replace (i + 1) with (S i) by lia.
    pose proof (parses_not_Fail text (S i) Hvalid) as Hnf.
    rewrite (cfgAt_S text i c Hc) in Hnf |- *.
    destruct (cfgAt text i) as [st stack]. cbn [fst] in Hout.
    destruct (step_outside_nonquote st stack c Hout Hne); [contradiction | assumption].
  - right. intros j Hj. apply Hin. lia.
Qed.

Lemma scanState_extract i :
  i < n -> scanState i -> charIs lt i QUOTE = true ->
  match extractSingleStringRange document lt i with
  | Some (r, nextIndex) =>
      spanWithoutLF r /\ i < nextIndex <= n /\ scanState nextIndex
  | None => scanState (i + 1)
  end.
Proof.
  intros Hi Hstate Hq.
  assert (Hqt : nth_error text i = Some QUOTE).
  { rewrite limited_charIs in Hq by lia. now apply charIs_true. }
  assert (HiLF : charIs text i LF = false).
  { unfold charIs. now rewrite Hqt. }
  unfold extractSingleStringRange. rewrite Hq. cbn [negb].
  destruct Hstate as [Hout|Hin].
  - assert (Hstr : exists k, fst (cfgAt text (i + 1)) = JSON.InString k).
    { replace (i + 1) with (S i) by lia.
      pose proof (parses_not_Fail text (S i) Hvalid) as Hnf.
      rewrite (cfgAt_S text i QUOTE Hqt) in Hnf |- *.
      destruct (cfgAt text i) as [st stack]. cbn [fst] in Hout.
      destruct (step_outside_quote st stack Hout); [contradiction | assumption]. }
    pose proof (findStringEnd_stringMode (n - (i + 1)) (i + 1) eq_refl
                  ltac:(lia) Hstr) as Hscan.
    destruct (findStringEnd lt (i + 1)) as [e|] eqn:He.
    + apply findStringEnd_bounds in He. rewrite limited_length in He.
      destruct Hscan as [Hmodes Hout']. split; [|split; [lia | left; exact Hout']].
      exists i, e. cbn [start end_]. repeat split; try lia.
      intros j Hj. destruct (Nat.eq_dec j i) as [->|]; [exact HiLF|].
      apply stringMode_not_LF. apply Hmodes. lia.
    + right. exact Hscan.
  - destruct (findStringEnd lt (i + 1)) as [e|] eqn:He.
    + apply findStringEnd_bounds in He. rewrite limited_length in He.
      split; [|split; [lia | right; intros j Hj; apply Hin; lia]].
      exists i, e. cbn [start end_]. repeat split; try lia.
      intros j Hj. apply stringMode_not_LF. apply Hin. lia.
    + right. intros j Hj. apply Hin. lia.
Qed.

Lemma extractStringRanges_loop_withoutLF :
  forall m i stringCount ranges,
    n - i = m -> i <= n -> scanState i ->
    Forall spanWithoutLF ranges ->
    Forall spanWithoutLF
      (extractStringRanges_loop document lt i stringCount ranges).
Proof.
  induction m as [m IH] using lt_wf_ind.
  intros i stringCount ranges Hm Hi Hstate Hall.
  rewrite extractStringRanges_loop_step, limited_length.
  destruct (i <? n) eqn:Hlt; [|exact Hall].
  apply Nat.ltb_lt in Hlt.
  destruct (N.of_nat stringCount <? maxStrings)%N; [|exact Hall].
  destruct (charIs lt i QUOTE) eqn:Hq.
  - pose proof (scanState_extract i Hlt Hstate Hq) as Hx.
    destruct (extractSingleStringRange document lt i) as [[r nextIndex]|].
    + destruct Hx as (Hr & Hnext & Hst).
      apply (IH (n - nextIndex)); [lia | reflexivity | lia | exact Hst |].
      apply Forall_app. split; [exact Hall | now constructor].
    + apply (IH (n - (i + 1))); [lia | reflexivity | lia | exact Hx | exact Hall].
  - apply (IH (n - (i + 1))); [lia | reflexivity | lia | | exact Hall].
    now apply scanState_skip.
Qed.

Lemma extractStringRangesWithLimits_loop_withoutLF :
  forall m i ranges,
    n - i = m -> i <= n -> scanState i ->
    Forall spanWithoutLF ranges ->
    Forall spanWithoutLF
      (extractStringRangesWithLimits_loop document lt i ranges).
Proof.
  induction m as [m IH] using lt_wf_ind.
  intros i ranges Hm Hi Hstate Hall.
  rewrite extractStringRangesWithLimits_loop_step, limited_length.
  destruct (i <? n) eqn:Hlt; [|exact Hall].
  apply Nat.ltb_lt in Hlt.
  destruct (charIs lt i QUOTE) eqn:Hq.
  - pose proof (scanState_extract i Hlt Hstate Hq) as Hx.
    destruct (extractSingleStringRange document lt i) as [[r nextIndex]|].
    + destruct Hx as (Hr & Hnext & Hst).
      apply (IH (n - nextIndex)); [lia | reflexivity | lia | exact Hst |].
      apply Forall_app. split; [exact Hall | now constructor].
    + apply (IH (n - (i + 1))); [lia | reflexivity | lia | exact Hx | exact Hall].
  - apply (IH (n - (i + 1))); [lia | reflexivity | lia | | exact Hall].
    now apply scanState_skip.
Qed.

Lemma scanState_0 : scanState 0.
Proof. left. cbn. exact I. Qed.

End ScanOfValidText.

(** In a document whose text parses, no string span holds a line feed,
    from its opening quote to its closing quote. *)
Lemma findStringRanges_withoutLF document r :
  JSON.parses (getText document) = true ->
  In r (findStringRanges document) ->
  exists s e,
    s < e < length (getText document)
    /\ start r = positionAt document s
    /\ end_ r = positionAt document (e + 1)
    /\ forall j, s <= j <= e -> charIs (getText document) j LF = false.
Proof.
  intros Hvalid Hin.
  unfold findStringRanges, parseJsonSafely in Hin. rewrite Hvalid in Hin.
  cbn [stringRanges] in Hin. unfold extractStringRangesFromValidJson in Hin.
  set (text := getText document) in *.
  assert (Hgoal : forall n ranges,
             n <= length text ->
             Forall (spanWithoutLF text n document) ranges ->
             In r ranges ->
             exists s e,
               s < e < length text
               /\ start r = positionAt document s
               /\ end_ r = positionAt document (e + 1)
               /\ forall j, s <= j <= e -> charIs text j LF = false).
  { intros n ranges Hn Hall Hr. rewrite Forall_forall in Hall.
    destruct (Hall r Hr) as (s & e & Hse & H1 & H2 & H3).
    exists s, e. repeat split; try assumption; lia. }
  destruct (maxFileSize <? N.of_nat (length text))%N.
  - unfold extractStringRangesWithLimits in Hin.
    rewrite substring_prefix in Hin.
    set (n := Nat.min (N.to_nat maxFileSize) (length text)) in *.
    apply (Hgoal n _ ltac:(lia)
             (extractStringRangesWithLimits_loop_withoutLF text Hvalid n
                ltac:(lia) document (n - 0) 0 [] eq_refl ltac:(lia)
                (scanState_0 text n) (Forall_nil _)) Hin).
  - rewrite <- (firstn_all text) in Hin at 1.
    apply (Hgoal (length text) _ ltac:(lia)
             (extractStringRanges_loop_withoutLF text Hvalid (length text)
                ltac:(lia) document (length text - 0) 0 0 [] eq_refl ltac:(lia)
                (scanState_0 text (length text)) (Forall_nil _)) Hin).
Qed.

Lemma substring_without_LF text a b s e :
  s <= a <= e + 1 -> s <= b <= e + 1 -> e < length text ->
  (forall j, s <= j <= e -> charIs text j LF = false) ->
  count_occ N.eq_dec (substring text a b) LF = 0.
Proof.
  intros Ha Hb He Hno. apply count_occ_not_In. intros Hin.
  unfold substring in Hin.
  rewrite (Nat.min_l a), (Nat.min_l b) in Hin by lia.
  apply In_firstn_skipn in Hin. destruct Hin as (t & Ht & Hx).
  apply charIs_true in Hx. rewrite Hno in Hx by lia. discriminate.
Qed.

(** The text of a range that lies inside a string span of a document
    that parses holds no line feed. *)
Lemma getTextIn_without_LF document sr rg :
  JSON.parses (getText document) = true ->
  getStringRangeAtPosition document (range_start rg) = Some sr ->
  isBefore (range_end rg) (range_start rg) = false ->
  isBefore (end_ sr) (range_end rg) = false ->
  count_occ N.eq_dec (getTextIn document rg) LF = 0.
Proof.
  intros Hvalid Hget Hord Hend.
  apply getStringRangeAtPosition_spec in Hget.
  destruct Hget as (Hin & Hge & Hlt).
  destruct (findStringRanges_withoutLF document sr Hvalid Hin)
    as (s & e & Hse & Hs & He & Hno).
  unfold isAfterOrEqual in Hge. apply negb_true_iff in Hge.
  assert (Hlt' : isBefore (end_ sr) (range_start rg) = false).
  { apply isBefore_spec in Hlt. apply isBefore_false. lia. }
  assert (Hge' : isBefore (range_end rg) (start sr) = false).
  { apply isBefore_false in Hge, Hord. apply isBefore_false. lia. }
  rewrite Hs in Hge, Hge'. rewrite He in Hlt', Hend.
  apply offsetAt_mono with (document := document) in Hge, Hge', Hlt', Hend.
  rewrite offsetAt_positionAt in Hge, Hge', Hlt', Hend by lia.
  unfold getTextIn.
  apply (substring_without_LF _ _ _ s e); try lia. exact Hno.
Qed.

(** ** The content transformer *)

Lemma replace_LF_by_escape_length text :
  length (replace_LF_by_escape text) = length text + count_occ N.eq_dec text LF.
Proof.
  induction text as [|c rest IH]; [reflexivity|].
  cbn [replace_LF_by_escape count_occ].
  destruct (N.eqb_spec c LF) as [->|Hne].
  - destruct (N.eq_dec LF LF) as [_|]; [|congruence]. cbn [length]. lia.
  - destruct (N.eq_dec c LF) as [|_]; [congruence|]. cbn [length]. lia.
Qed.

(** Induction on a string two code units at a time, as the
    replacement of a two-character pattern reads it. *)
Lemma jsstring_pair_ind (P : jsstring -> Prop) :
  P [] ->
  (forall c, P [c]) ->
  (forall c d rest, P rest -> P (d :: rest) -> P (c :: d :: rest)) ->
  forall text, P text.
Proof.
  intros H0 H1 H2 text.
  assert (H : P text /\ forall c, P (c :: text)); [|apply H].
  induction text as [|d rest [IHa IHb]]; split; auto.
Qed.

Lemma replace_escape_by_LF_cons c d rest :
  replace_escape_by_LF (c :: d :: rest) =
  if N.eqb c BACKSLASH && N.eqb d CH_n
  then LF :: replace_escape_by_LF rest
  else c :: replace_escape_by_LF (d :: rest).
Proof. reflexivity. Qed.

Lemma count_escape_cons c d rest :
  count_escape (c :: d :: rest) =
  if N.eqb c BACKSLASH && N.eqb d CH_n
  then S (count_escape rest)
  else count_escape (d :: rest).
Proof. reflexivity. Qed.

Lemma count_occ_LF_cons c rest :
  count_occ N.eq_dec (c :: rest) LF =
  (if N.eqb c LF then 1 else 0) + count_occ N.eq_dec rest LF.
Proof.
  cbn [count_occ]. destruct (N.eq_dec c LF) as [->|Hne].
  - reflexivity.
  - destruct (N.eqb_spec c LF); [congruence | reflexivity].
Qed.

Lemma replace_escape_by_LF_measure text :
  length (replace_escape_by_LF text) + count_escape text = length text
  /\ count_occ N.eq_dec (replace_escape_by_LF text) LF =
     count_occ N.eq_dec text LF + count_escape text.
Proof.
  induction text as [|c|c d rest [IH1 IH2] [IH3 IH4]] using jsstring_pair_ind.
  - split; reflexivity.
  - split; cbn; [reflexivity | lia].
  - rewrite replace_escape_by_LF_cons, count_escape_cons.
    destruct (N.eqb c BACKSLASH && N.eqb d CH_n) eqn:E.
    + apply andb_prop in E. destruct E as [Ec Ed].
      apply N.eqb_eq in Ec, Ed. subst c d.
      split.
      * cbn [length]. rewrite <- IH1. lia.
      * rewrite !count_occ_LF_cons, IH2. cbn. lia.
    + split.
      * change (length (c :: d :: rest)) with (S (length (d :: rest))).
        rewrite <- IH3. reflexivity.
      * rewrite !(count_occ_LF_cons c), IH4. lia.
Qed.

Lemma replace_round_trip text :
  count_occ N.eq_dec text LF = 0 ->
  replace_LF_by_escape (replace_escape_by_LF text) = text.
Proof.
  pattern text. apply jsstring_pair_ind; clear text;
    [intros Hno | intros c Hno | intros c d rest IH1 IH2 Hno].
  - reflexivity.
  - rewrite count_occ_LF_cons in Hno. cbn.
    destruct (N.eqb c LF); [discriminate | reflexivity].
  - rewrite replace_escape_by_LF_cons.
    rewrite count_occ_LF_cons in Hno.
    destruct (N.eqb c LF) eqn:Hc; [discriminate|]. cbn [Nat.add] in Hno.
    destruct (N.eqb c BACKSLASH && N.eqb d CH_n) eqn:E.
    + apply andb_prop in E. destruct E as [Ec Ed].
      apply N.eqb_eq in Ec, Ed. subst c d.
      rewrite count_occ_LF_cons in Hno.
      change (replace_LF_by_escape (LF :: replace_escape_by_LF rest))
        with (BACKSLASH :: CH_n :: replace_LF_by_escape (replace_escape_by_LF rest)).
      rewrite IH1; [reflexivity | exact Hno].
    + change (replace_LF_by_escape (c :: replace_escape_by_LF (d :: rest)))
        with (if N.eqb c LF
              then BACKSLASH :: CH_n
                   :: replace_LF_by_escape (replace_escape_by_LF (d :: rest))
              else c :: replace_LF_by_escape (replace_escape_by_LF (d :: rest))).
      rewrite Hc, IH2; [reflexivity | exact Hno].
Qed.

Lemma replace_round_trip_iff text :
  replace_LF_by_escape (replace_escape_by_LF text) = text
  <-> count_occ N.eq_dec text LF = 0.
Proof.
  split; [|apply replace_round_trip].
  intros H. apply (f_equal (@length _)) in H.
  rewrite replace_LF_by_escape_length in H.
  destruct (replace_escape_by_LF_measure text) as [H1 H2]. lia.
Qed.

Lemma getStringRangeAtPosition_none_transform document r text :
  getStringRangeAtPosition document (range_start r) = None ->
  transformActualContentToVisual document text r = text
  /\ transformVisualContentToActual document text r = text.
Proof.
  intros H. unfold transformActualContentToVisual, transformVisualContentToActual.
  now rewrite H.
Qed.

(** C2, amended. In a document whose text parses, the fragment taken
    from a range that starts inside a string span and ends inside it (at
    or before the position just after the closing quote) is returned
    unchanged by [transformActualContentToVisual] followed by
    [transformVisualContentToActual]. More generally a fragment that
    holds no bare line feed is returned unchanged, whatever the document
    and the range; and when the range starts inside a string span, only
    such fragments are. *)
Theorem C2_content_round_trip :
  (forall document rg sr,
      JSON.parses (getText document) = true ->
      getStringRangeAtPosition document (range_start rg) = Some sr ->
      isBefore (range_end rg) (range_start rg) = false ->
      isBefore (end_ sr) (range_end rg) = false ->
      let f := getTextIn document rg in
      transformVisualContentToActual document
        (transformActualContentToVisual document f rg) rg = f)
  /\ (forall document rg f,
        count_occ N.eq_dec f LF = 0 ->
        transformVisualContentToActual document
          (transformActualContentToVisual document f rg) rg = f)
  /\ (forall document rg sr f,
        getStringRangeAtPosition document (range_start rg) = Some sr ->
        transformVisualContentToActual document
          (transformActualContentToVisual document f rg) rg = f ->
        count_occ N.eq_dec f LF = 0).
Proof.
  assert (Hno : forall document rg f,
             count_occ N.eq_dec f LF = 0 ->
             transformVisualContentToActual document
               (transformActualContentToVisual document f rg) rg = f).
  { intros document rg f Hno.
    unfold transformVisualContentToActual, transformActualContentToVisual.
    destruct (getStringRangeAtPosition document (range_start rg));
      [apply replace_round_trip; exact Hno | reflexivity]. }
  split; [|split; [exact Hno|]].
  - intros document rg sr Hvalid Hget Hord Hend f. apply Hno.
    apply (getTextIn_without_LF document sr rg); assumption.
  - intros document rg sr f Hin.
    unfold transformVisualContentToActual, transformActualContentToVisual.
    rewrite Hin. apply replace_round_trip_iff.
Qed.

(** The round trip on the fragment [x\ny] of [{"a": "x\ny"}]. *)
Lemma C2_content_round_trip_witness :
  let rg := mkRange (mkPosition 0 7) (mkPosition 0 11) in
  transformVisualContentToActual document_D
    (transformActualContentToVisual document_D (getTextIn document_D rg) rg) rg
  = getTextIn document_D rg.
Proof.
  intros rg.
  apply (proj1 C2_content_round_trip document_D rg
           (mkStringRange (mkPosition 0 6) (mkPosition 0 12) (str "x\ny") true)).
  - vm_compute. reflexivity.
  - vm_compute. reflexivity.
  - reflexivity.
  - reflexivity.
Defined.

(** C2 as stated fails: in [{"a":"x\ny",] / ["b":1}] the range from the
    [y] of the first string to the end of the key [b] starts inside a
    span that has a newline escape, and its fragment comes back with the
    line feed of the document turned into backslash, n. *)
Lemma C2_round_trip_counterexample :
  let document := document_two_members in
  let r := mkRange (mkPosition 0 9) (mkPosition 1 3) in
  let f := getTextIn document r in
  JSON.parses (getText document) = true
  /\ (exists sr, getStringRangeAtPosition document (range_start r) = Some sr
                 /\ hasNewlines sr = true)
  /\ f = json "y'," ++ [LF] ++ json "'b'"
  /\ transformVisualContentToActual document
       (transformActualContentToVisual document f r) r
     = json "y',\n'b'"
  /\ transformVisualContentToActual document
       (transformActualContentToVisual document f r) r <> f.
Proof.
  cbv zeta. split; [vm_compute; reflexivity|].
  split; [eexists; split; vm_compute; reflexivity|].
  split; [vm_compute; reflexivity|].
  split; [vm_compute; reflexivity|].
  vm_compute. discriminate.
Qed.

(** C7. Inside a string span [transformActualContentToVisual] replaces
    every backslash followed by [n], whatever the parity of the
    backslashes before it, and outside every span it returns the fragment
    unchanged. In [{"a":"x\\n"}] the fragment backslash, backslash, n has
    no occurrence for the locator, yet it comes back as backslash, line
    feed. *)
Theorem C7_toVisual_ignores_parity :
  let document := document_escaped_backslash in
  let r := mkRange (mkPosition 0 7) (mkPosition 0 10) in
  (forall doc rg sr f,
      getStringRangeAtPosition doc (range_start rg) = Some sr ->
      transformActualContentToVisual doc f rg = replace_escape_by_LF f)
  /\ (forall doc rg f,
        getStringRangeAtPosition doc (range_start rg) = None ->
        transformActualContentToVisual doc f rg = f)
  /\ JSON.parses (getText document) = true
  /\ getTextIn document r = str "\\n"
  /\ (exists sr, getStringRangeAtPosition document (range_start r) = Some sr)
  /\ findNewlineEscapeSequences (str "\\n") = []
  /\ transformActualContentToVisual document (str "\\n") r = [BACKSLASH; LF].
Proof.
  cbv zeta. split; [|split].
  - intros doc rg sr f H. unfold transformActualContentToVisual. now rewrite H.
  - intros doc rg f H. unfold transformActualContentToVisual. now rewrite H.
  - repeat split; try (vm_compute; reflexivity).
    eexists. vm_compute. reflexivity.
Qed.

(** ** The coordinate mapper *)

Lemma eval_transformActualToVisual document p w :
  eval (transformActualToVisual document p) w =
  transformActualToVisual_position document p.
Proof.
  unfold eval, transformActualToVisual, bind, ret.
  destruct (ensureDocumentState document w). reflexivity.
Qed.

Lemma eval_transformVisualToActual document p w :
  eval (transformVisualToActual document p) w =
  transformVisualToActual_position document p.
Proof.
  unfold eval, transformVisualToActual, bind, ret.
  destruct (ensureDocumentState document w). reflexivity.
Qed.

(** C6. In [{"a": "x\ny"}] the actual position of [y], line 0 column 10,
    is mapped to the visual position line 1 column 0, and that visual
    position is mapped back to line 0 column 2, in every state of the
    engine: the two conversions are not inverse to each other. *)
Theorem C6_position_round_trip_fails :
  forall w w' : World,
    JSON.parses (getText document_D) = true
    /\ eval (transformActualToVisual document_D (mkPosition 0 10)) w
       = mkPosition 1 0
    /\ eval (transformVisualToActual document_D (mkPosition 1 0)) w'
       = mkPosition 0 2
    /\ eval (transformVisualToActual document_D
               (eval (transformActualToVisual document_D (mkPosition 0 10)) w))
            w'
       <> mkPosition 0 10.
Proof.
  intros w w'.
  rewrite !eval_transformVisualToActual, !eval_transformActualToVisual.
  repeat split; try (vm_compute; reflexivity).
  vm_compute. discriminate.
Qed.

(** ** The occurrences and the actual-to-visual mapping *)

Lemma findDetailedNewlinePositionsInString_loop_step
    document range text stringStartOffset stringEndOffset i newlineIndex positions :
  findDetailedNewlinePositionsInString_loop document range text
    stringStartOffset stringEndOffset i newlineIndex positions =
  if i <? stringEndOffset - 1 then
    if charIs text i BACKSLASH then
      if i + 1 <? stringEndOffset then
        if charIs text (i + 1) CH_n then
          if isRealNewlineEscape text i stringStartOffset then
            findDetailedNewlinePositionsInString_loop document range text
              stringStartOffset stringEndOffset (i + 2) (S newlineIndex)
              (positions ++
               [mkDetailedNewlinePosition
                  (positionAt document i) (positionAt document (i + 2))
                  range i (i + 2) newlineIndex
                  (substring text stringStartOffset i)
                  (substring text (i + 2) stringEndOffset)])
          else
            findDetailedNewlinePositionsInString_loop document range text
              stringStartOffset stringEndOffset (i + 2) newlineIndex positions
        else if charIs text (i + 1) CH_u then
          if (i + 5 <? stringEndOffset)
             && isValidUnicodeEscape (substring text (i + 2) (i + 6))
          then
            findDetailedNewlinePositionsInString_loop document range text
              stringStartOffset stringEndOffset (i + 6) newlineIndex positions
          else
            findDetailedNewlinePositionsInString_loop document range text
              stringStartOffset stringEndOffset (i + 2) newlineIndex positions
        else
          findDetailedNewlinePositionsInString_loop document range text
            stringStartOffset stringEndOffset (i + 2) newlineIndex positions
      else
        findDetailedNewlinePositionsInString_loop document range text
          stringStartOffset stringEndOffset (i + 1) newlineIndex positions
    else
      findDetailedNewlinePositionsInString_loop document range text
        stringStartOffset stringEndOffset (i + 1) newlineIndex positions
  else positions.
Proof.
  rewrite findDetailedNewlinePositionsInString_loop_equation_1 at 1.
  destruct (lt_dec i (stringEndOffset - 1)) as [H|H].
  - apply Nat.ltb_lt in H. rewrite H. reflexivity.
  - apply Nat.ltb_nlt in H. rewrite H. reflexivity.
Qed.

Lemma ascendingFrom_weaken lo lo' l :
  lo' <= lo -> ascendingFrom lo l -> ascendingFrom lo' l.
Proof. destruct l; cbn; [trivial | intros ? [? ?]; split; [lia | assumption]]. Qed.

Lemma ascendingFrom_app lo hi l1 l2 :
  lo <= hi ->
  ascendingFrom lo l1 ->
  Forall (fun np => endOffset np <= hi) l1 ->
  ascendingFrom hi l2 ->
  ascendingFrom lo (l1 ++ l2).
Proof.
  revert lo. induction l1 as [|np l1 IH]; intros lo Hlo H1 Hall H2.
  - apply (ascendingFrom_weaken hi); assumption.
  - destruct H1 as [H1a H1b]. inversion Hall; subst.
    split; [exact H1a|]. apply IH; assumption.
Qed.

(** What the loop adds from index [i] on: occurrences of the range, each
    two code units long, in increasing order and inside the string. *)
Lemma findDetailedNewlinePositionsInString_loop_ascending
    document range text stringStartOffset stringEndOffset :
  forall m i newlineIndex positions,
    stringEndOffset - i = m ->
    exists new,
      findDetailedNewlinePositionsInString_loop document range text
        stringStartOffset stringEndOffset i newlineIndex positions
      = positions ++ new
      /\ ascendingFrom i new
      /\ Forall (fun np => endOffset np = offset np + 2
                           /\ endOffset np <= stringEndOffset) new.
Proof.
  induction m as [m IH] using lt_wf_ind. intros i newlineIndex positions Hm.
  assert (Hrec : forall k idx,
             0 < k -> i < stringEndOffset ->
             exists new,
               findDetailedNewlinePositionsInString_loop document range text
                 stringStartOffset stringEndOffset (i + k) idx positions
               = positions ++ new
               /\ ascendingFrom i new
               /\ Forall (fun np => endOffset np = offset np + 2
                                    /\ endOffset np <= stringEndOffset) new).
  { intros k idx Hk Hi.
    destruct (IH (stringEndOffset - (i + k)) ltac:(lia) (i + k) idx positions
                eq_refl) as (new & -> & Hasc & Hall).
    exists new. repeat split; [|exact Hall].
    apply (ascendingFrom_weaken (i + k)); [lia | exact Hasc]. }
  rewrite findDetailedNewlinePositionsInString_loop_step.
  destruct (i <? stringEndOffset - 1) eqn:Hlt.
  2:{ exists []. rewrite app_nil_r. repeat split; constructor. }
  apply Nat.ltb_lt in Hlt.
  destruct (charIs text i BACKSLASH); [|apply Hrec; lia].
  destruct (i + 1 <? stringEndOffset); [|apply Hrec; lia].
  destruct (charIs text (i + 1) CH_n).
  - destruct (isRealNewlineEscape text i stringStartOffset); [|apply Hrec; lia].
    destruct (IH (stringEndOffset - (i + 2)) ltac:(lia) (i + 2) (S newlineIndex)
                (positions ++
                 [mkDetailedNewlinePosition
                    (positionAt document i) (positionAt document (i + 2))
                    range i (i + 2) newlineIndex
                    (substring text stringStartOffset i)
                    (substring text (i + 2) stringEndOffset)])
                eq_refl) as (new & -> & Hasc & Hall).
    eexists (_ :: new). split; [now rewrite <- app_assoc|].
    split.
    + cbn [ascendingFrom offset endOffset]. split; [lia | exact Hasc].
    + constructor; [|exact Hall]. cbn [offset endOffset]. lia.
  - destruct (charIs text (i + 1) CH_u); [|apply Hrec; lia].
    destruct (_ && _); apply Hrec; lia.
Qed.

(** The occurrences of a document come in increasing order of offset,
    each two code units long. *)
Lemma flat_map_spans_ascending document :
  forall i spans,
    spansFrom document (getText document) i spans ->
    ascendingFrom i
      (flat_map
         (fun range =>
            if hasNewlines range
            then findDetailedNewlinePositionsInString document range
            else [])
         spans)
    /\ Forall (fun np => endOffset np = offset np + 2)
         (flat_map
            (fun range =>
               if hasNewlines range
               then findDetailedNewlinePositionsInString document range
               else [])
            spans).
Proof.
  intros i spans H.
  induction H as [i|i s e rest Hi Hse Hs He Hrest [IH1 IH2]];
    [split; constructor|].
  cbn [flat_map].
  assert (Hone : exists l,
             (if hasNewlines (spanAt document (getText document) s e)
              then findDetailedNewlinePositionsInString document
                     (spanAt document (getText document) s e)
              else []) = l
             /\ ascendingFrom (s + 1) l
             /\ Forall (fun np => endOffset np = offset np + 2
                                  /\ endOffset np <= e) l).
  { destruct (hasNewlines _).
    - unfold findDetailedNewlinePositionsInString.
      cbn [start end_ spanAt].
      rewrite !offsetAt_positionAt by lia.
      replace (e + 1 - 1) with e by lia.
      destruct (findDetailedNewlinePositionsInString_loop_ascending document
                  (spanAt document (getText document) s e) (getText document)
                  (s + 1) e (e - (s + 1)) (s + 1) 0 [] eq_refl)
        as (new & -> & Hasc & Hall).
      exists new. auto.
    - exists []. repeat split; constructor. }
  destruct Hone as (l & -> & Hasc & Hall).
  split.
  - apply (ascendingFrom_app i (e + 1)); [lia | | | exact IH1].
    + apply (ascendingFrom_weaken (s + 1)); [lia | exact Hasc].
    + eapply Forall_impl; [|exact Hall]. cbn. intros np [_ H]. lia.
  - apply Forall_app. split; [|exact IH2].
    eapply Forall_impl; [|exact Hall]. cbn. tauto.
Qed.

Lemma getDetailedNewlinePositions_ascending document :
  ascendingFrom 0 (getDetailedNewlinePositions document)
  /\ Forall (fun np => endOffset np = offset np + 2)
       (getDetailedNewlinePositions document).
Proof.
  unfold getDetailedNewlinePositions.
  destruct (negb (isValid (parseJsonSafely document)));
    [split; constructor|].
  apply flat_map_spans_ascending. apply findStringRanges_spans.
Qed.

Lemma getDetailedNewlinePositions_endOffset document :
  Forall (fun np => endOffset np = offset np + 2)
    (getDetailedNewlinePositions document).
Proof. apply getDetailedNewlinePositions_ascending. Qed.

Lemma ascendingFrom_In lo l np :
  ascendingFrom lo l -> Forall (fun np => endOffset np = offset np + 2) l ->
  In np l -> lo <= offset np.
Proof.
  revert lo. induction l as [|x l IH]; intros lo Hasc Hall Hin; [contradiction|].
  destruct Hasc as [Hx Hl]. inversion Hall as [|? ? Hex Hl']; subst.
  destruct Hin as [<-|Hin]; [exact Hx|].
  specialize (IH _ Hl Hl' Hin). lia.
Qed.

Lemma lastOf_None {A} (l : list A) : lastOf l = None -> l = [].
Proof.
  destruct l as [|x l]; [reflexivity|]. cbn. destruct (lastOf l); discriminate.
Qed.

(** In an increasing list, the last occurrence that passes a test is the
    one among those that pass with the greatest end offset. *)
Lemma lastOf_filter_greatest (q : DetailedNewlinePosition -> bool) :
  forall l lo np,
    ascendingFrom lo l -> Forall (fun np => endOffset np = offset np + 2) l ->
    lastOf (filter q l) = Some np ->
    In np l /\ q np = true
    /\ forall np', In np' l -> q np' = true -> endOffset np' <= endOffset np.
Proof.
  induction l as [|x l IH]; intros lo np Hasc Hall Hlast; [discriminate|].
  destruct Hasc as [Hx Hl]. inversion Hall as [|? ? Hex Hl']; subst.
  cbn [filter] in Hlast. destruct (q x) eqn:Hqx.
  - cbn [lastOf] in Hlast.
    destruct (lastOf (filter q l)) as [y|] eqn:Hy.
    + injection Hlast as <-.
      destruct (IH _ _ Hl Hl' eq_refl) as (Hin & Hq & Hmax).
      repeat split; [now right | exact Hq |].
      intros np' [<-|Hin'] Hq'; [|now apply Hmax].
      pose proof (ascendingFrom_In _ _ _ Hl Hl' Hin) as Hge.
      assert (endOffset y = offset y + 2)
        by (rewrite Forall_forall in Hl'; now apply Hl').
      lia.
    + injection Hlast as <-. apply lastOf_None in Hy.
      repeat split; [now left | exact Hqx |].
      intros np' [<-|Hin'] Hq'; [lia|].
      assert (Hf : In np' (filter q l)) by (apply filter_In; now split).
      rewrite Hy in Hf. contradiction.
  - destruct (IH _ _ Hl Hl' Hlast) as (Hin & Hq & Hmax).
    repeat split; [now right | exact Hq |].
    intros np' [<-|Hin'] Hq'; [congruence | now apply Hmax].
Qed.

Lemma transformActualToVisual_fold actualOffset :
  forall newlinePositions visualLine visualCharacter newlinesBefore,
    Forall (fun np => endOffset np = offset np + 2) newlinePositions ->
    let before :=
      filter (fun np => endOffset np <=? actualOffset) newlinePositions in
    exists n,
      fold_left (transformActualToVisual_step actualOffset) newlinePositions
        (visualLine, visualCharacter, newlinesBefore) =
      (visualLine + length before,
       match lastOf before with
       | Some np => actualOffset - endOffset np
       | None => visualCharacter
       end,
       n).
Proof.
  induction newlinePositions as [|np rest IH];
    intros visualLine visualCharacter newlinesBefore Hall.
  - cbn. exists newlinesBefore. now rewrite Nat.add_0_r.
  - inversion Hall as [|? ? Hnp Hrest]; subst.
    cbn [fold_left filter]. unfold transformActualToVisual_step at 2.
    rewrite Hnp.
    destruct (offset np + 2 <=? actualOffset) eqn:Hle.
    + apply Nat.leb_le in Hle.
      replace (offset np <? actualOffset) with true
        by (symmetry; apply Nat.ltb_lt; lia).
      destruct (IH (S visualLine) (actualOffset - (offset np + 2))
                  (S newlinesBefore) Hrest) as [n ->].
      exists n. cbn [length lastOf].
      replace (visualLine + S (length (filter (fun np0 => endOffset np0 <=? actualOffset) rest)))
        with (S visualLine + length (filter (fun np0 => endOffset np0 <=? actualOffset) rest))
        by lia.
      destruct (lastOf _); [reflexivity | now rewrite Hnp].
    + destruct (offset np <? actualOffset).
      * destruct (IH visualLine visualCharacter (S newlinesBefore) Hrest)
          as [n ->]. exists n. reflexivity.
      * destruct (IH visualLine visualCharacter newlinesBefore Hrest)
          as [n ->]. exists n. reflexivity.
Qed.

(** C5, amended. [transformActualToVisual] maps an actual position to the
    visual position whose line is the line of the actual position plus the
    number of located occurrences whose end offset is at most the offset
    of the position, and whose column is that offset minus the end offset
    of the last such occurrence, or the column of the actual position when
    there is none. The occurrences are located in increasing order, so the
    last such occurrence is the one with the greatest end offset at or
    before the target. In [{"a": "x\ny"}] the position of [y] is mapped to
    line 1, column 0. *)
Theorem C5_actual_to_visual :
  (forall document p w,
      let occurrences := getDetailedNewlinePositions document in
      let target := offsetAt document p in
      let before := filter (fun np => endOffset np <=? target) occurrences in
      eval (transformActualToVisual document p) w =
      mkPosition (line p + length before)
        (match lastOf before with
         | Some np => target - endOffset np
         | None => character p
         end)
      /\ (forall np, In np occurrences -> endOffset np = offset np + 2)
      /\ (forall np,
            lastOf before = Some np ->
            In np occurrences /\ endOffset np <= target
            /\ forall np',
                 In np' occurrences -> endOffset np' <= target ->
                 endOffset np' <= endOffset np))
  /\ charIs (getText document_D) 10 (chr "y") = true
  /\ (forall w,
        eval (transformActualToVisual document_D (positionAt document_D 10)) w
        = mkPosition 1 0).
Proof.
  split; [|split].
  - intros document p w. cbv zeta.
    destruct (getDetailedNewlinePositions_ascending document) as [Hasc Hall].
    split; [|split].
    + rewrite eval_transformActualToVisual.
      unfold transformActualToVisual_position.
      destruct (getDetailedNewlinePositions document) as [|np rest] eqn:E.
      * cbn. rewrite Nat.add_0_r. destruct p; reflexivity.
      * cbn [length Nat.eqb].
        destruct (transformActualToVisual_fold (offsetAt document p) (np :: rest)
                    (line p) (character p) 0 Hall) as [n ->].
        reflexivity.
    + rewrite Forall_forall in Hall. exact Hall.
    + intros np Hlast.
      destruct (lastOf_filter_greatest _ _ _ _ Hasc Hall Hlast)
        as (Hin & Hq & Hmax).
      apply Nat.leb_le in Hq. repeat split; [exact Hin | exact Hq |].
      intros np' Hin' Hle. apply Hmax; [exact Hin'|]. now apply Nat.leb_le.
  - reflexivity.
  - intros w. rewrite eval_transformActualToVisual. vm_compute. reflexivity.
Qed.

(** C5 as stated fails: in the two-line document whose second line is
    ["a": "x\ny"}], one occurrence ends at or before the [y], and the [y]
    is mapped to visual line 2. *)
Lemma C5_visual_line_counterexample :
  let document := document_two_lines in
  let p := mkPosition 1 9 in
  JSON.parses (getText document) = true
  /\ charIs (getText document) (offsetAt document p) (chr "y") = true
  /\ length (filter (fun np => endOffset np <=? offsetAt document p)
               (getDetailedNewlinePositions document)) = 1
  /\ eval (transformActualToVisual document p) initialWorld = mkPosition 2 0.
Proof.
  cbv zeta. repeat split; vm_compute; reflexivity.
Qed.

(** ** The synchronization engine *)

(** C4. Fail-closed on invalid JSON: when the text of a document does not
    parse, [parseJsonSafely] reports it invalid with no string range,
    both extractions of occurrences return the empty list, no position
    lies in a string, both content transformations return their argument,
    and a change notification for the document leaves the engine as it
    was, with no edit submitted. The text [{"a": }] does not parse. *)
Theorem C4_fail_closed_on_invalid_json :
  (forall document,
      JSON.parses (getText document) = false ->
      isValid (parseJsonSafely document) = false
      /\ stringRanges (parseJsonSafely document) = []
      /\ extractNewlinePositions document = []
      /\ getDetailedNewlinePositions document = []
      /\ (forall p, getStringRangeAtPosition document p = None)
      /\ (forall f r,
            transformActualContentToVisual document f r = f
            /\ transformVisualContentToActual document f r = f)
      /\ (forall changes w,
            onDidChangeTextDocument
              (mkTextDocumentChangeEvent document changes) w = (tt, w)))
  /\ JSON.parses (getText document_invalid) = false.
Proof.
  split; [|vm_compute; reflexivity].
  intros document Hbad.
  assert (Hv : isValid (parseJsonSafely document) = false).
  { unfold parseJsonSafely. now rewrite Hbad. }
  assert (Hs : stringRanges (parseJsonSafely document) = []).
  { unfold parseJsonSafely. now rewrite Hbad. }
  assert (Hg : forall p, getStringRangeAtPosition document p = None).
  { intros p. unfold getStringRangeAtPosition. now rewrite Hv. }
  repeat split.
  - exact Hv.
  - exact Hs.
  - unfold extractNewlinePositions. now rewrite Hv.
  - unfold getDetailedNewlinePositions. now rewrite Hv.
  - exact Hg.
  - apply getStringRangeAtPosition_none_transform. apply Hg.
  - apply getStringRangeAtPosition_none_transform. apply Hg.
  - intros changes w.
    unfold onDidChangeTextDocument, bind, get, ret. cbn [event_document].
    rewrite Hv. cbn [negb].
    destruct (isProcessingEdit w); [reflexivity|].
    destruct (negb (isJsonDocument document)); reflexivity.
Qed.

(** The document [{"a": }]: a notification for it changes nothing. *)
Lemma C4_fail_closed_on_invalid_json_witness :
  stringRanges (parseJsonSafely document_invalid) = []
  /\ onDidChangeTextDocument
       (mkTextDocumentChangeEvent document_invalid
          [mkContentChange (mkRange (mkPosition 0 6) (mkPosition 0 6)) [LF]])
       initialWorld
     = (tt, initialWorld).
Proof.
  assert (Hbad : JSON.parses (getText document_invalid) = false)
    by (vm_compute; reflexivity).
  destruct (proj1 C4_fail_closed_on_invalid_json document_invalid Hbad)
    as (_ & Hranges & _ & _ & _ & _ & Hevent).
  split; [exact Hranges | apply Hevent].
Defined.

(** What each operation of the engine may change in the world. *)

Lemma initializeDocumentState_spec document w :
  exists ds,
    initializeDocumentState document w =
    (tt, mkWorld (isProcessingEdit w) ds (currentDecorations w)
           (isEnabled w) (activeTextEditor w) (appliedEdits w)).
Proof. eexists. reflexivity. Qed.

Lemma ensureDocumentState_spec document w :
  exists ds,
    ensureDocumentState document w =
    (tt, mkWorld (isProcessingEdit w) ds (currentDecorations w)
           (isEnabled w) (activeTextEditor w) (appliedEdits w)).
Proof.
  unfold ensureDocumentState, bind, get.
  destruct (isJsonDocument document
            && negb (Map_has (documentStates w) (uri document))).
  - apply initializeDocumentState_spec.
  - exists (documentStates w). destruct w. reflexivity.
Qed.

Lemma updateDocumentState_spec document w :
  exists ds,
    updateDocumentState document w =
    (tt, mkWorld (isProcessingEdit w) ds (currentDecorations w)
           (isEnabled w) (activeTextEditor w) (appliedEdits w)).
Proof.
  unfold updateDocumentState, bind, get.
  destruct (Map_get (documentStates w) (uri document)).
  - eexists. reflexivity.
  - apply initializeDocumentState_spec.
Qed.

Lemma applyDecorations_spec document w :
  exists decorations,
    applyDecorations document w =
    (tt, mkWorld (isProcessingEdit w) (documentStates w) decorations
           (isEnabled w) (activeTextEditor w) (appliedEdits w)).
Proof.
  assert (Hw : (tt, w) =
               (tt, mkWorld (isProcessingEdit w) (documentStates w)
                      (currentDecorations w) (isEnabled w)
                      (activeTextEditor w) (appliedEdits w)))
    by (destruct w; reflexivity).
  unfold applyDecorations, bind, get, ret, modify.
  destruct (negb (isEnabled w)); [eexists; exact Hw|].
  destruct (activeTextEditor w) as [editor|] eqn:He; [|eexists; exact Hw].
  destruct (negb (sameDocument (editor_document editor) document));
    [eexists; exact Hw|].
  eexists. cbn beta. rewrite He. reflexivity.
Qed.

Lemma updateDecorations_spec event w :
  exists decorations,
    updateDecorations event w =
    (tt, mkWorld (isProcessingEdit w) (documentStates w) decorations
           (isEnabled w) (activeTextEditor w) (appliedEdits w)).
Proof.
  unfold updateDecorations, bind, get, ret.
  destruct (negb (isEnabled w)).
  - exists (currentDecorations w). destruct w; reflexivity.
  - apply applyDecorations_spec.
Qed.


(** The two outcomes of [convertLineBreaksToEscapeSequences]: nothing, or
    the flag set and one edit submitted. *)
Lemma convertLineBreaksToEscapeSequences_spec document change w :
  let convertedText :=
    transformVisualContentToActual document (change_text change)
      (change_range change) in
  exec (convertLineBreaksToEscapeSequences document change) w =
  if jsstring_eqb convertedText (change_text change) then w
  else mkWorld true (documentStates w) (currentDecorations w) (isEnabled w)
         (activeTextEditor w)
         (appliedEdits w ++
          [mkWorkspaceEdit (uri document) (change_range change) convertedText]).
Proof.
  unfold exec, convertLineBreaksToEscapeSequences, bind, ret.
  destruct (jsstring_eqb _ _); reflexivity.
Qed.

Lemma exec_seq {A B} (m : M A) (k : M B) w :
  exec (m ;;; k) w = exec k (exec m w).
Proof. unfold exec, bind. destruct (m w). reflexivity. Qed.

Lemma exec_forEach_cons {A} (a : A) l (body : A -> M unit) w :
  exec (forEach (a :: l) body) w = exec (forEach l body) (exec (body a) w).
Proof. cbn [forEach]. apply exec_seq. Qed.

Lemma bind_run {A B} (m : M A) (k : A -> M B) w :
  bind m k w = k (fst (m w)) (snd (m w)).
Proof. unfold bind. destruct (m w). reflexivity. Qed.

Lemma getDecorationsInRange_run r w :
  getDecorationsInRange r w = (eval (getDecorationsInRange r) w, w).
Proof. reflexivity. Qed.

(** [processContentChange] acts only through
    [convertLineBreaksToEscapeSequences], and only behind its guards. *)
Lemma processContentChange_spec document change w :
  exec (processContentChange document change) w =
  if 0 <? length (eval (getDecorationsInRange (change_range change)) w) then
    match getStringRangeAtPosition document
            (range_start (change_range change)) with
    | None => w
    | Some _ =>
        if includes (change_text change) [LF]
           && negb (includes (change_text change) [BACKSLASH; CH_n])
        then exec (convertLineBreaksToEscapeSequences document change) w
        else w
    end
  else w.
Proof.
  unfold processContentChange, exec at 1.
  rewrite bind_run, getDecorationsInRange_run. cbn [fst snd].
  destruct (0 <? length _).
  - unfold handleDecoratedAreaEdit.
    destruct (getStringRangeAtPosition _ _); [|reflexivity].
    destruct (includes (change_text change) [LF]
              && negb (includes (change_text change) [BACKSLASH; CH_n]));
      [reflexivity|].
    destruct (jsstring_eqb (change_text change) []); [|reflexivity].
    unfold isDeleteAcrossLineBreak.
    rewrite !bind_run, !getDecorationsInRange_run. cbn [fst snd].
    unfold ret at 1 2. cbn [fst snd]. unfold handleLineBreakDeletion, ret.
    destruct (_ || _); reflexivity.
  - unfold handleNewlineInsertion, ret.
    destruct (includes _ _); reflexivity.
Qed.

Lemma includes_LF_count text :
  includes text [LF] = true -> count_occ N.eq_dec text LF <> 0.
Proof.
  induction text as [|c rest IH]; [discriminate|].
  rewrite count_occ_LF_cons. cbn [includes startsWith].
  destruct (N.eqb_spec LF c) as [<-|Hne].
  - intros _. cbn. lia.
  - cbn [andb orb]. intros H. specialize (IH H).
    destruct (N.eqb c LF); cbn; lia.
Qed.

Lemma replace_LF_by_escape_changes text :
  includes text [LF] = true -> replace_LF_by_escape text <> text.
Proof.
  intros H Heq. apply includes_LF_count in H.
  apply (f_equal (@length _)) in Heq.
  rewrite replace_LF_by_escape_length in Heq. lia.
Qed.

(** The counter-edit of one change, when every guard lets it through. *)
Lemma processContentChange_counter_edit document change w sr :
  eval (getDecorationsInRange (change_range change)) w <> [] ->
  getStringRangeAtPosition document (range_start (change_range change))
    = Some sr ->
  includes (change_text change) [LF] = true ->
  includes (change_text change) [BACKSLASH; CH_n] = false ->
  exec (processContentChange document change) w =
  mkWorld true (documentStates w) (currentDecorations w) (isEnabled w)
    (activeTextEditor w)
    (appliedEdits w ++
     [mkWorkspaceEdit (uri document) (change_range change)
        (replace_LF_by_escape (change_text change))]).
Proof.
  intros Hdec Hsr HLF Hesc.
  rewrite processContentChange_spec.
  destruct (eval (getDecorationsInRange (change_range change)) w) eqn:E;
    [congruence|]. cbn [length Nat.ltb Nat.leb].
  rewrite Hsr, HLF, Hesc. cbn [negb andb].
  rewrite convertLineBreaksToEscapeSequences_spec. cbv zeta.
  unfold transformVisualContentToActual. rewrite Hsr.
  unfold jsstring_eqb.
  destruct (list_eq_dec N.eq_dec _ _) as [Heq|_]; [|reflexivity].
  exfalso. exact (replace_LF_by_escape_changes _ HLF Heq).
Qed.

Lemma replace_LF_by_escape_no_LF text :
  includes (replace_LF_by_escape text) [LF] = false.
Proof.
  induction text as [|c rest IH]; [reflexivity|].
  cbn [replace_LF_by_escape].
  destruct (N.eqb_spec c LF) as [->|Hne].
  - cbn [includes startsWith]. rewrite IH. reflexivity.
  - cbn [includes startsWith]. rewrite IH.
    destruct (N.eqb_spec LF c); [congruence | reflexivity].
Qed.



(** The path of a notification that passes the three gates. *)
Lemma onDidChangeTextDocument_run event w :
  isProcessingEdit w = false ->
  isJsonDocument (event_document event) = true ->
  JSON.parses (getText (event_document event)) = true ->
  exec (onDidChangeTextDocument event) w =
  exec (updateDecorations event)
    (exec (updateDocumentState (event_document event))
       (exec (forEach (contentChanges event)
                (processContentChange (event_document event)))
          (exec (ensureDocumentState (event_document event)) w))).
Proof.
  intros Hflag Hjson Hvalid.
  assert (Hv : isValid (parseJsonSafely (event_document event)) = true).
  { unfold parseJsonSafely. now rewrite Hvalid. }
  rewrite <- !exec_seq.
  unfold onDidChangeTextDocument, exec at 1.
  rewrite bind_run. unfold get at 1 2. cbn [fst snd].
  rewrite Hflag, Hjson, Hv. reflexivity.
Qed.

(** *** Enter pressed inside a string literal *)

(** The three tests at the head of the handler: when one of them fails
    the handler returns at once. *)
Lemma onDidChangeTextDocument_skip event w :
  isProcessingEdit w = true
  \/ isJsonDocument (event_document event) = false
  \/ JSON.parses (getText (event_document event)) = false ->
  onDidChangeTextDocument event w = (tt, w).
Proof.
  unfold onDidChangeTextDocument, bind, get, ret.
  destruct (isProcessingEdit w); [reflexivity|].
  destruct (isJsonDocument (event_document event)); cbn [negb]; [|reflexivity].
  unfold parseJsonSafely.
  destruct (JSON.parses (getText (event_document event))); cbn [isValid negb];
    [|reflexivity].
  intros [H | [H | H]]; discriminate.
Qed.

(** Inside a string literal, a code unit other than the quote is read
    without regard to the enclosing containers and to the kind of the
    literal. *)
Lemma step_inside_string st stack c :
  stringModeOrFail st = true -> c <> QUOTE ->
  exists st',
    JSON.step (st, stack) c = (st', stack)
    /\ stringModeOrFail st' = true
    /\ forall k stack',
         JSON.step (rekey k st, stack') c = (rekey k st', stack').
Proof.
  intros Hst Hc. apply N.eqb_neq in Hc.
  destruct st; try discriminate Hst; cbn [JSON.step rekey].
  - rewrite Hc.
    destruct (N.eqb c BACKSLASH); [eexists; repeat split; reflexivity|].
    destruct (c <? 32)%N; eexists; repeat split; reflexivity.
  - rewrite Hc. cbn [orb].
    destruct (JSON.among c "\/bfnrt"); [eexists; repeat split; reflexivity|].
    destruct (N.eqb c CH_u); eexists; repeat split; reflexivity.
  - destruct (JSON.isHexDigit c); [|eexists; repeat split; reflexivity].
    destruct remaining as [|[|n]]; eexists; repeat split; reflexivity.
  - eexists; repeat split; reflexivity.
Qed.

Lemma run_inside_string text :
  ~ In QUOTE text ->
  forall st stack,
    stringModeOrFail st = true ->
    exists st',
      fold_left JSON.step text (st, stack) = (st', stack)
      /\ stringModeOrFail st' = true
      /\ forall k stack',
           fold_left JSON.step text (rekey k st, stack') = (rekey k st', stack').
Proof.
  induction text as [|c text IH]; intros Hq st stack Hst.
  - exists st. split; [reflexivity | split; [exact Hst | reflexivity]].
  - assert (Hc : c <> QUOTE) by (intros ->; apply Hq; now left).
    destruct (step_inside_string st stack c Hst Hc) as (st1 & H1 & Hm1 & Hk1).
    destruct (IH (fun H => Hq (or_intror H)) st1 stack Hm1)
      as (st' & H' & Hm' & Hk').
    exists st'. cbn [fold_left]. rewrite H1.
    split; [exact H' | split; [exact Hm'|]].
    intros k stack'. rewrite Hk1. apply Hk'.
Qed.

Lemma step_inside_string_LF st stack :
  stringModeOrFail st = true -> fst (JSON.step (st, stack) LF) = JSON.Fail.
Proof.
  intros Hst. destruct st; try discriminate Hst; reflexivity.
Qed.

(** A text in which a line feed has been put inside a string literal,
    with code units other than the double quote around it, does not
    parse. *)
Lemma LF_inside_string_rejected text o newText :
  stringMode (fst (cfgAt text o)) = true ->
  In LF newText -> ~ In QUOTE newText ->
  JSON.parses (firstn o text ++ newText ++ skipn o text) = false.
Proof.
  intros Hm Hin Hq.
  destruct (in_split _ _ Hin) as (l1 & l2 & ->).
  destruct (JSON.parses (firstn o text ++ (l1 ++ LF :: l2) ++ skipn o text))
    eqn:Hp; [exfalso|reflexivity].
  unfold JSON.parses in Hp. apply accepting_not_Fail in Hp. apply Hp.
  rewrite <- !app_assoc, !fold_left_app. cbn [app fold_left].
  apply run_Fail.
  fold (cfgAt text o).
  destruct (cfgAt text o) as [st stack]. cbn [fst] in Hm.
  assert (Hst : stringModeOrFail st = true) by (destruct st; auto; discriminate).
  assert (Hq1 : ~ In QUOTE l1).
  { intros H. apply Hq. apply in_or_app. now left. }
  destruct (run_inside_string l1 Hq1 st stack Hst) as (st' & -> & Hst' & _).
  apply run_Fail. now apply step_inside_string_LF.
Qed.

(** C3: the code does not do what the claim says. A change notification
    carries the document as it is after the change; once a line feed has
    been put inside a string literal that text does not parse, so
    [onDidChangeTextDocument] returns at its validity test and submits
    no counter-edit, whatever the changes and the decorations are. So it
    is when Enter is pressed on the newline escape of [{"a": "x\ny"}]
    while its decorations are shown: the range of the change lies inside
    the span, which has a newline escape, and touches a decoration, and
    the raw line feed stays in the document. Handed the document as it
    was before the change, as the test suite hands it, the handler still
    submits nothing for a line feed typed before the [x], inside the
    same span, where [handlePasteOperation] does convert it. *)
Theorem C3_no_counter_edit_on_enter :
  (forall text o newText document changes w,
      stringMode (fst (cfgAt text o)) = true ->
      In LF newText -> ~ In QUOTE newText ->
      getText document = firstn o text ++ newText ++ skipn o text ->
      JSON.parses (getText document) = false
      /\ onDidChangeTextDocument
           (mkTextDocumentChangeEvent document changes) w = (tt, w))
  /\ (let w := decoratedWorld document_D in
      let change :=
        mkContentChange (mkRange (mkPosition 0 8) (mkPosition 0 8)) [LF] in
      let event := mkTextDocumentChangeEvent document_D_enter [change] in
      JSON.parses (getText document_D) = true
      /\ getText document_D_enter
         = firstn 8 (getText document_D) ++ change_text change
           ++ skipn 8 (getText document_D)
      /\ (exists sr,
            getStringRangeAtPosition document_D
              (range_start (change_range change)) = Some sr
            /\ isBefore (range_end (change_range change)) (end_ sr) = true
            /\ hasNewlines sr = true)
      /\ eval (getDecorationsInRange (change_range change)) w <> []
      /\ isProcessingEdit w = false
      /\ isJsonDocument document_D_enter = true
      /\ onDidChangeTextDocument event w = (tt, w)
      /\ appliedEdits (exec (onDidChangeTextDocument event) w) = [])
  /\ (let w := decoratedWorld document_D in
      let change :=
        mkContentChange (mkRange (mkPosition 0 7) (mkPosition 0 7)) [LF] in
      let event := mkTextDocumentChangeEvent document_D [change] in
      (exists sr,
          getStringRangeAtPosition document_D
            (range_start (change_range change)) = Some sr
          /\ isBefore (range_end (change_range change)) (end_ sr) = true
          /\ hasNewlines sr = true)
      /\ handlePasteOperation document_D (mkPosition 0 7) [LF]
         = [BACKSLASH; CH_n]
      /\ appliedEdits (exec (onDidChangeTextDocument event) w) = []).
Proof.
  split; [|split].
  - intros text o newText document changes w Hm Hin Hq Htext.
    assert (Hbad : JSON.parses (getText document) = false).
    { rewrite Htext. now apply LF_inside_string_rejected. }
    split; [exact Hbad|].
    apply onDidChangeTextDocument_skip. right. right. exact Hbad.
  - cbv zeta.
    assert (Hrun : onDidChangeTextDocument
                     (mkTextDocumentChangeEvent document_D_enter
                        [mkContentChange
                           (mkRange (mkPosition 0 8) (mkPosition 0 8)) [LF]])
                     (decoratedWorld document_D)
                   = (tt, decoratedWorld document_D)).
    { apply onDidChangeTextDocument_skip. right. right.
      vm_compute. reflexivity. }
    split; [vm_compute; reflexivity|].
    split; [vm_compute; reflexivity|].
    split; [eexists; repeat split; vm_compute; reflexivity|].
    split; [vm_compute; discriminate|].
    split; [vm_compute; reflexivity|].
    split; [reflexivity|].
    split; [exact Hrun|].
    unfold exec. rewrite Hrun. vm_compute. reflexivity.
  - cbv zeta.
    split; [eexists; repeat split; vm_compute; reflexivity|].
    split; vm_compute; reflexivity.
Qed.

(** * Further properties of the sources *)

(** ** The occurrences of a document and the locator *)

Lemma countBackslashes_acc text stop :
  forall n acc,
    countBackslashes text stop n acc = acc + countBackslashes text stop n 0.
Proof.
  induction n as [|j IH]; intros acc; cbn [countBackslashes]; [lia|].
  destruct ((stop <=? j) && charIs text j BACKSLASH); [|lia].
  rewrite (IH (S acc)), (IH 1). lia.
Qed.

Lemma countBackslashes_backslash text stop i :
  stop <= i -> charIs text i BACKSLASH = true ->
  countBackslashes text stop (i + 1) 0 = S (countBackslashes text stop i 0).
Proof.
  intros Hs Hc. replace (i + 1) with (S i) by lia. cbn [countBackslashes].
  apply Nat.leb_le in Hs. rewrite Hs, Hc. cbn [andb].
  rewrite countBackslashes_acc. lia.
Qed.

Lemma countBackslashes_other text stop i :
  charIs text i BACKSLASH = false ->
  countBackslashes text stop (i + 1) 0 = 0.
Proof.
  intros Hc. replace (i + 1) with (S i) by lia. cbn [countBackslashes].
  rewrite Hc, andb_false_r. reflexivity.
Qed.

Lemma filter_seq_skip (f : nat -> bool) k :
  forall i n,
    (forall j, i <= j < i + k -> f j = false) ->
    filter f (seq i n) = filter f (seq (i + k) (n - k)).
Proof.
  induction k as [|k IH]; intros i n H.
  - now rewrite Nat.add_0_r, Nat.sub_0_r.
  - destruct n as [|n]; [reflexivity|].
    cbn [seq filter]. rewrite (H i) by lia.
    rewrite (IH (S i) n) by (intros j Hj; apply H; lia).
    replace (S i + k) with (i + S k) by lia. reflexivity.
Qed.

Lemma escapeIn_not_backslash text stringStart p :
  charIs text p BACKSLASH = false -> escapeIn text stringStart p = false.
Proof. unfold escapeIn. now intros ->. Qed.

Lemma escapeIn_not_n text stringStart p :
  charIs text (p + 1) CH_n = false -> escapeIn text stringStart p = false.
Proof. unfold escapeIn. intros ->. now rewrite andb_false_r. Qed.

Lemma escapeIn_odd text stringStart p :
  isRealNewlineEscape text p stringStart = false ->
  escapeIn text stringStart p = false.
Proof. unfold escapeIn. intros ->. now rewrite andb_false_r. Qed.

(** After a backslash at an aligned index, the index after it is no
    occurrence, and the index after the pair is aligned again. *)
Lemma aligned_pair text stringStart i :
  stringStart <= i ->
  isRealNewlineEscape text i stringStart = true ->
  charIs text i BACKSLASH = true ->
  escapeIn text stringStart (i + 1) = false
  /\ isRealNewlineEscape text (i + 2) stringStart = true.
Proof.
  unfold isRealNewlineEscape. intros Hs Hev Hb.
  destruct (charIs text (i + 1) BACKSLASH) eqn:Hb1.
  - split.
    + apply escapeIn_odd. unfold isRealNewlineEscape.
      rewrite countBackslashes_backslash by assumption.
      rewrite Nat.even_succ, <- Nat.negb_even, Hev. reflexivity.
    + replace (i + 2) with (i + 1 + 1) by lia.
      rewrite countBackslashes_backslash by (assumption || lia).
      rewrite countBackslashes_backslash by assumption.
      rewrite Nat.even_succ_succ. exact Hev.
  - split.
    + apply escapeIn_not_backslash. exact Hb1.
    + replace (i + 2) with (i + 1 + 1) by lia.
      rewrite countBackslashes_other by assumption. reflexivity.
Qed.

Lemma aligned_next text stringStart i :
  charIs text i BACKSLASH = false ->
  isRealNewlineEscape text (i + 1) stringStart = true.
Proof.
  intros H. unfold isRealNewlineEscape.
  now rewrite countBackslashes_other.
Qed.

Lemma isValidUnicodeEscape_hex text a t :
  isValidUnicodeEscape (substring text a (a + 4)) = true ->
  t < 4 ->
  exists c, nth_error text (a + t) = Some c /\ JSON.isHexDigit c = true.
Proof.
  unfold isValidUnicodeEscape.
  destruct (length (substring text a (a + 4)) =? 4) eqn:Hlen; [|discriminate].
  cbn [negb]. intros Hall Ht.
  apply Nat.eqb_eq in Hlen.
  assert (Hle : a + 4 <= length text).
  { unfold substring in Hlen. rewrite length_firstn, length_skipn in Hlen. lia. }
  rewrite substring_slice in Hall by lia.
  rewrite forallb_forall in Hall.
  destruct (nth_error text (a + t)) as [c|] eqn:Hc.
  2:{ apply nth_error_None in Hc. lia. }
  exists c. split; [reflexivity|]. apply Hall.
  replace (a + 4 - a) with 4 by lia.
  apply (nth_error_In _ t).
  rewrite nth_error_firstn.
  destruct (t <? 4) eqn:E; [|apply Nat.ltb_nlt in E; lia].
  rewrite nth_error_skipn. exact Hc.
Qed.

Lemma occurrencesFrom_app document range text a b idx l1 l2 :
  occurrencesFrom document range text a b idx (l1 ++ l2) =
  occurrencesFrom document range text a b idx l1
  ++ occurrencesFrom document range text a b (idx + length l1) l2.
Proof.
  revert idx. induction l1 as [|x l1 IH]; intros idx; cbn.
  - now rewrite Nat.add_0_r.
  - rewrite IH. now replace (S idx + length l1) with (idx + S (length l1)) by lia.
Qed.

(** From an aligned index on, the loop of
    [findDetailedNewlinePositionsInString] adds one occurrence for each
    backslash-n pair preceded by an even number of backslashes, and no
    other. *)
Lemma findDetailedNewlinePositionsInString_loop_filter
    document range text stringStartOffset stringEndOffset :
  forall m i newlineIndex positions,
    stringEndOffset - i = m ->
    stringStartOffset <= i ->
    isRealNewlineEscape text i stringStartOffset = true ->
    findDetailedNewlinePositionsInString_loop document range text
      stringStartOffset stringEndOffset i newlineIndex positions
    = positions ++
      occurrencesFrom document range text stringStartOffset stringEndOffset
        newlineIndex
        (filter (escapeIn text stringStartOffset)
           (seq i (stringEndOffset - 1 - i))).
Proof.
  induction m as [m IH] using lt_wf_ind.
  intros i newlineIndex positions Hm Hs Hal.
  rewrite findDetailedNewlinePositionsInString_loop_step.
  destruct (i <? stringEndOffset - 1) eqn:Hlt.
  2:{ apply Nat.ltb_nlt in Hlt.
      replace (stringEndOffset - 1 - i) with 0 by lia.
      cbn. now rewrite app_nil_r. }
  apply Nat.ltb_lt in Hlt.
  assert (Hskip : forall k idx ps,
             0 < k ->
             (forall j, i <= j < i + k -> escapeIn text stringStartOffset j = false) ->
             isRealNewlineEscape text (i + k) stringStartOffset = true ->
             findDetailedNewlinePositionsInString_loop document range text
               stringStartOffset stringEndOffset (i + k) idx ps
             = ps ++
               occurrencesFrom document range text stringStartOffset
                 stringEndOffset idx
                 (filter (escapeIn text stringStartOffset)
                    (seq i (stringEndOffset - 1 - i)))).
  { intros k idx ps Hk Hno Hal'.
    rewrite (IH (stringEndOffset - (i + k)) (ltac:(lia)) (i + k) idx ps eq_refl
               (ltac:(lia)) Hal').
    rewrite (filter_seq_skip _ k i) by exact Hno.
    replace (stringEndOffset - 1 - i - k) with (stringEndOffset - 1 - (i + k))
      by lia.
    reflexivity. }
  destruct (charIs text i BACKSLASH) eqn:Hb.
  2:{ apply Hskip; [lia | | now apply aligned_next].
      intros j Hj. replace j with i by lia. now apply escapeIn_not_backslash. }
  destruct (aligned_pair text stringStartOffset i Hs Hal Hb) as [Hno1 Hal2].
  assert (Hi1 : (i + 1 <? stringEndOffset) = true) by (apply Nat.ltb_lt; lia).
  rewrite Hi1.
  destruct (charIs text (i + 1) CH_n) eqn:Hn.
  - rewrite Hal.
    rewrite (IH (stringEndOffset - (i + 2)) (ltac:(lia)) (i + 2) (S newlineIndex)
               _ eq_refl (ltac:(lia)) Hal2).
    replace (stringEndOffset - 1 - i) with (S (stringEndOffset - 1 - (i + 1)))
      by lia.
    cbn [seq filter].
    assert (Hyes : escapeIn text stringStartOffset i = true).
    { unfold escapeIn. now rewrite Hb, Hn, Hal. }
    rewrite Hyes. replace (S i) with (i + 1) by lia.
    rewrite (filter_seq_skip _ 1 (i + 1))
      by (intros j Hj; replace j with (i + 1) by lia; exact Hno1).
    replace (i + 1 + 1) with (i + 2) by lia.
    replace (stringEndOffset - 1 - (i + 1) - 1) with (stringEndOffset - 1 - (i + 2))
      by lia.
    cbn [occurrencesFrom]. now rewrite <- app_assoc.
  - assert (Hno0 : escapeIn text stringStartOffset i = false)
      by now apply escapeIn_not_n.
    assert (Hno2 : forall j, i <= j < i + 2 ->
                             escapeIn text stringStartOffset j = false).
    { intros j Hj. assert (j = i \/ j = i + 1) as [-> | ->] by lia; assumption. }
    destruct (charIs text (i + 1) CH_u) eqn:Hu; [|now apply Hskip; [lia| |]].
    destruct ((i + 5 <? stringEndOffset)
              && isValidUnicodeEscape (substring text (i + 2) (i + 6))) eqn:Hx;
      [|now apply Hskip; [lia| |]].
    apply andb_prop in Hx. destruct Hx as [_ Hx].
    replace (i + 6) with (i + 2 + 4) in Hx by lia.
    assert (Hhex : forall t, t < 4 -> charIs text (i + 2 + t) BACKSLASH = false).
    { intros t Ht.
      destruct (isValidUnicodeEscape_hex text (i + 2) t Hx Ht) as (c & Hc & Hh).
      unfold charIs. rewrite Hc.
      apply isHexDigit_plain in Hh. destruct Hh as (_ & _ & Hh).
      now apply N.eqb_neq. }
    apply Hskip; [lia | |].
    + intros j Hj.
      destruct (Nat.lt_ge_cases j (i + 2)) as [Hj2|Hj2]; [apply Hno2; lia|].
      apply escapeIn_not_backslash.
      replace j with (i + 2 + (j - (i + 2))) by lia. apply Hhex. lia.
    + replace (i + 6) with (i + 5 + 1) by lia. apply aligned_next.
      replace (i + 5) with (i + 2 + 3) by lia. apply Hhex. lia.
Qed.

Lemma findNewlinePositionsInString_loop_step
    document range text stringEndOffset i positions :
  findNewlinePositionsInString_loop document range text stringEndOffset i positions =
  if i <? stringEndOffset - 1 then
    if charIs text i BACKSLASH && charIs text (i + 1) CH_n then
      findNewlinePositionsInString_loop document range text stringEndOffset
        (i + 2) (positions ++ [mkNewlinePosition (positionAt document i) range])
    else if charIs text i BACKSLASH then
      findNewlinePositionsInString_loop document range text stringEndOffset
        (i + 2) positions
    else
      findNewlinePositionsInString_loop document range text stringEndOffset
        (i + 1) positions
  else positions.
Proof.
  rewrite findNewlinePositionsInString_loop_equation_1 at 1.
  destruct (lt_dec i (stringEndOffset - 1)) as [H|H].
  - apply Nat.ltb_lt in H. rewrite H. reflexivity.
  - apply Nat.ltb_nlt in H. rewrite H. reflexivity.
Qed.

(** The loop of [findNewlinePositionsInString], which skips the code unit
    after every backslash, finds the same pairs. *)
Lemma findNewlinePositionsInString_loop_filter
    document range text stringStartOffset stringEndOffset :
  forall m i positions,
    stringEndOffset - i = m ->
    stringStartOffset <= i ->
    isRealNewlineEscape text i stringStartOffset = true ->
    findNewlinePositionsInString_loop document range text stringEndOffset i
      positions
    = positions ++
      map (fun p => mkNewlinePosition (positionAt document p) range)
        (filter (escapeIn text stringStartOffset)
           (seq i (stringEndOffset - 1 - i))).
Proof.
  induction m as [m IH] using lt_wf_ind.
  intros i positions Hm Hs Hal.
  rewrite findNewlinePositionsInString_loop_step.
  destruct (i <? stringEndOffset - 1) eqn:Hlt.
  2:{ apply Nat.ltb_nlt in Hlt.
      replace (stringEndOffset - 1 - i) with 0 by lia.
      cbn. now rewrite app_nil_r. }
  apply Nat.ltb_lt in Hlt.
  assert (Hskip : forall k ps,
             0 < k ->
             (forall j, i <= j < i + k -> escapeIn text stringStartOffset j = false) ->
             isRealNewlineEscape text (i + k) stringStartOffset = true ->
             findNewlinePositionsInString_loop document range text
               stringEndOffset (i + k) ps
             = ps ++
               map (fun p => mkNewlinePosition (positionAt document p) range)
                 (filter (escapeIn text stringStartOffset)
                    (seq i (stringEndOffset - 1 - i)))).
  { intros k ps Hk Hno Hal'.
    rewrite (IH (stringEndOffset - (i + k)) (ltac:(lia)) (i + k) ps eq_refl
               (ltac:(lia)) Hal').
    rewrite (filter_seq_skip _ k i) by exact Hno.
    replace (stringEndOffset - 1 - i - k) with (stringEndOffset - 1 - (i + k))
      by lia.
    reflexivity. }
  destruct (charIs text i BACKSLASH) eqn:Hb.
  2:{ cbn [andb]. apply Hskip; [lia | | now apply aligned_next].
      intros j Hj. replace j with i by lia. now apply escapeIn_not_backslash. }
  destruct (aligned_pair text stringStartOffset i Hs Hal Hb) as [Hno1 Hal2].
  cbn [andb].
  destruct (charIs text (i + 1) CH_n) eqn:Hn.
  - rewrite (IH (stringEndOffset - (i + 2)) (ltac:(lia)) (i + 2) _ eq_refl
               (ltac:(lia)) Hal2).
    replace (stringEndOffset - 1 - i) with (S (stringEndOffset - 1 - (i + 1)))
      by lia.
    cbn [seq filter].
    assert (Hyes : escapeIn text stringStartOffset i = true).
    { unfold escapeIn. now rewrite Hb, Hn, Hal. }
    rewrite Hyes. replace (S i) with (i + 1) by lia.
    rewrite (filter_seq_skip _ 1 (i + 1))
      by (intros j Hj; replace j with (i + 1) by lia; exact Hno1).
    replace (i + 1 + 1) with (i + 2) by lia.
    replace (stringEndOffset - 1 - (i + 1) - 1) with (stringEndOffset - 1 - (i + 2))
      by lia.
    cbn [map]. now rewrite <- app_assoc.
  - apply Hskip; [lia | | exact Hal2].
    intros j Hj. assert (j = i \/ j = i + 1) as [-> | ->] by lia;
      [now apply escapeIn_not_n | assumption].
Qed.

Lemma filter_map_seq (f g : nat -> bool) a :
  forall n,
    (forall p, p < n -> f (a + p) = g p) ->
    filter f (seq a n) = map (fun p => a + p) (filter g (seq 0 n)).
Proof.
  induction n as [|n IH]; intros H; [reflexivity|].
  rewrite !seq_S, !filter_app, map_app, IH by (intros p Hp; apply H; lia).
  f_equal. cbn [filter]. rewrite (H n) by lia. cbn [Nat.add].
  destruct (g n); reflexivity.
Qed.

(** A code unit of a substring is the code unit of the text at the
    shifted index. *)
Lemma charIs_substring text a b p c :
  a <= b <= length text -> p < b - a ->
  charIs (substring text a b) p c = charIs text (a + p) c.
Proof.
  intros Hab Hp. unfold charIs.
  rewrite substring_slice by assumption.
  rewrite nth_error_firstn.
  destruct (p <? b - a) eqn:E; [|apply Nat.ltb_nlt in E; lia].
  now rewrite nth_error_skipn.
Qed.

Lemma charIs_substring_out text a b p c :
  a <= b <= length text -> b - a <= p ->
  charIs (substring text a b) p c = false.
Proof.
  intros Hab Hp. unfold charIs.
  destruct (nth_error (substring text a b) p) eqn:E; [|reflexivity].
  assert (p < length (substring text a b))
    by (apply nth_error_Some; congruence).
  rewrite substring_slice, length_firstn, length_skipn in H by assumption. lia.
Qed.

Lemma countBackslashes_substring text a b :
  a <= b <= length text ->
  forall p acc,
    p <= b - a ->
    countBackslashes (substring text a b) 0 p acc
    = countBackslashes text a (a + p) acc.
Proof.
  intros Hab. induction p as [|p IH]; intros acc Hp.
  - rewrite Nat.add_0_r. cbn [countBackslashes].
    destruct a as [|a]; [reflexivity|]. cbn [countBackslashes].
    replace (S a <=? a) with false by (symmetry; apply Nat.leb_gt; lia).
    reflexivity.
  - replace (a + S p) with (S (a + p)) by lia. cbn [countBackslashes].
    replace (a <=? a + p) with true by (symmetry; apply Nat.leb_le; lia).
    cbn [Nat.leb andb].
    rewrite charIs_substring by (assumption || lia).
    destruct (charIs text (a + p) BACKSLASH); [|reflexivity].
    apply IH. lia.
Qed.

(** Inside a string literal, the pairs the document scan accepts are the
    occurrences the locator reports on the content of the literal. *)
Lemma escapeIn_realEscapeAt text a b p :
  a <= b <= length text -> p + 1 < b - a ->
  escapeIn text a (a + p) = realEscapeAt (substring text a b) p.
Proof.
  intros Hab Hp. unfold escapeIn, realEscapeAt, isRealNewlineEscape.
  rewrite !charIs_substring by (assumption || lia).
  rewrite countBackslashes_substring by (assumption || lia).
  now replace (a + p + 1) with (a + (p + 1)) by lia.
Qed.

Lemma findNewlineEscapeSequences_substring text a b :
  a <= b <= length text ->
  filter (escapeIn text a) (seq a (b - 1 - a))
  = map (fun p => a + p) (findNewlineEscapeSequences (substring text a b)).
Proof.
  intros Hab.
  rewrite findNewlineEscapeSequences_filter.
  assert (Hlen : length (substring text a b) = b - a).
  { rewrite substring_slice, length_firstn, length_skipn by assumption. lia. }
  rewrite Hlen.
  rewrite (filter_map_seq _ (realEscapeAt (substring text a b))).
  2:{ intros p Hp. apply escapeIn_realEscapeAt; [assumption | lia]. }
  f_equal.
  destruct (b - a) as [|k] eqn:Hk.
  - replace (b - 1 - a) with 0 by lia. reflexivity.
  - replace (b - 1 - a) with k by lia.
    assert (Hlast : realEscapeAt (substring text a b) k = false).
    { unfold realEscapeAt.
      rewrite (charIs_substring_out text a b (k + 1)) by (assumption || lia).
      now rewrite andb_false_r. }
    rewrite seq_S, filter_app. cbn [filter Nat.add].
    rewrite Hlast. now rewrite app_nil_r.
Qed.

(** The occurrences of one span, as the locator sees them. *)
Lemma findDetailedNewlinePositionsInString_span document s e :
  let text := getText document in
  let r := spanAt document text s e in
  s < e < length text ->
  findDetailedNewlinePositionsInString document r =
  occurrencesFrom document r text (s + 1) e 0
    (map (fun p => s + 1 + p) (findNewlineEscapeSequences (content r))).
Proof.
  intros text r Hse.
  unfold findDetailedNewlinePositionsInString.
  subst r. cbn [start end_ spanAt content].
  rewrite !offsetAt_positionAt by (fold text; lia).
  replace (e + 1 - 1) with e by lia. fold text.
  rewrite (findDetailedNewlinePositionsInString_loop_filter document _ text
             (s + 1) e (e - (s + 1)) (s + 1) 0 [] eq_refl (le_n _)).
  2:{ unfold isRealNewlineEscape. replace (s + 1) with (S s) by lia.
      cbn [countBackslashes].
      replace (S s <=? s) with false by (symmetry; apply Nat.leb_gt; lia).
      reflexivity. }
  cbn [app]. f_equal. apply findNewlineEscapeSequences_substring. lia.
Qed.

Lemma findNewlinePositionsInString_span document s e :
  let text := getText document in
  let r := spanAt document text s e in
  s < e < length text ->
  findNewlinePositionsInString document r =
  map (fun p => mkNewlinePosition (positionAt document (s + 1 + p)) r)
    (findNewlineEscapeSequences (content r)).
Proof.
  intros text r Hse.
  unfold findNewlinePositionsInString.
  subst r. cbn [start end_ spanAt content].
  rewrite !offsetAt_positionAt by (fold text; lia).
  replace (e + 1 - 1) with e by lia. fold text.
  rewrite (findNewlinePositionsInString_loop_filter document _ text
             (s + 1) e (e - (s + 1)) (s + 1) [] eq_refl (le_n _)).
  2:{ unfold isRealNewlineEscape. replace (s + 1) with (S s) by lia.
      cbn [countBackslashes].
      replace (S s <=? s) with false by (symmetry; apply Nat.leb_gt; lia).
      reflexivity. }
  cbn [app]. rewrite findNewlineEscapeSequences_substring by lia.
  now rewrite map_map.
Qed.

(** *** positions *)

Lemma positionAt_from_S text :
  forall o l c,
    positionAt_from text (S o) l c =
    let q := positionAt_from text o l c in
    match nth_error text o with
    | Some ch =>
        if N.eqb ch LF then mkPosition (S (line q)) 0
        else mkPosition (line q) (S (character q))
    | None => q
    end.
Proof.
  induction text as [|ch rest IH]; intros o l c.
  - destruct o; reflexivity.
  - destruct o as [|o].
    + cbn. destruct (N.eqb ch LF); destruct rest; reflexivity.
    + change (positionAt_from (ch :: rest) (S (S o)) l c)
        with (if N.eqb ch LF then positionAt_from rest (S o) (S l) 0
              else positionAt_from rest (S o) l (S c)).
      change (positionAt_from (ch :: rest) (S o) l c)
        with (if N.eqb ch LF then positionAt_from rest o (S l) 0
              else positionAt_from rest o l (S c)).
      change (nth_error (ch :: rest) (S o)) with (nth_error rest o).
      destruct (N.eqb ch LF); apply IH.
Qed.

Lemma positionAt_next document o c :
  nth_error (getText document) o = Some c -> c <> LF ->
  positionAt document (o + 1) =
  mkPosition (line (positionAt document o)) (character (positionAt document o) + 1).
Proof.
  intros Hc Hne. unfold positionAt. replace (o + 1) with (S o) by lia.
  rewrite positionAt_from_S. cbv zeta. rewrite Hc.
  apply N.eqb_neq in Hne. rewrite Hne. f_equal. lia.
Qed.

(** *** the locator *)

Lemma realEscapeAt_true text p :
  realEscapeAt text p = true ->
  charIs text p BACKSLASH = true /\ charIs text (p + 1) CH_n = true.
Proof.
  unfold realEscapeAt. intros H.
  apply andb_prop in H. destruct H as [H _].
  now apply andb_prop in H.
Qed.

Lemma realEscapeAt_next text p :
  realEscapeAt text p = true -> realEscapeAt text (p + 1) = false.
Proof.
  intros H. apply realEscapeAt_true in H. destruct H as [_ H].
  unfold realEscapeAt. now rewrite (charIs_n_not_backslash _ _ H).
Qed.

Lemma filter_seq_spaced (f : nat -> bool) :
  (forall p, f p = true -> f (p + 1) = false) ->
  forall n i,
    StronglySorted (fun a b => a + 2 <= b) (filter f (seq i n))
    /\ Forall (fun p => i <= p) (filter f (seq i n)).
Proof.
  intros Hf. induction n as [|n IH]; intros i; cbn [seq filter].
  - split; constructor.
  - destruct (IH (S i)) as [IH1 IH2].
    destruct (f i) eqn:Hi.
    + split.
      * constructor; [exact IH1|].
        apply Forall_forall. intros p Hp.
        assert (S i <= p) by (rewrite Forall_forall in IH2; now apply IH2).
        apply filter_In in Hp. destruct Hp as [_ Hp].
        assert (p <> i + 1) by (intros ->; rewrite (Hf i Hi) in Hp; discriminate).
        lia.
      * constructor; [lia|].
        eapply Forall_impl; [|exact IH2]. cbn. intros; lia.
    + split; [exact IH1|].
      eapply Forall_impl; [|exact IH2]. cbn. intros; lia.
Qed.

Lemma spaced_count (N : nat) :
  forall l lo,
    StronglySorted (fun a b => a + 2 <= b) l ->
    Forall (fun p => lo <= p /\ p + 2 <= N) l ->
    l = [] \/ lo + 2 * length l <= N.
Proof.
  induction l as [|a l IH]; intros lo Hs Hall; [now left|right].
  inversion Hs as [|? ? Hs' Ha]; subst.
  inversion Hall as [|? ? [Hlo HN] Hall']; subst.
  destruct (IH (a + 2) Hs') as [-> | H].
  - apply Forall_forall. intros p Hp. rewrite Forall_forall in Ha, Hall'.
    split; [now apply Ha | now apply Hall'].
  - cbn [length]. lia.
  - cbn [length]. lia.
Qed.

Lemma findNewlineEscapeSequences_In text p :
  In p (findNewlineEscapeSequences text) ->
  p + 1 < length text
  /\ charIs text p BACKSLASH = true
  /\ charIs text (p + 1) CH_n = true.
Proof.
  intros Hp. rewrite findNewlineEscapeSequences_filter in Hp.
  apply filter_In in Hp. destruct Hp as [_ Hp].
  apply realEscapeAt_true in Hp. destruct Hp as [Hb Hn].
  repeat split; try assumption. now apply charIs_lt in Hn.
Qed.

(** X1: the positions the locator returns are backslash-n pairs of the
    text, listed in increasing order without overlap; a text of length
    [n] holds at most [n / 2] of them. *)
Theorem X1_locator_positions_ordered :
  forall text,
    let positions := findNewlineEscapeSequences text in
    (forall p, In p positions ->
               p + 1 < length text
               /\ charIs text p BACKSLASH = true
               /\ charIs text (p + 1) CH_n = true)
    /\ StronglySorted (fun a b => a + 2 <= b) positions
    /\ NoDup positions
    /\ 2 * countNewlinesInString text <= length text.
Proof.
  intros text positions.
  assert (Hin : forall p, In p positions ->
                  p + 1 < length text
                  /\ charIs text p BACKSLASH = true
                  /\ charIs text (p + 1) CH_n = true).
  { intros p Hp. now apply findNewlineEscapeSequences_In. }
  assert (Hsorted : StronglySorted (fun a b => a + 2 <= b) positions).
  { subst positions. rewrite findNewlineEscapeSequences_filter.
    apply filter_seq_spaced. apply realEscapeAt_next. }
  split; [exact Hin|]. split; [exact Hsorted|]. split.
  - clear Hin. induction Hsorted as [|a l Hl IH Ha]; constructor; [|exact IH].
    intros Hin. rewrite Forall_forall in Ha. specialize (Ha a Hin). lia.
  - unfold countNewlinesInString. fold positions.
    destruct (spaced_count (length text) positions 0 Hsorted) as [-> | H].
    + apply Forall_forall. intros p Hp. apply Hin in Hp. lia.
    + cbn. lia.
    + lia.
Qed.

Lemma findStringRanges_In document r :
  In r (findStringRanges document) ->
  JSON.parses (getText document) = true
  /\ exists s e,
       s < e < length (getText document)
       /\ charIs (getText document) s QUOTE = true
       /\ charIs (getText document) e QUOTE = true
       /\ r = spanAt document (getText document) s e.
Proof.
  intros Hin. split.
  - unfold findStringRanges, parseJsonSafely in Hin.
    destruct (JSON.parses (getText document)); [reflexivity | contradiction].
  - destruct (spansFrom_In _ _ _ _ _ (findStringRanges_spans document) Hin)
      as (s & e & _ & Hse & Hs & He & ->).
    exists s, e. auto.
Qed.

Lemma span_offsets document s e :
  s < e < length (getText document) ->
  let r := spanAt document (getText document) s e in
  offsetAt document (start r) = s /\ offsetAt document (end_ r) = e + 1
  /\ length (content r) = e - s - 1.
Proof.
  intros Hse r. subst r. cbn [spanAt start end_ content].
  rewrite !offsetAt_positionAt by lia.
  rewrite substring_slice, length_firstn, length_skipn by lia.
  repeat split; lia.
Qed.

Lemma occurrencesFrom_map document range text a b
    {A} (g : DetailedNewlinePosition -> A) (h : nat -> A) :
  (forall idx i, g (mkDetailedNewlinePosition
                      (positionAt document i) (positionAt document (i + 2))
                      range i (i + 2) idx
                      (substring text a i) (substring text (i + 2) b)) = h i) ->
  forall l idx,
    map g (occurrencesFrom document range text a b idx l) = map h l.
Proof.
  intros H. induction l as [|i l IH]; intros idx; cbn; [reflexivity|].
  now rewrite H, IH.
Qed.

Lemma occurrencesFrom_index document range text a b :
  forall l idx,
    map indexInString (occurrencesFrom document range text a b idx l)
    = seq idx (length l).
Proof.
  induction l as [|i l IH]; intros idx; cbn; [reflexivity|].
  now rewrite IH.
Qed.

Lemma occurrencesFrom_length document range text a b :
  forall l idx,
    length (occurrencesFrom document range text a b idx l) = length l.
Proof. induction l as [|i l IH]; intros idx; cbn; [reflexivity | now rewrite IH]. Qed.

Lemma occurrencesFrom_In document range text a b np :
  forall l idx,
    In np (occurrencesFrom document range text a b idx l) ->
    exists i k,
      In i l /\
      np = mkDetailedNewlinePosition
             (positionAt document i) (positionAt document (i + 2))
             range i (i + 2) k
             (substring text a i) (substring text (i + 2) b).
Proof.
  induction l as [|i l IH]; intros idx Hin; [contradiction|].
  destruct Hin as [<- | Hin].
  - exists i, idx. split; [now left | reflexivity].
  - destruct (IH _ Hin) as (i' & k & Hi' & ->).
    exists i', k. split; [now right | reflexivity].
Qed.

(** X2: for every span of a document, the occurrences listed for the span
    are the positions the locator reports on the content of the span,
    shifted to the document: same number, same order, numbered from 0;
    the span is flagged exactly when it has an occurrence. *)
Theorem X2_occurrences_of_span_are_locator_positions :
  forall document r,
    In r (findStringRanges document) ->
    let occurrences := findDetailedNewlinePositionsInString document r in
    map offset occurrences
    = map (fun p => offsetAt document (start r) + 1 + p)
        (findNewlineEscapeSequences (content r))
    /\ map indexInString occurrences
       = seq 0 (countNewlinesInString (content r))
    /\ length occurrences = countNewlinesInString (content r)
    /\ Forall (fun np => stringRange np = r) occurrences
    /\ (hasNewlines r = true <-> occurrences <> []).
Proof.
  intros document r Hin occurrences.
  destruct (findStringRanges_In document r Hin)
    as (_ & s & e & Hse & _ & _ & ->).
  subst occurrences.
  rewrite findDetailedNewlinePositionsInString_span by exact Hse.
  destruct (span_offsets document s e Hse) as (Hstart & _ & _).
  rewrite Hstart.
  set (r := spanAt document (getText document) s e).
  split; [|split; [|split; [|split]]].
  - rewrite (occurrencesFrom_map _ _ _ _ _ offset (fun i => i))
      by reflexivity.
    now rewrite map_id.
  - rewrite occurrencesFrom_index, length_map. reflexivity.
  - rewrite occurrencesFrom_length, length_map. reflexivity.
  - apply Forall_forall. intros np Hnp.
    apply occurrencesFrom_In in Hnp. destruct Hnp as (i & k & _ & ->).
    reflexivity.
  - subst r. cbn [spanAt hasNewlines content].
    rewrite containsNewlines_spec.
    destruct (findNewlineEscapeSequences
                (substring (getText document) (s + 1) e)); cbn;
      split; congruence.
Qed.

Lemma X2_occurrences_of_span_are_locator_positions_witness :
  let r := mkStringRange (mkPosition 0 6) (mkPosition 0 12) (str "x\ny") true in
  map offset (findDetailedNewlinePositionsInString document_D r) = [8]
  /\ findNewlineEscapeSequences (content r) = [1].
Proof.
  intros r.
  assert (Hin : In r (findStringRanges document_D))
    by (vm_compute; right; left; reflexivity).
  destruct (X2_occurrences_of_span_are_locator_positions document_D r Hin)
    as (H & _).
  split; [rewrite H|]; vm_compute; reflexivity.
Defined.

Lemma flat_map_map_ext {A B C D}
    (f : A -> list B) (g : A -> list C) (p : B -> D) (q : C -> D) :
  forall l,
    (forall x, In x l -> map p (f x) = map q (g x)) ->
    map p (flat_map f l) = map q (flat_map g l).
Proof.
  induction l as [|x l IH]; intros H; [reflexivity|].
  cbn [flat_map]. rewrite !map_app, (H x) by now left.
  rewrite IH by (intros y Hy; apply H; now right). reflexivity.
Qed.

(** X3: the two listings of a document's occurrences agree: the simple one
    reports the positions of the detailed one, in the same order and with
    the same spans. *)
Theorem X3_occurrence_listings_agree :
  forall document,
    map (fun np => (np_position np, np_stringRange np))
      (extractNewlinePositions document)
    = map (fun np => (position np, stringRange np))
        (getDetailedNewlinePositions document).
Proof.
  intros document.
  unfold extractNewlinePositions, getDetailedNewlinePositions.
  destruct (negb (isValid (parseJsonSafely document))); [reflexivity|].
  apply flat_map_map_ext. intros r Hin.
  destruct (hasNewlines r); [|reflexivity].
  destruct (findStringRanges_In document r Hin)
    as (_ & s & e & Hse & _ & _ & ->).
  rewrite findNewlinePositionsInString_span,
    findDetailedNewlinePositionsInString_span by exact Hse.
  rewrite map_map. cbn [np_position np_stringRange].
  rewrite (occurrencesFrom_map _ _ _ _ _
             (fun np => (position np, stringRange np))
             (fun i => (positionAt document i,
                        spanAt document (getText document) s e)))
    by reflexivity.
  now rewrite map_map.
Qed.

(** What is known of an occurrence of a document. *)
Lemma getDetailedNewlinePositions_In document np :
  In np (getDetailedNewlinePositions document) ->
  exists s e p k,
    let text := getText document in
    let r := spanAt document text s e in
    s < e < length text
    /\ In r (findStringRanges document) /\ hasNewlines r = true
    /\ In p (findNewlineEscapeSequences (content r))
    /\ p + 1 < e - s - 1
    /\ charIs text (s + 1 + p) BACKSLASH = true
    /\ charIs text (s + 1 + p + 1) CH_n = true
    /\ np = mkDetailedNewlinePosition
              (positionAt document (s + 1 + p))
              (positionAt document (s + 1 + p + 2))
              r (s + 1 + p) (s + 1 + p + 2) k
              (substring text (s + 1) (s + 1 + p))
              (substring text (s + 1 + p + 2) e).
Proof.
  unfold getDetailedNewlinePositions.
  destruct (negb (isValid (parseJsonSafely document))); [contradiction|].
  intros Hin. apply in_flat_map in Hin. destruct Hin as (r & Hr & Hnp).
  destruct (hasNewlines r) eqn:Hhas; [|contradiction].
  destruct (findStringRanges_In document r Hr)
    as (_ & s & e & Hse & _ & _ & ->).
  rewrite findDetailedNewlinePositionsInString_span in Hnp by exact Hse.
  apply occurrencesFrom_In in Hnp. destruct Hnp as (i & k & Hi & ->).
  apply in_map_iff in Hi. destruct Hi as (p & <- & Hp).
  exists s, e, p, k. cbv zeta.
  destruct (findNewlineEscapeSequences_In _ p Hp) as (Hlen & Hb & Hn).
  destruct (span_offsets document s e Hse) as (_ & _ & Hclen).
  rewrite Hclen in Hlen.
  cbn [spanAt content] in Hb, Hn.
  rewrite charIs_substring in Hb, Hn by lia.
  replace (s + 1 + (p + 1)) with (s + 1 + p + 1) in Hn by lia.
  repeat split; try assumption; lia.
Qed.

Lemma substring_app text a m b :
  a <= m <= b -> b <= length text ->
  substring text a m ++ substring text m b = substring text a b.
Proof.
  intros Ham Hb. rewrite !substring_slice by lia.
  set (T := skipn a text).
  assert (HT : length T = length text - a) by (subst T; apply length_skipn).
  replace (skipn m text) with (skipn (m - a) T)
    by (subst T; rewrite skipn_skipn; f_equal; lia).
  rewrite <- (firstn_skipn (m - a) T) at 3.
  replace (b - a) with (length (firstn (m - a) T) + (b - m))
    by (rewrite length_firstn; lia).
  now rewrite firstn_app_2.
Qed.

Lemma substring_one text i c :
  nth_error text i = Some c -> substring text i (i + 1) = [c].
Proof.
  intros Hc.
  assert (i < length text) by (apply nth_error_Some; congruence).
  rewrite substring_slice by lia. replace (i + 1 - i) with 1 by lia.
  revert i Hc H. induction text as [|d text IH]; intros i Hc Hi; [cbn in Hi; lia|].
  destruct i as [|i]; cbn in *; [congruence|].
  apply IH; [assumption | lia].
Qed.

(** X4: an occurrence of a document lies at a backslash-n pair strictly
    between the quotes of a flagged span, and its two positions are on
    one line, two columns apart. *)
Theorem X4_occurrence_lies_inside_its_span :
  forall document np,
    In np (getDetailedNewlinePositions document) ->
    let text := getText document in
    let r := stringRange np in
    In r (findStringRanges document)
    /\ hasNewlines r = true
    /\ charIs text (offset np) BACKSLASH = true
    /\ charIs text (offset np + 1) CH_n = true
    /\ endOffset np = offset np + 2
    /\ position np = positionAt document (offset np)
    /\ endPosition np = positionAt document (endOffset np)
    /\ offsetAt document (start r) < offset np
    /\ endOffset np < offsetAt document (end_ r)
    /\ line (endPosition np) = line (position np)
    /\ character (endPosition np) = character (position np) + 2.
Proof.
  intros document np Hin text r.
  destruct (getDetailedNewlinePositions_In document np Hin)
    as (s & e & p & k & Hse & Hr & Hhas & Hp & Hlen & Hb & Hn & ->).
  subst r. cbn [stringRange offset endOffset position endPosition].
  destruct (span_offsets document s e Hse) as (Hstart & Hend & _).
  rewrite Hstart, Hend.
  apply charIs_true in Hb, Hn.
  assert (H1 : positionAt document (s + 1 + p + 1) =
               mkPosition (line (positionAt document (s + 1 + p)))
                 (character (positionAt document (s + 1 + p)) + 1))
    by (apply (positionAt_next document _ _ Hb); discriminate).
  assert (H2 : positionAt document (s + 1 + p + 2) =
               mkPosition (line (positionAt document (s + 1 + p)))
                 (character (positionAt document (s + 1 + p)) + 2)).
  { replace (s + 1 + p + 2) with (s + 1 + p + 1 + 1) by lia.
    rewrite (positionAt_next document _ _ Hn) by discriminate.
    rewrite H1. cbn [line character]. f_equal. lia. }
  rewrite H2. cbn [line character].
  apply charIs_true in Hb, Hn.
  repeat split; try assumption; try reflexivity; lia.
Qed.

Lemma X4_occurrence_lies_inside_its_span_witness :
  let np :=
    mkDetailedNewlinePosition (mkPosition 0 8) (mkPosition 0 10)
      (mkStringRange (mkPosition 0 6) (mkPosition 0 12) (str "x\ny") true)
      8 10 0 (str "x") (str "y") in
  charIs (getText document_D) (offset np) BACKSLASH = true
  /\ offsetAt document_D (start (stringRange np)) < offset np
  /\ endOffset np < offsetAt document_D (end_ (stringRange np)).
Proof.
  intros np.
  assert (Hin : In np (getDetailedNewlinePositions document_D))
    by (vm_compute; left; reflexivity).
  destruct (X4_occurrence_lies_inside_its_span document_D np Hin)
    as (_ & _ & H1 & _ & _ & _ & _ & H2 & H3 & _).
  exact (conj H1 (conj H2 H3)).
Defined.

(** X5: the texts kept with an occurrence split the content of its span:
    the text before, the two code units of the escape, the text after. *)
Theorem X5_occurrence_splits_content :
  forall document np,
    In np (getDetailedNewlinePositions document) ->
    beforeText np ++ [BACKSLASH; CH_n] ++ afterText np
    = content (stringRange np)
    /\ offsetAt document (start (stringRange np)) + 1 + length (beforeText np)
       = offset np
    /\ offset np + 2 + length (afterText np) + 1
       = offsetAt document (end_ (stringRange np)).
Proof.
  intros document np Hin.
  destruct (getDetailedNewlinePositions_In document np Hin)
    as (s & e & p & k & Hse & Hr & Hhas & Hp & Hlen & Hb & Hn & ->).
  cbn [stringRange offset endOffset beforeText afterText].
  destruct (span_offsets document s e Hse) as (Hstart & Hend & _).
  rewrite Hstart, Hend. cbn [spanAt content].
  apply charIs_true in Hb, Hn.
  split; [|split].
  - rewrite <- (substring_app (getText document) (s + 1) (s + 1 + p) e) by lia.
    f_equal.
    rewrite <- (substring_app (getText document) (s + 1 + p) (s + 1 + p + 1) e)
      by lia.
    rewrite (substring_one _ _ _ Hb). cbn [app]. f_equal.
    rewrite <- (substring_app (getText document) (s + 1 + p + 1) (s + 1 + p + 2) e)
      by lia.
    replace (s + 1 + p + 2) with (s + 1 + p + 1 + 1) by lia.
    now rewrite (substring_one _ _ _ Hn).
  - rewrite substring_slice, length_firstn, length_skipn by lia. lia.
  - rewrite substring_slice, length_firstn, length_skipn by lia. lia.
Qed.

Lemma X5_occurrence_splits_content_witness :
  let np :=
    mkDetailedNewlinePosition (mkPosition 0 8) (mkPosition 0 10)
      (mkStringRange (mkPosition 0 6) (mkPosition 0 12) (str "x\ny") true)
      8 10 0 (str "x") (str "y") in
  beforeText np ++ [BACKSLASH; CH_n] ++ afterText np
  = content (stringRange np).
Proof.
  intros np.
  assert (Hin : In np (getDetailedNewlinePositions document_D))
    by (vm_compute; left; reflexivity).
  exact (proj1 (X5_occurrence_splits_content document_D np Hin)).
Defined.

(** ** The decorations of a document *)

Lemma applyDecorations_run document w editor :
  isEnabled w = true ->
  activeTextEditor w = Some editor ->
  sameDocument (editor_document editor) document = true ->
  exec (applyDecorations document) w =
  mkWorld (isProcessingEdit w) (documentStates w)
    (map (createDecorationForNewline document)
       (getDetailedNewlinePositions document))
    (isEnabled w) (activeTextEditor w) (appliedEdits w).
Proof.
  destruct w as [pe ds cd en ae edits]. cbn [isEnabled activeTextEditor].
  intros -> -> Hs. unfold applyDecorations, exec, bind, get.
  cbv beta iota. cbn [isEnabled activeTextEditor negb]. now rewrite Hs.
Qed.

Lemma applyDecorations_disabled document w :
  isEnabled w = false -> applyDecorations document w = (tt, w).
Proof.
  destruct w as [pe ds cd en ae edits]. cbn [isEnabled]. intros ->.
  reflexivity.
Qed.

(** X6: once the decorations of the document shown in the active editor
    have been applied, there is one decoration for each occurrence of the
    document, in the same order; each is active, renders a line feed and
    covers the two code units of its escape on one line. *)
Theorem X6_decorations_mirror_occurrences :
  forall document w editor,
    isEnabled w = true ->
    activeTextEditor w = Some editor ->
    sameDocument (editor_document editor) document = true ->
    let w' := exec (applyDecorations document) w in
    map range (currentDecorations w')
    = map (fun np => mkRange (position np) (endPosition np))
        (getDetailedNewlinePositions document)
    /\ Forall (fun d =>
                 isActive d = true /\ renderText d = [LF]
                 /\ line (range_end (range d)) = line (range_start (range d))
                 /\ character (range_end (range d))
                    = character (range_start (range d)) + 2)
         (currentDecorations w')
    /\ eval getActiveDecorationCount w'
       = length (getDetailedNewlinePositions document).
Proof.
  intros document w editor He Ha Hs w'. subst w'.
  rewrite (applyDecorations_run document w editor He Ha Hs).
  cbn [currentDecorations].
  assert (Hnew : forall np,
             In np (getDetailedNewlinePositions document) ->
             newRange (position np) (endPosition np)
             = mkRange (position np) (endPosition np)
             /\ line (endPosition np) = line (position np)
             /\ character (endPosition np) = character (position np) + 2).
  { intros np Hnp.
    destruct (getDetailedNewlinePositions_In document np Hnp)
      as (s & e & p & k & Hse & _ & _ & _ & _ & Hb & Hn & ->).
    cbn [position endPosition].
    apply charIs_true in Hb, Hn.
    assert (H1 := positionAt_next document _ _ Hb ltac:(discriminate)).
    assert (H2 := positionAt_next document _ _ Hn ltac:(discriminate)).
    replace (s + 1 + p + 1 + 1) with (s + 1 + p + 2) in H2 by lia.
    rewrite H1 in H2. cbn [line character] in H2.
    rewrite H2. cbn [line character].
    split; [|split; [reflexivity | lia]].
    unfold newRange, isBefore. cbn [line character].
    rewrite Nat.ltb_irrefl, Nat.eqb_refl. cbn [orb andb].
    replace (_ <? _) with false by (symmetry; apply Nat.ltb_ge; lia).
    reflexivity. }
  split; [|split].
  - rewrite map_map. apply map_ext_in. intros np Hnp.
    unfold createDecorationForNewline. cbn [range]. now apply Hnew.
  - apply Forall_forall. intros d Hd.
    apply in_map_iff in Hd. destruct Hd as (np & <- & Hnp).
    unfold createDecorationForNewline. cbn [range isActive renderText].
    destruct (Hnew np Hnp) as (-> & Hl & Hc). cbn [range_start range_end].
    auto.
  - unfold getActiveDecorationCount, eval, bind, get, ret.
    cbn [fst currentDecorations].
    rewrite <- (length_map (createDecorationForNewline document)).
    f_equal. apply forallb_filter_id.
    apply forallb_forall. intros d Hd.
    apply in_map_iff in Hd. now destruct Hd as (np & <- & _).
Qed.

Lemma X6_decorations_mirror_occurrences_witness :
  let w := mkWorld false [] [] true
             (Some (mkTextEditor document_D (mkPosition 0 0, mkPosition 0 0)))
             [] in
  map range (currentDecorations (exec (applyDecorations document_D) w))
  = [mkRange (mkPosition 0 8) (mkPosition 0 10)].
Proof.
  intros w.
  destruct (X6_decorations_mirror_occurrences document_D w
              (mkTextEditor document_D (mkPosition 0 0, mkPosition 0 0))
              eq_refl eq_refl eq_refl) as (H & _).
  rewrite H. vm_compute. reflexivity.
Defined.

(** ** The effect of a notification *)

Lemma World_eta w :
  mkWorld (isProcessingEdit w) (documentStates w) (currentDecorations w)
    (isEnabled w) (activeTextEditor w) (appliedEdits w) = w.
Proof. destruct w; reflexivity. Qed.

Lemma counterEditDue_decorations document w1 w2 change :
  currentDecorations w1 = currentDecorations w2 ->
  counterEditDue document w1 change = counterEditDue document w2 change.
Proof.
  intros H. unfold counterEditDue, getDecorationsInRange, eval, bind, get, ret.
  cbn [fst]. now rewrite H.
Qed.

Lemma processContentChange_exact document change w :
  exec (processContentChange document change) w =
  if counterEditDue document w change then
    mkWorld true (documentStates w) (currentDecorations w) (isEnabled w)
      (activeTextEditor w) (appliedEdits w ++ [counterEditOf document change])
  else w.
Proof.
  unfold counterEditDue.
  destruct (0 <? length (eval (getDecorationsInRange (change_range change)) w))
    eqn:Hdec.
  2:{ rewrite processContentChange_spec, Hdec. reflexivity. }
  destruct (getStringRangeAtPosition document
              (range_start (change_range change))) as [sr|] eqn:Hsr.
  2:{ rewrite processContentChange_spec, Hdec, Hsr. reflexivity. }
  destruct (includes (change_text change) [LF]) eqn:HLF.
  2:{ rewrite processContentChange_spec, Hdec, Hsr, HLF. reflexivity. }
  destruct (includes (change_text change) [BACKSLASH; CH_n]) eqn:Hesc.
  { rewrite processContentChange_spec, Hdec, Hsr, HLF, Hesc. reflexivity. }
  cbn [andb negb].
  apply (processContentChange_counter_edit document change w sr);
    try assumption.
  intros Hnil. rewrite Hnil in Hdec. discriminate.
Qed.

(** What a run of the loop over the changes does to the world. *)
Lemma forEach_processContentChange_exact document :
  forall changes w,
    let due := filter (counterEditDue document w) changes in
    exec (forEach changes (processContentChange document)) w =
    mkWorld (isProcessingEdit w || (0 <? length due))
      (documentStates w) (currentDecorations w) (isEnabled w)
      (activeTextEditor w)
      (appliedEdits w ++ map (counterEditOf document) due).
Proof.
  induction changes as [|change changes IH]; intros w; cbv zeta.
  - cbn. rewrite orb_false_r, app_nil_r. symmetry. apply World_eta.
  - rewrite exec_forEach_cons, IH. cbv zeta.
    rewrite processContentChange_exact.
    cbn [filter].
    destruct (counterEditDue document w change) eqn:Hdue.
    + rewrite (filter_ext (counterEditDue document _)
                 (counterEditDue document w))
        by (intros c; now apply counterEditDue_decorations).
      cbn [isProcessingEdit documentStates currentDecorations isEnabled
           activeTextEditor appliedEdits map length orb].
      rewrite <- app_assoc. cbn [app].
      rewrite orb_true_r. reflexivity.
    + reflexivity.
Qed.

(** The world after a notification that is processed. *)
Lemma onDidChangeTextDocument_exact event w :
  isProcessingEdit w = false ->
  isJsonDocument (event_document event) = true ->
  JSON.parses (getText (event_document event)) = true ->
  let document := event_document event in
  let due := filter (counterEditDue document w) (contentChanges event) in
  exists ds decorations,
    exec (onDidChangeTextDocument event) w =
    mkWorld (0 <? length due) ds decorations (isEnabled w)
      (activeTextEditor w)
      (appliedEdits w ++ map (counterEditOf document) due)
    /\ (isEnabled w = false -> decorations = currentDecorations w).
Proof.
  intros Hflag Hjson Hvalid document due.
  rewrite (onDidChangeTextDocument_run event w Hflag Hjson Hvalid).
  fold document.
  destruct (ensureDocumentState_spec document w) as [ds1 H1].
  unfold exec at 4. rewrite H1. cbn [snd].
  rewrite forEach_processContentChange_exact. cbv zeta.
  rewrite (filter_ext (counterEditDue document _) (counterEditDue document w))
    by (intros c; now apply counterEditDue_decorations).
  fold due.
  cbn [isProcessingEdit documentStates currentDecorations isEnabled
       activeTextEditor appliedEdits].
  rewrite Hflag. cbn [orb].
  match goal with
  | |- context [exec (updateDocumentState document) ?w1] =>
      destruct (updateDocumentState_spec document w1) as [ds2 H2];
      unfold exec at 2; rewrite H2; cbn [snd]
  end.
  cbn [isProcessingEdit documentStates currentDecorations isEnabled
       activeTextEditor appliedEdits].
  unfold updateDecorations, exec, bind, get.
  cbv beta iota. cbn [isEnabled].
  destruct (isEnabled w) eqn:Hen; cbn [negb].
  - match goal with
    | |- context [applyDecorations ?d ?w1] =>
        destruct (applyDecorations_spec d w1) as [decs H3]; rewrite H3
    end.
    cbn [snd isProcessingEdit documentStates currentDecorations isEnabled
         activeTextEditor appliedEdits].
    exists ds2, decs. split; [reflexivity | discriminate].
  - exists ds2, (currentDecorations w). split; [reflexivity | reflexivity].
Qed.

(** X7: the edits a notification makes the engine submit are exactly, in
    the order of the changes, the counter-edits of the changes that touch
    an active decoration, start inside a string span, insert a line feed
    and hold no backslash-n pair: each replaces the range of its change
    by its text with the line feeds escaped, so no submitted text holds a
    line feed. The flag is set exactly when an edit is submitted; the
    enabled switch, the editor and the edits submitted earlier are kept. *)
Theorem X7_submitted_edits_exactly :
  forall event w,
    let document := event_document event in
    let w' := exec (onDidChangeTextDocument event) w in
    let due :=
      if isProcessingEdit w || negb (isJsonDocument document)
         || negb (JSON.parses (getText document))
      then []
      else filter (counterEditDue document w) (contentChanges event) in
    appliedEdits w' = appliedEdits w ++ map (counterEditOf document) due
    /\ isProcessingEdit w' = isProcessingEdit w || (0 <? length due)
    /\ isEnabled w' = isEnabled w
    /\ activeTextEditor w' = activeTextEditor w
    /\ Forall (fun edit =>
                 edit_uri edit = uri document
                 /\ includes (edit_newText edit) [LF] = false)
         (map (counterEditOf document) due).
Proof.
  intros event w document w' due.
  assert (Hsafe : Forall (fun edit =>
                    edit_uri edit = uri document
                    /\ includes (edit_newText edit) [LF] = false)
                    (map (counterEditOf document) due)).
  { apply Forall_forall. intros edit Hin.
    apply in_map_iff in Hin. destruct Hin as (change & <- & _).
    split; [reflexivity | apply replace_LF_by_escape_no_LF]. }
  destruct (isProcessingEdit w) eqn:Hflag.
  { subst w' due. unfold exec.
    rewrite onDidChangeTextDocument_skip by (left; exact Hflag).
    cbn [snd orb map length]. rewrite app_nil_r, Hflag. auto. }
  destruct (isJsonDocument document) eqn:Hjson.
  2:{ subst w' due. unfold exec.
      rewrite onDidChangeTextDocument_skip by (right; left; exact Hjson).
      cbn [snd orb negb map length]. rewrite app_nil_r, Hflag. auto. }
  destruct (JSON.parses (getText document)) eqn:Hvalid.
  2:{ subst w' due. unfold exec.
      rewrite onDidChangeTextDocument_skip by (right; right; exact Hvalid).
      cbn [snd orb negb map length]. rewrite app_nil_r, Hflag. auto. }
  cbn [orb negb] in due, Hsafe.
  destruct (onDidChangeTextDocument_exact event w Hflag Hjson Hvalid)
    as (ds & decorations & Hw' & _).
  subst w'. rewrite Hw'.
  cbn [appliedEdits isProcessingEdit isEnabled activeTextEditor orb].
  auto.
Qed.

(** X8: that no decoration is kept while rendering is disabled is
    preserved by every operation of the manager and by the change handler
    of the synchronizer; disabling clears the decorations. *)
Theorem X8_no_decoration_while_disabled :
  forall w document event enabled,
    noDecorationWhileDisabled w ->
    noDecorationWhileDisabled (exec (applyDecorations document) w)
    /\ noDecorationWhileDisabled (exec (updateDecorations event) w)
    /\ noDecorationWhileDisabled (exec clearDecorations w)
    /\ noDecorationWhileDisabled (exec (setEnabled enabled) w)
    /\ noDecorationWhileDisabled (exec refresh w)
    /\ noDecorationWhileDisabled (exec (onDidChangeTextDocument event) w)
    /\ isEnabled (exec (setEnabled false) w) = false
    /\ currentDecorations (exec (setEnabled false) w) = [].
Proof.
  intros w document event enabled Hinv.
  assert (Happly : forall d w0,
             noDecorationWhileDisabled w0 ->
             noDecorationWhileDisabled (exec (applyDecorations d) w0)).
  { intros d w0 H0. unfold noDecorationWhileDisabled in *.
    destruct (isEnabled w0) eqn:Hen.
    - destruct (applyDecorations_spec d w0) as [decs Hd].
      unfold exec. rewrite Hd. cbn [snd isEnabled]. congruence.
    - unfold exec. rewrite applyDecorations_disabled by exact Hen.
      cbn [snd]. intros _. now apply H0. }
  assert (Hrefresh : forall w0,
             noDecorationWhileDisabled w0 ->
             noDecorationWhileDisabled (exec refresh w0)).
  { intros w0 H0. unfold refresh, exec, bind, get. cbv beta iota.
    destruct (activeTextEditor w0) as [editor|]; [|exact H0].
    destruct (isJsonDocument (editor_document editor)); [|exact H0].
    now apply Happly. }
  split; [now apply Happly|]. split.
  { unfold updateDecorations, exec, bind, get. cbv beta iota.
    destruct (negb (isEnabled w)); [exact Hinv | now apply Happly]. }
  split; [intros _; reflexivity|]. split.
  { destruct enabled.
    - unfold setEnabled, exec, bind, modify, get. cbv beta iota. cbn [negb].
      cbn [activeTextEditor].
      destruct (activeTextEditor w) as [editor|];
        [|intros H; discriminate H].
      destruct (isJsonDocument (editor_document editor));
        [|intros H; discriminate H].
      apply (Happly (editor_document editor)). intros H; discriminate H.
    - intros _. reflexivity. }
  split; [now apply Hrefresh|]. split; [|split; reflexivity].
  destruct (isProcessingEdit w) eqn:Hflag.
  { unfold exec. rewrite onDidChangeTextDocument_skip by (left; exact Hflag).
    exact Hinv. }
  destruct (isJsonDocument (event_document event)) eqn:Hjson.
  2:{ unfold exec.
      rewrite onDidChangeTextDocument_skip by (right; left; exact Hjson).
      exact Hinv. }
  destruct (JSON.parses (getText (event_document event))) eqn:Hvalid.
  2:{ unfold exec.
      rewrite onDidChangeTextDocument_skip by (right; right; exact Hvalid).
      exact Hinv. }
  destruct (onDidChangeTextDocument_exact event w Hflag Hjson Hvalid)
    as (ds & decorations & Hw' & Hdecs).
  rewrite Hw'. unfold noDecorationWhileDisabled in *. cbn [isEnabled currentDecorations].
  intros Hen. rewrite (Hdecs Hen). now apply Hinv.
Qed.

Lemma X8_no_decoration_while_disabled_witness :
  noDecorationWhileDisabled
    (exec (setEnabled false) (decoratedWorld document_D))
  /\ currentDecorations (exec (setEnabled false) (decoratedWorld document_D))
     = [].
Proof.
  assert (Hinv : noDecorationWhileDisabled (decoratedWorld document_D))
    by (intros H; vm_compute in H; discriminate H).
  destruct (X8_no_decoration_while_disabled (decoratedWorld document_D)
              document_D (mkTextDocumentChangeEvent document_D []) false Hinv)
    as (_ & _ & _ & H1 & _ & _ & _ & H2).
  exact (conj H1 H2).
Defined.

(** ** Looking decorations up; the state kept for a document *)

Lemma find_hd_filter {A} (f : A -> bool) (l : list A) :
  find f l = hd_error (filter f l).
Proof.
  induction l as [|x l IH]; [reflexivity|]. cbn.
  destruct (f x); [reflexivity | exact IH].
Qed.

(** An empty range at [p] meets a range exactly when the range contains
    [p], its two ends included. *)
Lemma intersection_empty_contains p r :
  match intersection (mkRange p p) r with
  | Some _ => true
  | None => false
  end = contains r p.
Proof.
  destruct r as [a b].
  unfold intersection, contains, isAfter, Position_max, Position_min.
  cbn [range_start range_end].
  destruct (isBefore a p) eqn:Hap, (isBefore p b) eqn:Hpb,
    (isBefore p a) eqn:Hpa, (isBefore b p) eqn:Hbp;
    cbn [negb andb];
    try match goal with
        | |- context [if isBefore ?e ?s then _ else _] =>
            destruct (isBefore e s) eqn:Hes
        end;
    try reflexivity; exfalso;
    repeat match goal with
           | H : isBefore _ _ = true |- _ => apply isBefore_spec in H
           | H : isBefore _ _ = false |- _ => apply isBefore_false in H
           end;
    lia.
Qed.

(** X9: looking a decoration up at a position gives the first of the
    decorations that the empty range at the position touches: a position
    at either end of a decoration is on it. *)
Theorem X9_decoration_lookup_first_touching :
  forall p w,
    eval (getDecorationAtPosition p) w
    = hd_error (eval (getDecorationsInRange (newRange p p)) w)
    /\ (forall d,
          eval (getDecorationAtPosition p) w = Some d ->
          In d (currentDecorations w) /\ isActive d = true
          /\ isBefore p (range_start (range d)) = false
          /\ isBefore (range_end (range d)) p = false)
    /\ (eval (getDecorationAtPosition p) w = None <->
        forall d, In d (currentDecorations w) -> isActive d = true ->
                  contains (range d) p = false).
Proof.
  intros p w.
  unfold getDecorationAtPosition, getDecorationsInRange, eval, bind, get, ret.
  cbn [fst].
  assert (Hnew : newRange p p = mkRange p p).
  { unfold newRange, isBefore. rewrite !Nat.ltb_irrefl, andb_false_r. reflexivity. }
  rewrite Hnew. split; [|split].
  - rewrite find_hd_filter. f_equal. apply filter_ext. intros d.
    now rewrite intersection_empty_contains.
  - intros d Hd. apply find_some in Hd. destruct Hd as [Hin Hd].
    apply andb_prop in Hd. destruct Hd as [Ha Hc].
    unfold contains in Hc. apply andb_prop in Hc. destruct Hc as [H1 H2].
    apply negb_true_iff in H1, H2. auto.
  - split.
    + intros Hnone d Hin Ha.
      pose proof (find_none _ _ Hnone d Hin) as H. cbv beta in H.
      now rewrite Ha in H.
    + intros H.
      destruct (find _ (currentDecorations w)) as [d|] eqn:Hf; [|reflexivity].
      apply find_some in Hf. destruct Hf as [Hin Hd].
      apply andb_prop in Hd. destruct Hd as [Ha Hc].
      rewrite (H d Hin Ha) in Hc. discriminate.
Qed.

(** *** The state kept for a document *)

Lemma Map_get_set_same m k v : Map_get (Map_set m k v) k = Some v.
Proof.
  induction m as [|[k' v'] m IH]; cbn.
  - now rewrite String.eqb_refl.
  - destruct (String.eqb k' k) eqn:E; cbn.
    + now rewrite String.eqb_refl.
    + now rewrite E.
Qed.

Lemma Map_get_set_other m k v k' :
  k' <> k -> Map_get (Map_set m k v) k' = Map_get m k'.
Proof.
  intros Hne. induction m as [|[k0 v0] m IH]; cbn.
  - destruct (String.eqb_spec k k'); [congruence | reflexivity].
  - destruct (String.eqb_spec k0 k) as [->|Hk]; cbn.
    + destruct (String.eqb_spec k k'); [congruence | reflexivity].
    + destruct (String.eqb k0 k'); [reflexivity | exact IH].
Qed.

Lemma Map_get_delete_same m k : Map_get (Map_delete m k) k = None.
Proof.
  induction m as [|[k' v'] m IH]; cbn; [reflexivity|].
  destruct (String.eqb k' k) eqn:E; cbn; [exact IH|].
  now rewrite E.
Qed.

Lemma Map_get_delete_other m k k' :
  k' <> k -> Map_get (Map_delete m k) k' = Map_get m k'.
Proof.
  intros Hne. induction m as [|[k0 v0] m IH]; cbn; [reflexivity|].
  destruct (String.eqb_spec k0 k) as [->|Hk]; cbn.
  - destruct (String.eqb_spec k k'); [congruence | exact IH].
  - destruct (String.eqb k0 k'); [reflexivity | exact IH].
Qed.

Lemma ensureDocumentState_exact document w :
  exec (ensureDocumentState document) w =
  if isJsonDocument document && negb (Map_has (documentStates w) (uri document))
  then mkWorld (isProcessingEdit w)
         (Map_set (documentStates w) (uri document)
            (freshDocumentState document))
         (currentDecorations w) (isEnabled w) (activeTextEditor w)
         (appliedEdits w)
  else w.
Proof.
  unfold ensureDocumentState, exec, bind, get. cbv beta iota.
  destruct (_ && _); reflexivity.
Qed.

Lemma updateDocumentState_exact document w :
  exec (updateDocumentState document) w =
  mkWorld (isProcessingEdit w)
    (Map_set (documentStates w) (uri document)
       (mkDocumentState (getText document)
          (match Map_get (documentStates w) (uri document) with
           | Some existingState => visualContent existingState
           | None => getText document
           end)
          (calculateInitialMappings document) (doc_version document)))
    (currentDecorations w) (isEnabled w) (activeTextEditor w) (appliedEdits w).
Proof.
  unfold updateDocumentState, exec, bind, get. cbv beta iota.
  destruct (Map_get (documentStates w) (uri document)); reflexivity.
Qed.

(** X10: after a notification that is processed, the state kept for the
    document holds the text, the version and the mappings of the document
    as it is now; its visual content is the one of the state kept before,
    or the text when there was none; the states of other documents are
    untouched. *)
Theorem X10_document_state_synced :
  forall event w,
    isProcessingEdit w = false ->
    isJsonDocument (event_document event) = true ->
    JSON.parses (getText (event_document event)) = true ->
    let document := event_document event in
    let w' := exec (onDidChangeTextDocument event) w in
    Map_get (documentStates w') (uri document)
    = Some (mkDocumentState (getText document)
              (match Map_get (documentStates w) (uri document) with
               | Some existingState => visualContent existingState
               | None => getText document
               end)
              (calculateInitialMappings document) (doc_version document))
    /\ (forall k, k <> uri document ->
                  Map_get (documentStates w') k = Map_get (documentStates w) k).
Proof.
  intros event w Hflag Hjson Hvalid document w'. subst w'.
  rewrite (onDidChangeTextDocument_run event w Hflag Hjson Hvalid).
  fold document. change (isJsonDocument document = true) in Hjson.
  set (w1 := exec (ensureDocumentState document) w).
  set (w2 := exec (forEach (contentChanges event)
                     (processContentChange document)) w1).
  set (w3 := exec (updateDocumentState document) w2).
  assert (H3 : documentStates (exec (updateDecorations event) w3)
               = documentStates w3).
  { destruct (updateDecorations_spec event w3) as [decs H].
    unfold exec. now rewrite H. }
  rewrite H3.
  assert (H2 : documentStates w2 = documentStates w1).
  { subst w2. now rewrite forEach_processContentChange_exact. }
  subst w3. rewrite updateDocumentState_exact. cbn [documentStates].
  rewrite H2.
  assert (H1 : documentStates w1 =
               if Map_has (documentStates w) (uri document)
               then documentStates w
               else Map_set (documentStates w) (uri document)
                      (freshDocumentState document)).
  { subst w1. rewrite ensureDocumentState_exact.
    rewrite Hjson. cbn [andb].
    destruct (Map_has (documentStates w) (uri document)); reflexivity. }
  split.
  - rewrite Map_get_set_same. do 2 f_equal.
    rewrite H1. unfold Map_has.
    destruct (Map_get (documentStates w) (uri document)) as [old|] eqn:Hold.
    + now rewrite Hold.
    + now rewrite Map_get_set_same.
  - intros k Hk. rewrite Map_get_set_other by exact Hk.
    rewrite H1. destruct (Map_has _ _); [reflexivity|].
    now apply Map_get_set_other.
Qed.

Lemma X10_document_state_synced_witness :
  let event := mkTextDocumentChangeEvent document_D [] in
  Map_get (documentStates (exec (onDidChangeTextDocument event) initialWorld))
    (uri document_D)
  = Some (freshDocumentState document_D).
Proof.
  intros event.
  exact (proj1 (X10_document_state_synced event initialWorld
                  eq_refl eq_refl eq_refl)).
Defined.

(** X11: a JSON document always has a state when it is asked for: the one
    kept, returned as it is even when the document has changed since, or
    a fresh one; for a document of another language nothing is created
    and the request returns what is kept. Cleaning up removes the state
    of the document only, and the next request gives a fresh one. *)
Theorem X11_document_state_lifecycle :
  forall document w,
    (isJsonDocument document = true ->
     eval (getDocumentState document) w
     = Some (match Map_get (documentStates w) (uri document) with
             | Some existingState => existingState
             | None => freshDocumentState document
             end))
    /\ (isJsonDocument document = false ->
        getDocumentState document w
        = (Map_get (documentStates w) (uri document), w))
    /\ (forall existingState,
          Map_get (documentStates w) (uri document) = Some existingState ->
          exec (getDocumentState document) w = w)
    /\ (let w' := exec (cleanupDocumentState document) w in
        Map_get (documentStates w') (uri document) = None
        /\ (forall k, k <> uri document ->
                      Map_get (documentStates w') k
                      = Map_get (documentStates w) k)
        /\ (isJsonDocument document = true ->
            eval (getDocumentState document) w'
            = Some (freshDocumentState document))).
Proof.
  intros document w.
  assert (Hget : forall w0,
             getDocumentState document w0 =
             (Map_get (documentStates (exec (ensureDocumentState document) w0))
                (uri document),
              exec (ensureDocumentState document) w0)).
  { intros w0. unfold getDocumentState, exec.
    rewrite bind_run. reflexivity. }
  assert (Hjs : forall w0,
             isJsonDocument document = true ->
             eval (getDocumentState document) w0
             = Some (match Map_get (documentStates w0) (uri document) with
                     | Some existingState => existingState
                     | None => freshDocumentState document
                     end)).
  { intros w0 Hjson. unfold eval. rewrite Hget. cbn [fst].
    rewrite ensureDocumentState_exact, Hjson. cbn [andb]. unfold Map_has.
    destruct (Map_get (documentStates w0) (uri document)) eqn:Hold; cbn [negb].
    - exact Hold.
    - cbn [documentStates]. apply Map_get_set_same. }
  split; [apply Hjs|]. split; [|split].
  - intros Hjson. rewrite Hget, ensureDocumentState_exact, Hjson. reflexivity.
  - intros old Hold. unfold exec at 1. rewrite Hget. cbn [snd].
    rewrite ensureDocumentState_exact. unfold Map_has. rewrite Hold.
    now rewrite andb_false_r.
  - cbv zeta.
    assert (Hclean : documentStates (exec (cleanupDocumentState document) w)
                     = Map_delete (documentStates w) (uri document))
      by reflexivity.
    split; [|split].
    + rewrite Hclean. apply Map_get_delete_same.
    + intros k Hk. rewrite Hclean. now apply Map_get_delete_other.
    + intros Hjson. rewrite (Hjs _ Hjson), Hclean, Map_get_delete_same.
      reflexivity.
Qed.

(** ** The clipboard *)

Lemma includes_LF_iff text :
  includes text [LF] = true <-> count_occ N.eq_dec text LF <> 0.
Proof.
  split; [apply includes_LF_count|].
  induction text as [|c text IH]; [cbn; congruence|].
  rewrite count_occ_LF_cons. cbn [includes startsWith].
  destruct (N.eqb LF c) eqn:E.
  - reflexivity.
  - rewrite N.eqb_sym in E. rewrite E. cbn [andb orb Nat.add]. exact IH.
Qed.

Lemma includes_LF_false text :
  includes text [LF] = false <-> count_occ N.eq_dec text LF = 0.
Proof.
  pose proof (includes_LF_iff text) as H.
  destruct (includes text [LF]); split; intros H1; try reflexivity.
  - discriminate.
  - exfalso. now apply (proj1 H).
  - destruct (Nat.eq_dec (count_occ N.eq_dec text LF) 0); [assumption|].
    apply (proj2 H) in n. discriminate.
Qed.

Lemma replace_LF_by_escape_id text :
  count_occ N.eq_dec text LF = 0 -> replace_LF_by_escape text = text.
Proof.
  induction text as [|c text IH]; [reflexivity|].
  rewrite count_occ_LF_cons. cbn [replace_LF_by_escape].
  destruct (N.eqb c LF); [cbn; lia|].
  cbn [Nat.add]. intros H. now rewrite IH.
Qed.

Lemma replace_LF_by_escape_idempotent text :
  replace_LF_by_escape (replace_LF_by_escape text) = replace_LF_by_escape text.
Proof.
  apply replace_LF_by_escape_id. apply includes_LF_false.
  apply replace_LF_by_escape_no_LF.
Qed.

Lemma newRange_same p : newRange p p = mkRange p p.
Proof.
  unfold newRange, isBefore. rewrite !Nat.ltb_irrefl, andb_false_r. reflexivity.
Qed.

(** X12: what is pasted into a span that holds a newline escape has its
    line feeds escaped, so it holds none, and pasting is idempotent; text
    pasted anywhere else, a span without newline escape included, is
    taken as it is. *)
Theorem X12_paste_escapes_line_feeds :
  forall document p clipboardText,
    let pasted := handlePasteOperation document p clipboardText in
    handlePasteOperation document p pasted = pasted
    /\ (inDecoratedArea (getStringRangeAtPosition document p) = true ->
        pasted = replace_LF_by_escape clipboardText
        /\ includes pasted [LF] = false
        /\ length pasted
           = length clipboardText + count_occ N.eq_dec clipboardText LF)
    /\ (inDecoratedArea (getStringRangeAtPosition document p) = false ->
        pasted = clipboardText)
    /\ (includes clipboardText [LF] = false -> pasted = clipboardText).
Proof.
  intros document p clipboardText pasted. subst pasted.
  unfold handlePasteOperation, transformVisualContentToActual.
  rewrite newRange_same. cbn [range_start].
  destruct (getStringRangeAtPosition document p) as [r|] eqn:Hr;
    cbn [inDecoratedArea].
  2:{ repeat split; try reflexivity; discriminate. }
  destruct (hasNewlines r) eqn:Hhas.
  - split; [apply replace_LF_by_escape_idempotent|].
    split; [|split; [discriminate|]].
    + intros _. split; [reflexivity|].
      split; [apply replace_LF_by_escape_no_LF
             | apply replace_LF_by_escape_length].
    + intros H. apply replace_LF_by_escape_id. now apply includes_LF_false.
  - repeat split; try reflexivity; discriminate.
Qed.

Lemma handleCopyOperation_run document selection w :
  handleCopyOperation document selection w =
  ((if 0 <? length (eval (getDecorationsInRange selection) w)
    then transformActualContentToVisual document
           (getTextIn document selection) selection
    else getTextIn document selection), w).
Proof.
  unfold handleCopyOperation, isSelectionInDecoratedArea.
  rewrite !bind_run, getDecorationsInRange_run. cbn [fst snd ret].
  destruct (0 <? length _); reflexivity.
Qed.

Lemma testClipboardOperations_run document selection w :
  eval (testClipboardOperations document selection) w =
  let originalText := getTextIn document selection in
  let copiedText := eval (handleCopyOperation document selection) w in
  let pastedText :=
    handlePasteOperation document (range_start selection) copiedText in
  mkClipboardTest originalText copiedText pastedText
    (negb (jsstring_eqb copiedText originalText)
     || negb (jsstring_eqb pastedText copiedText)).
Proof.
  unfold testClipboardOperations, eval. rewrite bind_run. reflexivity.
Qed.

(** X13: copying a selection that lies inside a span with a newline escape
    and pasting the copy back at the start of the selection gives the
    selected text again, whatever decorations are active. *)
Theorem X13_clipboard_round_trip :
  forall document selection sr w,
    JSON.parses (getText document) = true ->
    getStringRangeAtPosition document (range_start selection) = Some sr ->
    hasNewlines sr = true ->
    isBefore (range_end selection) (range_start selection) = false ->
    isBefore (end_ sr) (range_end selection) = false ->
    let test := eval (testClipboardOperations document selection) w in
    pastedText test = originalText test
    /\ originalText test = getTextIn document selection
    /\ (isTransformed test = true <-> copiedText test <> originalText test).
Proof.
  intros document selection sr w Hvalid Hsr Hhas Hord Hin test.
  pose proof (getTextIn_without_LF document sr selection Hvalid Hsr Hord Hin)
    as HnoLF.
  subst test. rewrite testClipboardOperations_run. cbv zeta.
  set (copied := eval (handleCopyOperation document selection) w).
  assert (Hcopied : copied = getTextIn document selection
                    \/ copied = replace_escape_by_LF (getTextIn document selection)).
  { subst copied. unfold eval. rewrite handleCopyOperation_run. cbn [fst].
    destruct (0 <? length _); [|now left].
    unfold transformActualContentToVisual. rewrite Hsr. now right. }
  cbn [originalText copiedText pastedText isTransformed].
  assert (Hpaste : handlePasteOperation document (range_start selection) copied
                   = getTextIn document selection).
  { unfold handlePasteOperation. rewrite Hsr. cbn [inDecoratedArea].
    rewrite Hhas. unfold transformVisualContentToActual.
    rewrite newRange_same. cbn [range_start]. rewrite Hsr.
    destruct Hcopied as [-> | ->].
    - now apply replace_LF_by_escape_id.
    - now apply replace_round_trip. }
  rewrite Hpaste. split; [reflexivity|]. split; [reflexivity|].
  unfold jsstring_eqb.
  destruct (list_eq_dec N.eq_dec copied (getTextIn document selection))
    as [->|Hne]; cbn [negb orb].
  - destruct (list_eq_dec N.eq_dec _ _); [|congruence].
    cbn. split; [discriminate | congruence].
  - split; [intros _; exact Hne | reflexivity].
Qed.

Lemma X13_clipboard_round_trip_witness :
  let selection := mkRange (mkPosition 0 7) (mkPosition 0 11) in
  let test :=
    eval (testClipboardOperations document_D selection)
      (decoratedWorld document_D) in
  pastedText test = originalText test.
Proof.
  intros selection test.
  assert (Hsr : getStringRangeAtPosition document_D (range_start selection)
                = Some (mkStringRange (mkPosition 0 6) (mkPosition 0 12)
                          (str "x\ny") true))
    by (vm_compute; reflexivity).
  exact (proj1 (X13_clipboard_round_trip document_D selection _
                  (decoratedWorld document_D)
                  eq_refl Hsr eq_refl eq_refl eq_refl)).
Defined.

Lemma replace_LF_by_escape_no_quote text :
  ~ In QUOTE text -> ~ In QUOTE (replace_LF_by_escape text).
Proof.
  induction text as [|c text IH]; intros Hq; [exact Hq|].
  cbn [replace_LF_by_escape].
  assert (Hq' : ~ In QUOTE text) by (intros H; apply Hq; now right).
  destruct (N.eqb c LF).
  - intros [H | [H | H]]; [discriminate H | discriminate H | now apply IH].
  - intros [H | H]; [apply Hq; now left | now apply IH].
Qed.

Lemma getStringRangeAtPosition_parses document p r :
  getStringRangeAtPosition document p = Some r ->
  JSON.parses (getText document) = true.
Proof.
  intros H. apply getStringRangeAtPosition_spec in H. destruct H as [H _].
  now apply findStringRanges_In in H.
Qed.

(** X14: inside a string span, text that passes validation and holds no
    double quote can be inserted where the parser is reading the
    characters of a string literal: the document with the validated text
    spliced in at the target still parses. *)
Theorem X14_clipboard_validation_sound :
  forall text targetPosition document r k stack,
    let v := validateClipboardContent text targetPosition document in
    let o := offsetAt document targetPosition in
    getStringRangeAtPosition document targetPosition = Some r ->
    validation_isValid v = true ->
    ~ In QUOTE text ->
    cfgAt (getText document) o = (JSON.InString k, stack) ->
    JSON.parses
      (firstn o (getText document) ++ validation_transformedText v
       ++ skipn o (getText document)) = true
    /\ validation_errors v = []
    /\ (validation_needsTransformation v = true ->
        includes (validation_transformedText v) [LF] = false)
    /\ (validation_needsTransformation v = false ->
        validation_transformedText v = text).
Proof.
  intros text targetPosition document r k stack v o Hr Hvalid Hq Hcfg.
  pose proof (getStringRangeAtPosition_parses _ _ _ Hr) as Hdoc.
  subst v. unfold validateClipboardContent in *. rewrite Hr in *.
  cbv zeta in *.
  set (needs := includes text [LF] && negb (includes text [BACKSLASH; CH_n]))
    in *.
  set (T := if needs then replace_LF_by_escape text else text) in *.
  cbn [validation_isValid validation_errors validation_needsTransformation
       validation_transformedText] in *.
  assert (HqT : ~ In QUOTE T).
  { subst T. destruct needs; [now apply replace_LF_by_escape_no_quote | exact Hq]. }
  destruct (JSON.parses (json "{'test': '" ++ T ++ json "'}")) eqn:Htest;
    [|discriminate Hvalid].
  split; [|split; [reflexivity|split]].
  - destruct (run_inside_string T HqT (JSON.InString false)
                [JSON.InObject] eq_refl) as (st' & Hrun & Hmode & Hkey).
    assert (Hst' : st' = JSON.InString false).
    { unfold JSON.parses in Htest.
      rewrite !fold_left_app in Htest.
      change (fold_left JSON.step (json "{'test': '") (JSON.Value, []))
        with (JSON.InString false, [JSON.InObject]) in Htest.
      rewrite Hrun in Htest.
      pose proof (Hkey false [JSON.InObject]) as Hk0.
      cbn [rekey] in Hk0. rewrite Hrun in Hk0.
      injection Hk0 as Hk0.
      destruct st'; try discriminate Hmode; cbn [rekey] in Hk0.
      - exact Hk0.
      - vm_compute in Htest. discriminate Htest.
      - vm_compute in Htest. discriminate Htest.
      - vm_compute in Htest. discriminate Htest. }
    subst st'.
    unfold JSON.parses. rewrite !fold_left_app.
    change (fold_left JSON.step (firstn o (getText document)) (JSON.Value, []))
      with (cfgAt (getText document) o).
    rewrite Hcfg.
    pose proof (Hkey k stack) as Hk. cbn [rekey] in Hk. rewrite Hk.
    rewrite <- Hcfg. unfold cfgAt. rewrite <- fold_left_app, firstn_skipn.
    exact Hdoc.
  - intros Hneeds. subst T. rewrite Hneeds. apply replace_LF_by_escape_no_LF.
  - intros Hneeds. subst T. now rewrite Hneeds.
Qed.

Lemma X14_clipboard_validation_sound_witness :
  let text := str "ab" ++ [LF] ++ str "c" in
  let v := validateClipboardContent text (mkPosition 0 7) document_D in
  validation_transformedText v = str "ab\nc"
  /\ JSON.parses
       (firstn 7 (getText document_D) ++ validation_transformedText v
        ++ skipn 7 (getText document_D)) = true.
Proof.
  intros text v. split; [vm_compute; reflexivity|].
  assert (Hr : getStringRangeAtPosition document_D (mkPosition 0 7)
               = Some (mkStringRange (mkPosition 0 6) (mkPosition 0 12)
                         (str "x\ny") true))
    by (vm_compute; reflexivity).
  assert (Hq : ~ In QUOTE text)
    by (intros H; vm_compute in H; intuition discriminate).
  exact (proj1 (X14_clipboard_validation_sound text (mkPosition 0 7) document_D
                  _ false [JSON.InObject] Hr eq_refl Hq eq_refl)).
Defined.

(** ** Search and replace *)

Lemma includes_escape_count text :
  includes text [BACKSLASH; CH_n] = true <-> count_escape text <> 0.
Proof.
  pattern text. apply jsstring_pair_ind; clear text.
  - cbn. split; congruence.
  - intros c. cbn. rewrite andb_false_r. cbn. split; congruence.
  - intros c d rest IH1 IH2.
    rewrite count_escape_cons.
    change (includes (c :: d :: rest) [BACKSLASH; CH_n])
      with ((N.eqb BACKSLASH c && (N.eqb CH_n d && true))
            || includes (d :: rest) [BACKSLASH; CH_n]).
    rewrite andb_true_r, (N.eqb_sym BACKSLASH c), (N.eqb_sym CH_n d).
    destruct (N.eqb c BACKSLASH && N.eqb d CH_n); cbn [orb].
    + split; [discriminate | reflexivity].
    + exact IH2.
Qed.

Lemma replace_escape_by_LF_changes text :
  includes text [BACKSLASH; CH_n] = true -> replace_escape_by_LF text <> text.
Proof.
  intros H. apply includes_escape_count in H.
  destruct (replace_escape_by_LF_measure text) as [Hlen _].
  intros Heq. rewrite Heq in Hlen. lia.
Qed.

Lemma replace_escape_by_LF_id text :
  includes text [BACKSLASH; CH_n] = false -> replace_escape_by_LF text = text.
Proof.
  pattern text. apply jsstring_pair_ind; clear text; try reflexivity.
  intros c d rest IH1 IH2 H.
  change (includes (c :: d :: rest) [BACKSLASH; CH_n])
    with ((N.eqb BACKSLASH c && (N.eqb CH_n d && true))
          || includes (d :: rest) [BACKSLASH; CH_n]) in H.
  rewrite andb_true_r, (N.eqb_sym BACKSLASH c), (N.eqb_sym CH_n d) in H.
  apply orb_false_elim in H. destruct H as [H1 H2].
  rewrite replace_escape_by_LF_cons, H1. f_equal. now apply IH2.
Qed.

(** X15: of the two patterns a search text is turned into, the one matched
    against the file never holds a line feed: it is the visual pattern
    with its line feeds escaped. A transformation is reported exactly
    when the two patterns differ. *)
Theorem X15_search_patterns :
  forall searchText document,
    let patterns := transformSearchText searchText document in
    includes (actualPattern patterns) [LF] = false
    /\ actualPattern patterns = replace_LF_by_escape (visualPattern patterns)
    /\ (needsTransformation patterns = true
        <-> visualPattern patterns <> actualPattern patterns)
    /\ (needsTransformation patterns = false ->
        visualPattern patterns = searchText
        /\ actualPattern patterns = searchText)
    /\ (includes searchText [LF] = false ->
        actualPattern patterns = searchText
        /\ visualPattern patterns = replace_escape_by_LF searchText).
Proof.
  intros searchText document patterns. subst patterns.
  unfold transformSearchText.
  destruct (includes searchText [LF]) eqn:HLF.
  - cbn [actualPattern visualPattern needsTransformation].
    split; [apply replace_LF_by_escape_no_LF|].
    split; [reflexivity|].
    split; [|split; discriminate].
    split; [|reflexivity].
    intros _ H. symmetry in H. revert H. now apply replace_LF_by_escape_changes.
  - assert (Hcount : count_occ N.eq_dec searchText LF = 0)
      by now apply includes_LF_false.
    destruct (includes searchText [BACKSLASH; CH_n]) eqn:Hesc;
      cbn [actualPattern visualPattern needsTransformation].
    + split; [exact HLF|].
      split; [symmetry; now apply replace_round_trip|].
      split; [|split; [discriminate | auto]].
      split; [|reflexivity].
      intros _. now apply replace_escape_by_LF_changes.
    + split; [exact HLF|].
      split; [symmetry; now apply replace_LF_by_escape_id|].
      split; [|split; [auto|]].
      * split; [discriminate | congruence].
      * intros _. split; [reflexivity|].
        symmetry. now apply replace_escape_by_LF_id.
Qed.

Lemma createSearchResult_run document r needs w :
  eval (createSearchResult document r needs) w =
  let decorated :=
    inDecoratedArea (getStringRangeAtPosition document (range_start r)) in
  mkSearchResult r (getTextIn document r) decorated
    (if decorated && needs
     then Some (newRange
                  (transformActualToVisual_position document (range_start r))
                  (transformActualToVisual_position document (range_end r)))
     else None)
    r.
Proof.
  unfold createSearchResult, eval. cbv zeta.
  destruct (inDecoratedArea _ && needs); [|reflexivity].
  rewrite !bind_run.
  change (fst (transformActualToVisual document (range_start r) w))
    with (eval (transformActualToVisual document (range_start r)) w).
  rewrite eval_transformActualToVisual.
  match goal with
  | |- context [fst (transformActualToVisual document (range_end r) ?w1)] =>
      change (fst (transformActualToVisual document (range_end r) w1))
        with (eval (transformActualToVisual document (range_end r)) w1)
  end.
  rewrite eval_transformActualToVisual. reflexivity.
Qed.

(** X16: a search result keeps the range it was found at as its actual
    range, and has a visual range only when the match starts in a span
    with a newline escape and the search needed a transformation. The
    text that replaces it has its line feeds escaped when the match
    starts in such a span, and is the replacement text as given
    otherwise; the operation is always reported successful. *)
Theorem X16_replacement_text_of_search_result :
  forall document r needs replacement w,
    let result := eval (createSearchResult document r needs) w in
    let operation := createReplaceOperation document result replacement in
    let decorated :=
      inDecoratedArea (getStringRangeAtPosition document (range_start r)) in
    result_actualRange result = r
    /\ result_text result = getTextIn document r
    /\ result_isInDecoratedArea result = decorated
    /\ (result_visualRange result <> None <-> decorated && needs = true)
    /\ transformedReplacementText operation
       = (if decorated then replace_LF_by_escape replacement else replacement)
    /\ (decorated = true ->
        includes (transformedReplacementText operation) [LF] = false)
    /\ success operation = true.
Proof.
  intros document r needs replacement w result operation decorated.
  subst operation result. rewrite createSearchResult_run. cbv zeta.
  fold decorated.
  unfold createReplaceOperation.
  cbn [result_actualRange result_text result_isInDecoratedArea
       result_visualRange transformedReplacementText success].
  assert (Htext : (if decorated
                   then transformVisualContentToActual document replacement r
                   else replacement)
                  = if decorated then replace_LF_by_escape replacement
                    else replacement).
  { subst decorated. unfold transformVisualContentToActual.
    destruct (getStringRangeAtPosition document (range_start r));
      cbn [inDecoratedArea]; [|reflexivity].
    destruct (hasNewlines s); reflexivity. }
  rewrite Htext.
  repeat split.
  - destruct (decorated && needs); [reflexivity | congruence].
  - intros H. rewrite H. discriminate.
  - intros ->. apply replace_LF_by_escape_no_LF.
Qed.

(** ** The cursor, positions in a text and the mappings *)

Lemma transformActualToVisual_position_line document p :
  line p <= line (transformActualToVisual_position document p).
Proof.
  unfold transformActualToVisual_position.
  destruct (length (getDetailedNewlinePositions document) =? 0); [lia|].
  destruct (transformActualToVisual_fold (offsetAt document p)
              (getDetailedNewlinePositions document)
              (line p) (character p) 0
              (getDetailedNewlinePositions_endOffset document)) as [n ->].
  cbn [line]. lia.
Qed.

Lemma transformCursorPosition_run document p w :
  eval (transformCursorPosition document p) w =
  if inDecoratedArea (getStringRangeAtPosition document p)
  then mkCursorTransformation (transformActualToVisual_position document p) p
         true (getStringRangeAtPosition document p)
  else mkCursorTransformation p p false None.
Proof.
  unfold transformCursorPosition, eval. cbv zeta.
  destruct (inDecoratedArea _); [|reflexivity].
  rewrite bind_run.
  change (fst (transformActualToVisual document p w))
    with (eval (transformActualToVisual document p) w).
  now rewrite eval_transformActualToVisual.
Qed.

(** X17: the cursor transformation keeps the position as the actual
    position. The position counts as decorated exactly when it lies in
    the half-open interval of a span with a newline escape; outside, the
    visual position is the position itself and nothing is recorded;
    inside, the visual position is never on an earlier line. *)
Theorem X17_cursor_transformation_cases :
  forall document p w,
    let t := eval (transformCursorPosition document p) w in
    cursor_actualPosition t = p
    /\ (cursor_isInDecoratedArea t = true <->
        exists r,
          In r (findStringRanges document) /\ hasNewlines r = true
          /\ isAfterOrEqual p (start r) = true /\ isBefore p (end_ r) = true)
    /\ (cursor_isInDecoratedArea t = false ->
        cursor_visualPosition t = p /\ cursor_stringRange t = None
        /\ transformCursorPosition document p w = (t, w))
    /\ (cursor_isInDecoratedArea t = true ->
        cursor_stringRange t = getStringRangeAtPosition document p
        /\ cursor_visualPosition t = transformActualToVisual_position document p
        /\ line p <= line (cursor_visualPosition t)).
Proof.
  intros document p w t. subst t. rewrite transformCursorPosition_run.
  destruct (inDecoratedArea (getStringRangeAtPosition document p)) eqn:Hdec;
    cbn [cursor_actualPosition cursor_isInDecoratedArea cursor_visualPosition
         cursor_stringRange].
  - split; [reflexivity|]. split; [|split; [discriminate|]].
    + split; [intros _|reflexivity].
      destruct (getStringRangeAtPosition document p) as [r|] eqn:Hr;
        [|discriminate Hdec].
      exists r. apply getStringRangeAtPosition_spec in Hr.
      cbn [inDecoratedArea] in Hdec. tauto.
    + intros _. split; [reflexivity|]. split; [reflexivity|].
      apply transformActualToVisual_position_line.
  - split; [reflexivity|]. split; [|split; [|discriminate]].
    + split; [discriminate|]. intros (r & Hin & Hhas & Ha & Hb).
      assert (Hr : getStringRangeAtPosition document p = Some r)
        by (apply getStringRangeAtPosition_spec; auto).
      rewrite Hr in Hdec. cbn [inDecoratedArea] in Hdec. congruence.
    + intros _. split; [reflexivity|]. split; [reflexivity|].
      unfold transformCursorPosition. cbv zeta. now rewrite Hdec.
Qed.

(** *** [offsetToPositionInText] *)

Lemma substring_cons ch rest a b :
  substring (ch :: rest) (S a) (S b) = substring rest a b.
Proof. reflexivity. Qed.

Lemma charIs_cons ch rest i c :
  charIs (ch :: rest) (S i) c = charIs rest i c.
Proof. reflexivity. Qed.

(** The loop of [offsetToPositionInText] after [n] code units of [text],
    started with the line [l] and the character [c]: the line has grown
    by the number of line feeds read; the character has grown by [n]
    when none was read, and otherwise counts the code units read after
    the last one. *)
Lemma offsetToPositionInText_loop_spec text :
  forall n l c,
    n <= length text ->
    let p := offsetToPositionInText_loop text n l c in
    line p = l + count_occ N.eq_dec (firstn n text) LF
    /\ (~ In LF (firstn n text) -> character p = c + n)
    /\ (In LF (firstn n text) ->
        character p < n
        /\ charIs text (n - character p - 1) LF = true
        /\ ~ In LF (substring text (n - character p) n)).
Proof.
  induction text as [|ch rest IH]; intros n l c Hn p; subst p.
  - cbn [length] in Hn. replace n with 0 by lia. cbn.
    split; [lia|]. split; [intros _; lia | intros []].
  - destruct n as [|n].
    + cbn. split; [lia|]. split; [intros _; lia | intros []].
    + cbn [length] in Hn. apply le_S_n in Hn.
      cbn [offsetToPositionInText_loop firstn].
      rewrite count_occ_LF_cons.
      destruct (N.eqb ch LF) eqn:E.
      * apply N.eqb_eq in E. subst ch.
        destruct (IH n (S l) 0 Hn) as (Hl & Hnone & Hsome).
        set (p := offsetToPositionInText_loop rest n (S l) 0) in *.
        split; [lia|]. split; [intros H; exfalso; apply H; now left|].
        intros _.
        destruct (in_dec N.eq_dec LF (firstn n rest)) as [Hin | Hnin].
        -- destruct (Hsome Hin) as (Hlt & Hc & Hs).
           split; [lia|].
           replace (S n - character p - 1) with (S (n - character p - 1))
             by lia.
           replace (S n - character p) with (S (n - character p)) by lia.
           rewrite charIs_cons, substring_cons. split; assumption.
        -- rewrite (Hnone Hnin). cbn [Nat.add].
           split; [lia|].
           replace (S n - n - 1) with 0 by lia.
           replace (S n - n) with 1 by lia.
           split; [reflexivity|].
           rewrite substring_cons, substring_prefix, Nat.min_l by exact Hn.
           exact Hnin.
      * destruct (IH n l (S c) Hn) as (Hl & Hnone & Hsome).
        set (p := offsetToPositionInText_loop rest n l (S c)) in *.
        split; [lia|]. split.
        -- intros H. rewrite Hnone; [lia|].
           intros Hin. apply H. now right.
        -- intros [Hh | Hin].
           ++ subst ch. rewrite N.eqb_refl in E. discriminate.
           ++ destruct (Hsome Hin) as (Hlt & Hc & Hs).
              split; [lia|].
              replace (S n - character p - 1) with (S (n - character p - 1))
                by lia.
              replace (S n - character p) with (S (n - character p)) by lia.
              rewrite charIs_cons, substring_cons. split; assumption.
Qed.

(** X18: the position computed for an offset of a text depends only on
    the code units before the offset, all of them when the offset is
    past the end: its line is the number of line feeds among them, and
    its character is the number of code units after the last of these
    line feeds, or the number of all of them when there is none. *)
Theorem X18_offsetToPositionInText_closed_form :
  forall text o,
    let p := offsetToPositionInText text o in
    let n := Nat.min o (length text) in
    line p = count_occ N.eq_dec (firstn n text) LF
    /\ character p <= n
    /\ ~ In LF (substring text (n - character p) n)
    /\ (character p < n -> charIs text (n - character p - 1) LF = true)
    /\ (character p = n <-> ~ In LF (firstn n text))
    /\ (length text <= o -> p = offsetToPositionInText text (length text)).
Proof.
  intros text o. cbv zeta.
  assert (Hend : length text <= o ->
                 offsetToPositionInText text o
                 = offsetToPositionInText text (length text)).
  { intros Hlen. unfold offsetToPositionInText.
    now rewrite Nat.min_r, Nat.min_id by lia. }
  unfold offsetToPositionInText at 1 2 3 4 5 6 7.
  set (n := Nat.min o (length text)) in *.
  assert (Hn : n <= length text) by (subst n; lia).
  destruct (offsetToPositionInText_loop_spec text n 0 0 Hn)
    as (Hl & Hnone & Hsome).
  set (p := offsetToPositionInText_loop text n 0 0) in *.
  cbn [Nat.add] in Hl, Hnone.
  destruct (in_dec N.eq_dec LF (firstn n text)) as [Hin | Hnin].
  - destruct (Hsome Hin) as (Hlt & Hc & Hs).
    split; [exact Hl|]. split; [lia|]. split; [exact Hs|].
    split; [intros _; exact Hc|]. split; [|exact Hend].
    split; [lia | intros H; contradiction].
  - pose proof (Hnone Hnin) as Hc.
    split; [exact Hl|]. split; [lia|]. split.
    + rewrite Hc. replace (n - n) with 0 by lia.
      rewrite substring_prefix, Nat.min_l by exact Hn. exact Hnin.
    + split; [lia|]. split; [tauto | exact Hend].
Qed.

(** *** [calculateInitialMappings] *)

Lemma calculateInitialMappings_loop_mappingsFrom l :
  calculateInitialMappings_loop l = mappingsFrom 0 l.
Proof.
  unfold calculateInitialMappings_loop.
  assert (H : forall l acc c,
             fold_left
               (fun (acc : list EditMapping * nat) newlinePos =>
                  let (mappings, cumulativeOffset) := acc in
                  (mappings ++
                   [mkEditMapping
                      (mkPosition (line (position newlinePos) + cumulativeOffset)
                         (character (position newlinePos)))
                      (position newlinePos) cumulativeOffset],
                   cumulativeOffset + 2))
               l (acc, c)
             = (acc ++ mappingsFrom c l, c + 2 * length l)).
  { clear l. induction l as [|np l IH]; intros acc c.
    - cbn. rewrite app_nil_r. f_equal. lia.
    - cbn [fold_left]. rewrite IH. cbn [mappingsFrom length].
      rewrite <- app_assoc. f_equal. lia. }
  now rewrite H.
Qed.

Lemma mappingsFrom_nth l :
  forall c k np,
    nth_error l k = Some np ->
    nth_error (mappingsFrom c l) k
    = Some (mkEditMapping
              (mkPosition (line (position np) + (c + 2 * k))
                 (character (position np)))
              (position np) (c + 2 * k)).
Proof.
  induction l as [|x l IH]; intros c k np H; [destruct k; discriminate|].
  destruct k as [|k]; cbn [nth_error mappingsFrom] in *.
  - injection H as ->. now rewrite Nat.mul_0_r, Nat.add_0_r.
  - rewrite (IH _ _ _ H).
    now replace (c + 2 + 2 * k) with (c + 2 * S k) by lia.
Qed.

Lemma mappingsFrom_length l : forall c, length (mappingsFrom c l) = length l.
Proof. induction l as [|x l IH]; intros c; cbn; [reflexivity | now rewrite IH]. Qed.

(** X19: the mappings computed for a document hold one entry for each
    occurrence, in order: the entry of the occurrence number [k] has the
    position of the occurrence as actual position, the offset [2 k], and
    as visual position that position moved down by [2 k] lines. *)
Theorem X19_mappings_entries :
  forall document,
    let occurrences := getDetailedNewlinePositions document in
    let mappings := calculateInitialMappings document in
    length mappings = length occurrences
    /\ forall k np,
         nth_error occurrences k = Some np ->
         nth_error mappings k
         = Some (mkEditMapping
                   (mkPosition (line (position np) + 2 * k)
                      (character (position np)))
                   (position np) (2 * k)).
Proof.
  intros document occurrences mappings. subst mappings.
  unfold calculateInitialMappings. fold occurrences.
  rewrite calculateInitialMappings_loop_mappingsFrom. split.
  - apply mappingsFrom_length.
  - intros k np H. now rewrite (mappingsFrom_nth _ 0 k np H).
Qed.

(** ** Folding ranges and the limits of the scan *)

(** *** Folding ranges *)

Lemma foldingRangesUpTo_le L L' l :
  L <= L' -> foldingRangesUpTo L l -> foldingRangesUpTo L' l.
Proof.
  intros HL [H1 H2]. split; [|exact H2].
  eapply Forall_impl; [|exact H1]. cbn. intros r [? ?]. lia.
Qed.

Lemma StronglySorted_snoc {A} (R : A -> A -> Prop) l x :
  StronglySorted R l -> Forall (fun y => R y x) l ->
  StronglySorted R (l ++ [x]).
Proof.
  induction 1 as [|a l Hl IH Ha]; intros Hx; cbn.
  - constructor; constructor.
  - inversion Hx; subst. constructor; [now apply IH|].
    apply Forall_app. split; [exact Ha | now constructor].
Qed.

Lemma foldingStep_ranges lineIndex st c :
  foldingRangesUpTo lineIndex (ranges st) ->
  foldingRangesUpTo lineIndex (ranges (foldingStep lineIndex st c)).
Proof.
  intros Hinv. unfold foldingStep.
  repeat match goal with
         | |- context [if ?b then _ else _] => destruct b eqn:?
         | |- context [match braceStack st with _ => _ end] =>
             destruct (braceStack st) as [|opening rest]
         end; cbn [ranges]; try exact Hinv.
  destruct Hinv as [H1 H2].
  match goal with H : (_ <? _) = true |- _ => apply Nat.ltb_lt in H end.
  split.
  - apply Forall_app. split; [exact H1|]. constructor; [|constructor].
    cbn [fold_start fold_end]. lia.
  - apply StronglySorted_snoc; [exact H2|].
    eapply Forall_impl; [|exact H1]. cbn. intros r [_ ?]. exact H.
Qed.

Lemma foldingLine_ranges lineIndex l :
  forall st,
    foldingRangesUpTo lineIndex (ranges st) ->
    foldingRangesUpTo lineIndex (ranges (fold_left (foldingStep lineIndex) l st)).
Proof.
  induction l as [|c l IH]; intros st H; [exact H|].
  cbn [fold_left]. apply IH. now apply foldingStep_ranges.
Qed.

Lemma foldingLines_ranges lines :
  forall lineIndex st,
    foldingRangesUpTo lineIndex (ranges st) ->
    foldingRangesUpTo (lineIndex + (length lines - 1))
      (ranges (foldingLines lines lineIndex st)).
Proof.
  induction lines as [|l lines IH]; intros lineIndex st H.
  - cbn. now rewrite Nat.add_0_r.
  - cbn [foldingLines length].
    pose proof (foldingLine_ranges lineIndex l st H) as H1.
    destruct lines as [|l' lines].
    + cbn [foldingLines length].
      now replace (lineIndex + (1 - 1)) with lineIndex by lia.
    + replace (lineIndex + (S (length (l' :: lines)) - 1))
        with (S lineIndex + (length (l' :: lines) - 1))
        by (cbn [length]; lia).
      apply IH. apply (foldingRangesUpTo_le lineIndex); [lia | exact H1].
Qed.

Lemma split_LF_from_length text :
  forall cur,
    length (split_LF_from cur text) = count_occ N.eq_dec text LF + 1.
Proof.
  induction text as [|c text IH]; intros cur; [reflexivity|].
  rewrite count_occ_LF_cons. cbn [split_LF_from].
  destruct (N.eqb c LF); cbn [length]; rewrite IH; lia.
Qed.

Lemma split_LF_length text :
  length (split_LF text) = count_occ N.eq_dec text LF + 1.
Proof. apply split_LF_from_length. Qed.

(** X20: the folding ranges of a document that does not parse are none.
    Every folding range starts on a line before the line it ends on,
    which is a line of the document, and the ranges are listed in the
    order in which they end; a document of one line has none. *)
Theorem X20_folding_ranges_well_formed :
  forall document,
    let foldingRanges := getDefaultJsonFoldingRanges document in
    let lastLine := count_occ N.eq_dec (getText document) LF in
    (JSON.parses (getText document) = false -> foldingRanges = [])
    /\ Forall (fun r => fold_start r < fold_end r /\ fold_end r <= lastLine)
         foldingRanges
    /\ StronglySorted (fun r1 r2 => fold_end r1 <= fold_end r2) foldingRanges
    /\ (lastLine = 0 -> foldingRanges = []).
Proof.
  intros document foldingRanges lastLine.
  assert (H : foldingRangesUpTo lastLine foldingRanges).
  { subst foldingRanges. unfold getDefaultJsonFoldingRanges.
    destruct (JSON.parses (getText document));
      [|split; constructor].
    pose proof (foldingLines_ranges (split_LF (getText document)) 0
                  (mkFoldingScan [] false false [])
                  (conj (Forall_nil _) (SSorted_nil _))) as H.
    rewrite split_LF_length in H.
    replace (0 + (count_occ N.eq_dec (getText document) LF + 1 - 1))
      with lastLine in H by (subst lastLine; lia).
    exact H. }
  destruct H as [H1 H2].
  split; [|split; [exact H1 | split; [exact H2|]]].
  - intros Hbad. subst foldingRanges. unfold getDefaultJsonFoldingRanges.
    now rewrite Hbad.
  - intros H0. destruct foldingRanges as [|r l]; [reflexivity|].
    inversion H1 as [|? ? [Ha Hb] _]; subst. lia.
Qed.

(** *** The limits of the scan *)

Lemma extractStringRanges_loop_count document text :
  forall m i stringCount ranges,
    length text - i = m ->
    (N.of_nat stringCount <= maxStrings)%N ->
    (N.of_nat (length (extractStringRanges_loop document text i stringCount
                         ranges))
     + N.of_nat stringCount
     <= N.of_nat (length ranges) + maxStrings)%N.
Proof.
  induction m as [m IH] using lt_wf_ind.
  intros i stringCount ranges Hm Hc.
  rewrite extractStringRanges_loop_step.
  destruct (i <? length text) eqn:Hi; [|lia].
  apply Nat.ltb_lt in Hi.
  destruct (N.ltb_spec (N.of_nat stringCount) maxStrings) as [Hlt|Hge]; [|lia].
  destruct (charIs text i QUOTE).
  - destruct (extractSingleStringRange document text i) as [[r next]|] eqn:He.
    + pose proof (extractSingleStringRange_nextIndex _ _ _ _ _ He) as Hnext.
      pose proof (IH (length text - next) ltac:(lia) next (S stringCount)
                    (ranges ++ [r]) eq_refl ltac:(lia)) as H.
      rewrite length_app in H. cbn [length] in H. lia.
    + apply (IH (length text - (i + 1))); lia.
  - apply (IH (length text - (i + 1))); lia.
Qed.

Lemma spansFrom_count document text :
  forall i l,
    spansFrom document text i l ->
    l = [] \/ i + 2 * length l <= length text.
Proof.
  intros i l H. induction H as [i|i s e rest Hi Hse Hs He Hrest IH];
    [now left|right].
  cbn [length]. destruct IH as [-> | IH]; cbn [length]; lia.
Qed.

Lemma spansFrom_sorted document :
  forall i l,
    spansFrom document (getText document) i l ->
    StronglySorted (fun r1 r2 => isBefore (start r2) (end_ r1) = false) l.
Proof.
  intros i l H. induction H as [i|i s e rest Hi Hse Hs He Hrest IH];
    constructor; [exact IH|].
  apply Forall_forall. intros r2 Hr2.
  destruct (spansFrom_In _ _ _ _ _ Hrest Hr2)
    as (s2 & e2 & Hs2 & Hse2 & _ & _ & ->).
  cbn [spanAt start end_]. apply positionAt_le. lia.
Qed.

(** X21: the spans of a document are listed in the order of the text and do
    not overlap: each ends at or before the start of the next ones. Their
    number is bounded: at most [maxStrings] for a text within
    [maxFileSize], and never more than half of [maxFileSize]; in a longer
    text no span reaches past the first [maxFileSize] code units. *)
Theorem X21_spans_ordered_and_bounded :
  forall document,
    let text := getText document in
    let spans := findStringRanges document in
    StronglySorted (fun r1 r2 => isBefore (start r2) (end_ r1) = false) spans
    /\ ((N.of_nat (length text) <= maxFileSize)%N ->
        (N.of_nat (length spans) <= maxStrings)%N)
    /\ (2 * N.of_nat (length spans) <= maxFileSize)%N
    /\ ((maxFileSize < N.of_nat (length text))%N ->
        forall r, In r spans ->
                  (N.of_nat (offsetAt document (end_ r)) <= maxFileSize)%N).
Proof.
  intros document text spans.
  split; [apply (spansFrom_sorted document 0), findStringRanges_spans|].
  subst spans. unfold findStringRanges, parseJsonSafely. fold text.
  destruct (JSON.parses text); cbn [stringRanges length].
  2:{ repeat split; try (unfold maxFileSize, maxStrings; lia).
      intros _ r []. }
  unfold extractStringRangesFromValidJson.
  destruct (N.ltb_spec maxFileSize (N.of_nat (length text))) as [Hbig|Hsmall].
  - unfold extractStringRangesWithLimits.
    set (limited := substring text 0 (N.to_nat maxFileSize)).
    assert (Hlim : limited = firstn (N.to_nat maxFileSize) text).
    { subst limited. rewrite substring_prefix. f_equal. lia. }
    assert (Hlen : length limited = N.to_nat maxFileSize).
    { rewrite Hlim, length_firstn. lia. }
    destruct (extractStringRangesWithLimits_loop_spans document limited
                (length limited - 0) 0 [] eq_refl) as (new & Hnew & Hspans).
    rewrite Hnew. cbn [app].
    split; [lia|]. split.
    + destruct (spansFrom_count _ _ _ _ Hspans) as [-> | H]; cbn [length]; lia.
    + intros _ r Hr.
      destruct (spansFrom_In _ _ _ _ _ Hspans Hr)
        as (s & e & _ & Hse & _ & _ & ->).
      cbn [spanAt end_]. rewrite offsetAt_positionAt by (fold text; lia). lia.
  - split; [|split; [|lia]].
    + intros _.
      pose proof (extractStringRanges_loop_count document text
                    (length text - 0) 0 0 [] eq_refl) as H.
      cbn [length] in H. unfold maxStrings in *. lia.
    + pose proof (extractStringRanges_loop_count document text
                    (length text - 0) 0 0 [] eq_refl) as H.
      cbn [length] in H. unfold maxStrings, maxFileSize in *. lia.
Qed.

(** ** The spans and the string literals of the grammar *)

Lemma literalsFrom_impl document text (c1 c2 : Prop) :
  (c2 -> c1) ->
  forall i l,
    literalsFrom document text c1 i l -> literalsFrom document text c2 i l.
Proof.
  intros Hc i l H. induction H as [i Hnil|i s e rest Hi Hgap Hlit Hrest IH].
  - constructor. auto.
  - now constructor.
Qed.

Lemma literalsFrom_extend document text complete i l :
  charIs text i QUOTE = false ->
  literalsFrom document text complete (i + 1) l ->
  literalsFrom document text complete i l.
Proof.
  intros Hq H. inversion H as [i' Hnil|i' s e rest Hi Hgap Hlit Hrest]; subst.
  - constructor. intros Hc j Hj.
    destruct (Nat.eq_dec j i) as [->|]; [exact Hq | apply Hnil; [exact Hc | lia]].
  - constructor; [lia | | exact Hlit | exact Hrest].
    intros j Hj. destruct (Nat.eq_dec j i) as [->|]; [exact Hq | apply Hgap; lia].
Qed.

Lemma outsideString_not_stringMode st :
  outsideString st -> stringMode st = false.
Proof. destruct st; cbn; tauto. Qed.

Section ScanOfLiterals.

Variable text : jsstring.
Hypothesis Hvalid : JSON.parses text = true.

(** In a text that parses, the search for the closing quote of a string
    literal finds it. *)
Lemma findStringEnd_closes :
  forall m i,
    length text - i = m ->
    (exists k, fst (cfgAt text i) = JSON.InString k) ->
    exists e, findStringEnd text i = Some e.
Proof.
  induction m as [m IH] using lt_wf_ind. intros i Hm [k Hst].
  assert (Hi : i < length text)
    by (apply stringMode_end; [assumption | now rewrite Hst]).
  rewrite findStringEnd_step.
  replace (i <? length text) with true by (symmetry; now apply Nat.ltb_lt).
  destruct (at_InString text Hvalid _ (le_n _) i k Hst) as (c & Hc & _ & Hcase).
  assert (Hci : forall d, charIs text i d = N.eqb c d)
    by (intros d; unfold charIs; now rewrite Hc).
  rewrite !Hci.
  destruct Hcase as [(-> & Hout)|[(-> & Hesc)|(Hq & Hb & Hin)]].
  - change (QUOTE =? BACKSLASH)%N with false. rewrite N.eqb_refl. eauto.
  - rewrite N.eqb_refl.
    assert (Hi1 : S i < length text)
      by (apply stringMode_end; [assumption | now rewrite Hesc]).
    replace (i + 1 <? length text) with true
      by (symmetry; apply Nat.ltb_lt; lia).
    destruct (at_Escape text Hvalid _ (le_n _) (S i) k Hesc)
      as (c' & Hc' & _ & Hcase').
    assert (Hci' : charIs text (i + 1) CH_u = N.eqb c' CH_u).
    { unfold charIs. replace (i + 1) with (S i) by lia. now rewrite Hc'. }
    rewrite Hci'.
    destruct Hcase' as [(-> & Hhex)|(Hnu & Hin)].
    + rewrite N.eqb_refl. cbn [andb].
      destruct (at_Hex text Hvalid _ (le_n _) (S (S i)) k 3 Hhex)
        as (c2 & Hc2 & Hh2 & Hs3).
      destruct (at_Hex text Hvalid _ (le_n _) (S (S (S i))) k 2 Hs3)
        as (c3 & Hc3 & Hh3 & Hs4).
      destruct (at_Hex text Hvalid _ (le_n _) (S (S (S (S i)))) k 1 Hs4)
        as (c4 & Hc4 & Hh4 & Hs5).
      destruct (at_Hex text Hvalid _ (le_n _) (S (S (S (S (S i))))) k 0 Hs5)
        as (c5 & Hc5 & Hh5 & Hs6).
      assert (Hi5 : i + 5 < length text)
        by (apply nth_error_Some; replace (i + 5) with (S (S (S (S (S i)))))
              by lia; congruence).
      replace (i + 5 <? length text) with true
        by (symmetry; now apply Nat.ltb_lt).
      assert (Hvalidhex :
                isValidUnicodeEscape (substring text (i + 2) (i + 6)) = true).
      { rewrite substring_slice by lia.
        unfold isValidUnicodeEscape.
        rewrite length_firstn, length_skipn.
        replace (Nat.min (i + 6 - (i + 2)) (length text - (i + 2))) with 4
          by lia.
        cbn [Nat.eqb negb]. apply forallb_forall. intros x Hx.
        apply In_firstn_skipn in Hx. destruct Hx as (t & Ht & Hx).
        assert (Ht' : t = 0 \/ t = 1 \/ t = 2 \/ t = 3) by lia.
        destruct Ht' as [-> | [-> | [-> | ->]]].
        - replace (i + 2 + 0) with (S (S i)) in Hx by lia. congruence.
        - replace (i + 2 + 1) with (S (S (S i))) in Hx by lia. congruence.
        - replace (i + 2 + 2) with (S (S (S (S i)))) in Hx by lia. congruence.
        - replace (i + 2 + 3) with (S (S (S (S (S i))))) in Hx by lia.
          congruence. }
      rewrite Hvalidhex. cbn [andb].
      apply (IH (length text - (i + 6))); [lia | reflexivity|].
      exists k. now replace (i + 6) with (S (S (S (S (S (S i)))))) by lia.
    + replace (c' =? CH_u)%N with false by (symmetry; now apply N.eqb_neq).
      cbn [andb].
      assert (Hi2 : S (S i) < length text)
        by (apply stringMode_end; [assumption | now rewrite Hin]).
      apply (IH (length text - (i + 2))); [lia | reflexivity|].
      exists k. now replace (i + 2) with (S (S i)) by lia.
  - replace (c =? BACKSLASH)%N with false by (symmetry; now apply N.eqb_neq).
    replace (c =? QUOTE)%N with false by (symmetry; now apply N.eqb_neq).
    assert (Hi1 : S i < length text)
      by (apply stringMode_end; [assumption | now rewrite Hin]).
    apply (IH (length text - (i + 1))); [lia | reflexivity|].
    exists k. now replace (i + 1) with (S i) by lia.
Qed.

Variable document : TextDocument.

(** At a quote read between literals, the scanner extracts the span of
    the literal that starts there. *)
Lemma extractSingleStringRange_literal i :
  charIs text i QUOTE = true ->
  outsideString (fst (cfgAt text i)) ->
  exists e,
    extractSingleStringRange document text i
    = Some (spanAt document text i e, e + 1)
    /\ literalAt text i e.
Proof.
  intros Hq Hout.
  assert (Hqt : nth_error text i = Some QUOTE) by now apply charIs_true.
  assert (Hstr : exists k, fst (cfgAt text (i + 1)) = JSON.InString k).
  { replace (i + 1) with (S i) by lia.
    pose proof (parses_not_Fail text (S i) Hvalid) as Hnf.
    rewrite (cfgAt_S text i QUOTE Hqt) in Hnf |- *.
    destruct (cfgAt text i) as [st stack]. cbn [fst] in Hout.
    destruct (step_outside_quote st stack Hout); [contradiction | assumption]. }
  destruct (findStringEnd_closes (length text - (i + 1)) (i + 1) eq_refl Hstr)
    as [e He].
  pose proof (findStringEnd_stringMode text Hvalid (length text) (le_n _)
                (length text - (i + 1)) (i + 1) eq_refl) as Hscan.
  rewrite firstn_all, He in Hscan.
  assert (Hle : i + 1 <= length text) by (apply charIs_lt in Hq; lia).
  destruct (Hscan Hle Hstr) as [Hmodes Hout'].
  pose proof (findStringEnd_bounds _ _ _ He) as [Hbounds Hqe].
  exists e. split.
  - unfold extractSingleStringRange. rewrite Hq, He. reflexivity.
  - unfold literalAt. repeat split; try assumption; try lia.
    intros j Hj. apply Hmodes. lia.
Qed.

Lemma extractStringRanges_loop_literals :
  forall m i stringCount ranges,
    length text - i = m ->
    length ranges = stringCount ->
    outsideString (fst (cfgAt text i)) ->
    exists new,
      extractStringRanges_loop document text i stringCount ranges
      = ranges ++ new
      /\ literalsFrom document text
           (N.of_nat (length (ranges ++ new)) < maxStrings)%N i new.
Proof.
  induction m as [m IH] using lt_wf_ind.
  intros i stringCount ranges Hm Hcount Hout.
  rewrite extractStringRanges_loop_step.
  destruct (i <? length text) eqn:Hi.
  2:{ apply Nat.ltb_ge in Hi. exists []. rewrite app_nil_r. split; [reflexivity|].
      constructor. intros _ j Hj.
      destruct (charIs text j QUOTE) eqn:E; [|reflexivity].
      apply charIs_lt in E. lia. }
  apply Nat.ltb_lt in Hi.
  destruct (N.ltb_spec (N.of_nat stringCount) maxStrings) as [Hlt|Hge].
  2:{ exists []. rewrite app_nil_r. split; [reflexivity|].
      constructor. intros Hc. lia. }
  destruct (charIs text i QUOTE) eqn:Hq.
  - destruct (extractSingleStringRange_literal i Hq Hout)
      as (e & Hx & Hlit).
    rewrite Hx.
    destruct Hlit as (Hqs & Houts & Hse & Hqe & Hmodes & Houte).
    destruct (IH (length text - (e + 1)) ltac:(lia) (e + 1) (S stringCount)
                (ranges ++ [spanAt document text i e]) eq_refl
                ltac:(rewrite length_app; cbn; lia) Houte)
      as (new & Hnew & Hlits).
    exists (spanAt document text i e :: new).
    split; [rewrite Hnew, <- app_assoc; reflexivity|].
    constructor;
      [lia | intros j Hj; lia
      | unfold literalAt; repeat split; (assumption || lia) |].
    eapply literalsFrom_impl; [|exact Hlits].
    now rewrite <- app_assoc.
  - assert (Hout1 : outsideString (fst (cfgAt text (i + 1)))).
    { destruct (nth_error text i) as [c|] eqn:Hc;
        [|apply nth_error_None in Hc; lia].
      assert (Hne : c <> QUOTE).
      { intros ->. apply charIs_true in Hc. congruence. }
      replace (i + 1) with (S i) by lia.
      pose proof (parses_not_Fail text (S i) Hvalid) as Hnf.
      rewrite (cfgAt_S text i c Hc) in Hnf |- *.
      destruct (cfgAt text i) as [st stack]. cbn [fst] in Hout.
      destruct (step_outside_nonquote st stack c Hout Hne);
        [contradiction | assumption]. }
    destruct (IH (length text - (i + 1)) ltac:(lia) (i + 1) stringCount ranges
                eq_refl Hcount Hout1) as (new & Hnew & Hlits).
    exists new. split; [exact Hnew|].
    now apply literalsFrom_extend.
Qed.

End ScanOfLiterals.

Lemma literalsFrom_sound document text complete :
  forall i l,
    literalsFrom document text complete i l ->
    forall r, In r l ->
    exists s e, r = spanAt document text s e /\ literalAt text s e.
Proof.
  intros i l H. induction H as [i Hnil|i s e rest Hi Hgap Hlit Hrest IH];
    intros r Hr; [contradiction|].
  destruct Hr as [<- | Hr]; [eauto | now apply IH].
Qed.

Lemma literalsFrom_complete document text (complete : Prop) :
  complete ->
  forall i l,
    literalsFrom document text complete i l ->
    forall s,
      i <= s -> charIs text s QUOTE = true ->
      outsideString (fst (cfgAt text s)) ->
      exists e, In (spanAt document text s e) l /\ literalAt text s e.
Proof.
  intros Hc i l H. induction H as [i Hnil|i s0 e0 rest Hi Hgap Hlit Hrest IH];
    intros s Hs Hq Hout.
  - rewrite (Hnil Hc s Hs) in Hq. discriminate.
  - destruct (Nat.lt_ge_cases s s0) as [Hlt|Hge].
    { rewrite (Hgap s) in Hq by lia. discriminate. }
    destruct (Nat.eq_dec s s0) as [->|Hne].
    { exists e0. split; [now left | exact Hlit]. }
    destruct (Nat.le_gt_cases s e0) as [Hle|Hgt].
    { destruct Hlit as (_ & _ & _ & _ & Hmodes & _).
      apply outsideString_not_stringMode in Hout.
      rewrite Hmodes in Hout by lia. discriminate. }
    destruct (IH s ltac:(lia) Hq Hout) as (e & Hin & Hl).
    exists e. split; [now right | exact Hl].
Qed.

(** X22: in a document that parses and is within the size limit, every
    span is a string literal of the JSON grammar, from its opening quote
    to its closing quote; when the number of spans is below the count
    limit every string literal has its span. *)
Theorem X22_spans_are_the_string_literals :
  forall document,
    let text := getText document in
    JSON.parses text = true ->
    (N.of_nat (length text) <= maxFileSize)%N ->
    (forall r,
        In r (findStringRanges document) ->
        exists s e, r = spanAt document text s e /\ literalAt text s e)
    /\ ((N.of_nat (length (findStringRanges document)) < maxStrings)%N ->
        forall s,
          charIs text s QUOTE = true ->
          outsideString (fst (cfgAt text s)) ->
          exists e,
            In (spanAt document text s e) (findStringRanges document)
            /\ literalAt text s e).
Proof.
  intros document text Hvalid Hsize.
  assert (Hspans : findStringRanges document
                   = extractStringRanges_loop document text 0 0 []).
  { unfold findStringRanges, parseJsonSafely. fold text. rewrite Hvalid.
    cbn [stringRanges]. unfold extractStringRangesFromValidJson.
    destruct (N.ltb_spec maxFileSize (N.of_nat (length text))); [lia|].
    reflexivity. }
  destruct (extractStringRanges_loop_literals text Hvalid document
              (length text - 0) 0 0 [] eq_refl eq_refl I)
    as (new & Hnew & Hlits).
  rewrite Hspans, Hnew. cbn [app] in *. split.
  - apply (literalsFrom_sound _ _ _ _ _ Hlits).
  - intros Hc s Hq Hout.
    apply (literalsFrom_complete _ _ _ Hc _ _ Hlits s); [lia | assumption..].
Qed.

Lemma X22_spans_are_the_string_literals_witness :
  exists e,
    In (spanAt document_D (getText document_D) 6 e)
      (findStringRanges document_D)
    /\ literalAt (getText document_D) 6 e.
Proof.
  assert (Hsize : (N.of_nat (length (getText document_D)) <= maxFileSize)%N)
    by (vm_compute; discriminate).
  assert (Hcount : (N.of_nat (length (findStringRanges document_D))
                    < maxStrings)%N)
    by (vm_compute; reflexivity).
  exact (proj2 (X22_spans_are_the_string_literals document_D
                  eq_refl Hsize)
           Hcount 6 eq_refl I).
Defined.

(** ** The content transformer, from the visual side *)

(** *** The other round trip of the content transformer *)

Lemma replace_LF_by_escape_head c rest :
  c <> LF ->
  (forall d rest', rest = d :: rest' -> N.eqb c BACKSLASH && N.eqb d CH_n = false) ->
  forall d X, replace_LF_by_escape rest = d :: X ->
              N.eqb c BACKSLASH && N.eqb d CH_n = false.
Proof.
  intros Hc Hpair d X HX.
  destruct rest as [|d0 rest']; [discriminate HX|].
  cbn [replace_LF_by_escape] in HX.
  destruct (N.eqb d0 LF) eqn:E.
  - injection HX as <- _. change (N.eqb BACKSLASH CH_n) with false.
    apply andb_false_r.
  - injection HX as <- _. now apply (Hpair d0 rest').
Qed.

Lemma replace_escape_after_LF text :
  count_escape text = 0 ->
  replace_escape_by_LF (replace_LF_by_escape text) = text.
Proof.
  pattern text. apply jsstring_pair_ind; clear text.
  - reflexivity.
  - intros c _. cbn [replace_LF_by_escape].
    destruct (N.eqb c LF) eqn:E.
    + apply N.eqb_eq in E. subst c. reflexivity.
    + reflexivity.
  - intros c d rest IH1 IH2 H.
    rewrite count_escape_cons in H.
    destruct (N.eqb c BACKSLASH && N.eqb d CH_n) eqn:Hp; [discriminate H|].
    specialize (IH2 H).
    change (replace_LF_by_escape (c :: d :: rest))
      with (if N.eqb c LF
            then BACKSLASH :: CH_n :: replace_LF_by_escape (d :: rest)
            else c :: replace_LF_by_escape (d :: rest)).
    destruct (N.eqb c LF) eqn:E.
    + apply N.eqb_eq in E. subst c.
      rewrite replace_escape_by_LF_cons. cbn [N.eqb Pos.eqb andb].
      change (BACKSLASH =? BACKSLASH)%N with true.
      change (CH_n =? CH_n)%N with true. cbn [andb].
      now rewrite IH2.
    + destruct (replace_LF_by_escape (d :: rest)) as [|d' X] eqn:HX.
      { cbn [replace_LF_by_escape] in HX. destruct (N.eqb d LF); discriminate HX. }
      rewrite replace_escape_by_LF_cons.
      assert (Hno : N.eqb c BACKSLASH && N.eqb d' CH_n = false).
      { eapply (replace_LF_by_escape_head c (d :: rest));
          [now apply N.eqb_neq | | exact HX].
        intros d0 rest' [= <- <-]. exact Hp. }
      rewrite Hno, IH2. reflexivity.
Qed.

Lemma replace_LF_by_escape_count_escape text :
  count_escape (replace_LF_by_escape text)
  = count_escape text + count_occ N.eq_dec text LF.
Proof.
  pattern text. apply jsstring_pair_ind; clear text.
  - reflexivity.
  - intros c. rewrite count_occ_LF_cons. cbn [replace_LF_by_escape].
    destruct (N.eqb c LF); reflexivity.
  - intros c d rest IH1 IH2.
    rewrite count_escape_cons, (count_occ_LF_cons c).
    change (replace_LF_by_escape (c :: d :: rest))
      with (if N.eqb c LF
            then BACKSLASH :: CH_n :: replace_LF_by_escape (d :: rest)
            else c :: replace_LF_by_escape (d :: rest)).
    destruct (N.eqb c BACKSLASH && N.eqb d CH_n) eqn:Hp.
    + apply andb_prop in Hp. destruct Hp as [Hc Hd].
      apply N.eqb_eq in Hc, Hd. subst c d.
      change (N.eqb BACKSLASH LF) with false. cbv iota.
      change (replace_LF_by_escape (CH_n :: rest))
        with (CH_n :: replace_LF_by_escape rest).
      rewrite count_escape_cons, (count_occ_LF_cons CH_n).
      change (BACKSLASH =? BACKSLASH)%N with true.
      change (CH_n =? CH_n)%N with true.
      change (N.eqb CH_n LF) with false. cbn [andb]. rewrite IH1. lia.
    + destruct (N.eqb c LF) eqn:E.
      * rewrite count_escape_cons.
        change (BACKSLASH =? BACKSLASH)%N with true.
        change (CH_n =? CH_n)%N with true. cbn [andb]. rewrite IH2. lia.
      * destruct (replace_LF_by_escape (d :: rest)) as [|d' X] eqn:HX.
        { cbn [replace_LF_by_escape] in HX.
          destruct (N.eqb d LF); discriminate HX. }
        rewrite count_escape_cons.
        assert (Hno : N.eqb c BACKSLASH && N.eqb d' CH_n = false).
        { eapply (replace_LF_by_escape_head c (d :: rest));
            [now apply N.eqb_neq | | exact HX].
          intros d0 rest' [= <- <-]. exact Hp. }
        rewrite Hno, IH2. lia.
Qed.

(** X23: inside a string span, escaping the line feeds of a text and then
    reading the escapes back gives the text again exactly when the text
    holds no backslash-n pair of its own; outside a span both
    transformations leave every text as it is. *)
Theorem X23_visual_content_round_trip :
  forall document rg g,
    (forall sr,
        getStringRangeAtPosition document (range_start rg) = Some sr ->
        (transformActualContentToVisual document
           (transformVisualContentToActual document g rg) rg = g
         <-> includes g [BACKSLASH; CH_n] = false))
    /\ (getStringRangeAtPosition document (range_start rg) = None ->
        transformActualContentToVisual document
          (transformVisualContentToActual document g rg) rg = g).
Proof.
  intros document rg g. split.
  - intros sr Hsr.
    unfold transformActualContentToVisual, transformVisualContentToActual.
    rewrite Hsr. split.
    + intros Heq.
      destruct (includes g [BACKSLASH; CH_n]) eqn:Hinc; [|reflexivity].
      exfalso. apply includes_escape_count in Hinc.
      pose proof (replace_LF_by_escape_count_escape g) as Hle.
      pose proof (replace_escape_by_LF_measure (replace_LF_by_escape g))
        as [Hlen _].
      rewrite Heq, replace_LF_by_escape_length in Hlen. lia.
    + intros Hinc. apply replace_escape_after_LF.
      destruct (count_escape g) eqn:E; [reflexivity|].
      assert (H : includes g [BACKSLASH; CH_n] = true)
        by (apply includes_escape_count; lia).
      congruence.
  - intros Hnone.
    unfold transformActualContentToVisual, transformVisualContentToActual.
    now rewrite Hnone.
Qed.

(** ** Visual positions and the completion of a counter-edit *)

(** *** [calculateVisualPosition] *)

Lemma split_escape_from_length text :
  forall cur, length (split_escape_from cur text) = count_escape text + 1.
Proof.
  pattern text. apply jsstring_pair_ind; clear text.
  - reflexivity.
  - reflexivity.
  - intros c d rest IH1 IH2 cur.
    rewrite count_escape_cons.
    change (split_escape_from cur (c :: d :: rest))
      with (if N.eqb c BACKSLASH && N.eqb d CH_n
            then rev cur :: split_escape_from [] rest
            else split_escape_from (c :: cur) (d :: rest)).
    destruct (N.eqb c BACKSLASH && N.eqb d CH_n).
    + cbn [length]. rewrite IH1. lia.
    + apply IH2.
Qed.

(** The pairs of a text followed by an escape and more text: those of the
    text, the escape, those of the rest. *)
Lemma count_escape_app_escape before after :
  count_escape (before ++ BACKSLASH :: CH_n :: after)
  = count_escape before + 1 + count_escape after.
Proof.
  pattern before. apply jsstring_pair_ind; clear before.
  - cbn [app]. rewrite count_escape_cons.
    change (BACKSLASH =? BACKSLASH)%N with true.
    change (CH_n =? CH_n)%N with true. cbn [andb count_escape]. lia.
  - intros c. cbn [app]. rewrite count_escape_cons.
    change (BACKSLASH =? CH_n)%N with false. rewrite andb_false_r.
    rewrite count_escape_cons.
    change (BACKSLASH =? BACKSLASH)%N with true.
    change (CH_n =? CH_n)%N with true. cbn [andb count_escape]. lia.
  - intros c d rest IH1 IH2.
    change ((c :: d :: rest) ++ BACKSLASH :: CH_n :: after)
      with (c :: d :: (rest ++ BACKSLASH :: CH_n :: after)).
    rewrite !count_escape_cons.
    destruct (N.eqb c BACKSLASH && N.eqb d CH_n).
    + rewrite IH1. lia.
    + change (d :: rest ++ BACKSLASH :: CH_n :: after)
        with ((d :: rest) ++ BACKSLASH :: CH_n :: after).
      exact IH2.
Qed.

(** X24: for an occurrence of a document, the visual position within its
    string counts the backslash-n pairs: the string shows one visual line
    more than it holds pairs, the visual line of the occurrence is the
    number of pairs before it, which is below that total, and the
    occurrence is flagged as the last one exactly when its index is the
    last index of the occurrences of its span. *)
Theorem X24_visual_position_of_occurrence :
  forall document np,
    In np (getDetailedNewlinePositions document) ->
    let info := calculateVisualPosition document np in
    let r := stringRange np in
    totalVisualLines info = count_escape (content r) + 1
    /\ visualLine info = count_escape (beforeText np)
    /\ visualLine info < totalVisualLines info
    /\ visualLine info + 1 + count_escape (afterText np) + 1
       = totalVisualLines info
    /\ visualCharacter info = length (currentLineContent info)
    /\ (isLastNewlineInString info = true <->
        indexInString np + 1
        = length (findDetailedNewlinePositionsInString document r)).
Proof.
  intros document np Hin info r.
  destruct (getDetailedNewlinePositions_In document np Hin)
    as (s & e & p & k & Hse & Hr & Hhas & Hp & Hlen & Hb & Hn & Hnp).
  assert (Hsplit : beforeText np ++ [BACKSLASH; CH_n] ++ afterText np
                   = content r).
  { subst np r. cbn [stringRange beforeText afterText spanAt content].
    apply charIs_true in Hb, Hn.
    rewrite <- (substring_app (getText document) (s + 1) (s + 1 + p) e) by lia.
    f_equal.
    rewrite <- (substring_app (getText document) (s + 1 + p) (s + 1 + p + 1) e)
      by lia.
    rewrite (substring_one _ _ _ Hb). cbn [app]. f_equal.
    rewrite <- (substring_app (getText document) (s + 1 + p + 1) (s + 1 + p + 2) e)
      by lia.
    replace (s + 1 + p + 2) with (s + 1 + p + 1 + 1) by lia.
    now rewrite (substring_one _ _ _ Hn). }
  assert (Htotal : count_escape (content r)
                   = count_escape (beforeText np) + 1
                     + count_escape (afterText np)).
  { rewrite <- Hsplit. apply count_escape_app_escape. }
  assert (Hcount : length (findDetailedNewlinePositionsInString document r)
                   = countNewlinesInString (content r)).
  { subst r np. cbn [stringRange].
    rewrite findDetailedNewlinePositionsInString_span by exact Hse.
    now rewrite occurrencesFrom_length, length_map. }
  subst info. unfold calculateVisualPosition.
  cbn [totalVisualLines visualLine visualCharacter currentLineContent
       isLastNewlineInString].
  fold r. unfold split_escape. rewrite split_escape_from_length.
  rewrite Hcount, Nat.eqb_eq.
  repeat split; try lia.
Qed.

Lemma X24_visual_position_of_occurrence_witness :
  let np :=
    mkDetailedNewlinePosition (mkPosition 0 8) (mkPosition 0 10)
      (mkStringRange (mkPosition 0 6) (mkPosition 0 12) (str "x\ny") true)
      8 10 0 (str "x") (str "y") in
  totalVisualLines (calculateVisualPosition document_D np) = 2
  /\ isLastNewlineInString (calculateVisualPosition document_D np) = true.
Proof.
  intros np.
  assert (Hin : In np (getDetailedNewlinePositions document_D))
    by (vm_compute; left; reflexivity).
  destruct (X24_visual_position_of_occurrence document_D np Hin)
    as (H1 & _ & _ & _ & _ & H6).
  split; [rewrite H1; vm_compute; reflexivity|].
  apply H6. vm_compute. reflexivity.
Defined.

(** *** The continuation of a counter-edit *)

Lemma setSelection_run p q w :
  exec (setSelection p q) w =
  mkWorld (isProcessingEdit w) (documentStates w) (currentDecorations w)
    (isEnabled w)
    (option_map (fun e => mkTextEditor (editor_document e) (p, q))
       (activeTextEditor w))
    (appliedEdits w).
Proof. reflexivity. Qed.

Lemma exec_transformActualToVisual document p w :
  exec (transformActualToVisual document p) w
  = exec (ensureDocumentState document) w.
Proof. unfold transformActualToVisual. now rewrite exec_seq. Qed.

(** X25: when the application of a counter-edit has completed, the flag is
    cleared and the decorations, the enabled switch and the submitted
    edits are as before. If the active editor shows the document, its
    selection becomes empty, at the visual position of the end of the
    converted text placed at the start of the range, which is never on an
    earlier line; otherwise the editor and the document states are left
    alone. *)
Theorem X25_counter_edit_completion_places_cursor :
  forall document r convertedText w,
    let w' := exec (counterEditApplied document r convertedText) w in
    let newEndPosition :=
      mkPosition (line (range_start r))
        (character (range_start r) + length convertedText) in
    let visualPosition :=
      transformActualToVisual_position document newEndPosition in
    isProcessingEdit w' = false
    /\ currentDecorations w' = currentDecorations w
    /\ isEnabled w' = isEnabled w
    /\ appliedEdits w' = appliedEdits w
    /\ line (range_start r) <= line visualPosition
    /\ (forall editor,
          activeTextEditor w = Some editor ->
          sameDocument (editor_document editor) document = true ->
          activeTextEditor w'
          = Some (mkTextEditor (editor_document editor)
                    (visualPosition, visualPosition)))
    /\ ((activeTextEditor w = None
         \/ exists editor,
              activeTextEditor w = Some editor
              /\ sameDocument (editor_document editor) document = false) ->
        activeTextEditor w' = activeTextEditor w
        /\ documentStates w' = documentStates w).
Proof.
  intros document r convertedText w w' newEndPosition visualPosition.
  subst w'. unfold counterEditApplied. rewrite exec_seq.
  set (w1 := exec (setProcessingEdit false) w).
  assert (Hw1 : w1 = mkWorld false (documentStates w) (currentDecorations w)
                       (isEnabled w) (activeTextEditor w) (appliedEdits w))
    by reflexivity.
  assert (Hline : line (range_start r) <= line visualPosition)
    by apply (transformActualToVisual_position_line document newEndPosition).
  unfold updateCursorAfterTransformation, exec at 1 2 3 4 5 6 7.
  rewrite bind_run. cbn [get fst snd].
  replace (activeTextEditor w1) with (activeTextEditor w) by now rewrite Hw1.
  destruct (activeTextEditor w) as [editor|] eqn:Hed.
  2:{ cbn [ret snd]. rewrite Hw1.
      cbn [isProcessingEdit currentDecorations isEnabled appliedEdits
           activeTextEditor documentStates].
      repeat split; auto; try discriminate. }
  destruct (sameDocument (editor_document editor) document) eqn:Hsame;
    cbn [negb].
  2:{ cbn [ret snd]. rewrite Hw1.
      cbn [isProcessingEdit currentDecorations isEnabled appliedEdits
           activeTextEditor documentStates].
      repeat split; auto; try (intros editor' H1 H2; congruence). }
  rewrite bind_run. fold newEndPosition.
  change (fst (transformActualToVisual document newEndPosition w1))
    with (eval (transformActualToVisual document newEndPosition) w1).
  rewrite eval_transformActualToVisual. fold visualPosition.
  change (snd (transformActualToVisual document newEndPosition w1))
    with (exec (transformActualToVisual document newEndPosition) w1).
  rewrite exec_transformActualToVisual.
  match goal with
  | |- context [snd (setSelection visualPosition visualPosition ?w2)] =>
      change (snd (setSelection visualPosition visualPosition w2))
        with (exec (setSelection visualPosition visualPosition) w2)
  end.
  rewrite setSelection_run.
  destruct (ensureDocumentState_spec document w1) as [ds Hds].
  unfold exec. rewrite Hds. cbn [snd]. rewrite Hw1.
  cbn [isProcessingEdit currentDecorations isEnabled appliedEdits
       activeTextEditor documentStates option_map].
  repeat split; auto;
    try (intros editor' H1 H2; congruence);
    try (intros [H | (editor' & H1 & H2)]; congruence);
    try match goal with
        | H : _ \/ _ |- _ =>
            destruct H as [H | (editor' & H1 & H2)]; congruence
        end.
Qed.
